(** * gitdb2.git_handling: path algebra, tree editing and the commit
      orchestrator, embedded and verified.

    The Python module edits git trees through pygit2.  The embedding keeps
    the shape of the source: every function of [git_handling.py] that a
    property below talks about has a definition of the same name, Python
    exceptions are values of [exn], and the object database is an explicit
    store threaded through the calls. *)

From Stdlib Require Import ZArith Ascii String Lia.
From stdpp Require Import base option list gmap strings.

Set Warnings "-register-all".

Local Open Scope string_scope.
Local Open Scope Z_scope.

(** ** Python strings *)

Module PyStr.

(** [s.rfind(c)]: index of the last occurrence of [c], or -1. *)
Fixpoint rfind (c : ascii) (s : string) : Z :=
  match s with
  | EmptyString => -1
  | String a r =>
      let i := rfind c r in
      if 0 <=? i then i + 1
      else if Ascii.eqb a c then 0 else -1
  end.

(** [s[:n]] and [s[n:]] for a non-negative [n]. *)
Fixpoint take (n : nat) (s : string) : string :=
  match n, s with
  | S n, String a r => String a (take n r)
  | _, _ => EmptyString
  end.

Fixpoint drop (n : nat) (s : string) : string :=
  match n, s with
  | S n, String _ r => drop n r
  | _, _ => s
  end.

(** [s.rstrip(c)]. *)
Fixpoint rstrip (c : ascii) (s : string) : string :=
  match s with
  | EmptyString => EmptyString
  | String a r =>
      match rstrip c r with
      | EmptyString => if Ascii.eqb a c then EmptyString else String a EmptyString
      | r' => String a r'
      end
  end.

(** [c * n]. *)
Fixpoint mul (c : ascii) (n : nat) : string :=
  match n with
  | O => EmptyString
  | S n => String c (mul c n)
  end.

Definition startswith (c : ascii) (s : string) : bool :=
  match s with
  | String a _ => Ascii.eqb a c
  | EmptyString => false
  end.

Fixpoint endswith (c : ascii) (s : string) : bool :=
  match s with
  | EmptyString => false
  | String a EmptyString => Ascii.eqb a c
  | String _ r => endswith c r
  end.

(** [c in s]. *)
Fixpoint contains (c : ascii) (s : string) : bool :=
  match s with
  | EmptyString => false
  | String a r => Ascii.eqb a c || contains c r
  end.

(** Truthiness of a string: [if s:]. *)
Definition truthy (s : string) : bool :=
  match s with EmptyString => false | _ => true end.

End PyStr.

(** ** posixpath and [full_split] *)

Module Path.
Import PyStr.

Definition sep : ascii := "/"%char.

(** [os.path.split]: everything up to the last slash, and what follows it;
    trailing slashes are stripped from the head unless it is all slashes. *)
Definition split (p : string) : string * string :=
  let i := Z.to_nat (rfind sep p + 1) in
  let head := take i p in
  let tail := drop i p in
  let head :=
    if truthy head && negb (String.eqb head (mul sep (String.length head)))
    then rstrip sep head else head in
  (head, tail).

(** [os.path.join(a, *p)]. *)
Definition join_step (path b : string) : string :=
  if startswith sep b then b
  else if negb (truthy path) || endswith sep path then path ++ b
  else path ++ String sep b.

Definition join (a : string) (p : list string) : string :=
  foldl join_step a p.

(** The [while head:] loop of [full_split].  Python puts no bound on the
    number of iterations; [fuel] does, and [None] stands for a loop that is
    still running when the fuel is gone. *)
Fixpoint full_split_loop (fuel : nat) (head : string) (parts : list string)
  : option (list string) :=
  if truthy head then
    match fuel with
    | O => None
    | S fuel =>
        let '(head, tail) := split head in
        full_split_loop fuel head (tail :: parts)
    end
  else Some parts.

(** [full_split(filename)].  The head shrinks by at least one character per
    iteration whenever the loop terminates at all ([full_split_total]), so
    the length of the argument is fuel enough; on a path that starts with a
    slash no amount of fuel is ([full_split_loop_absolute]). *)
Definition full_split (filename : string) : option (list string) :=
  let '(head, tail) := split filename in
  full_split_loop (String.length filename) head [tail].

(** *** Vocabulary for the properties of [full_split] *)

(** The path [os.path.join] makes of a list of parts. *)
Definition path_of (parts : list string) : string :=
  match parts with
  | a :: p => join a p
  | [] => ""
  end.

(** A proper segment: not empty, no slash. *)
Definition segment (s : string) : bool := truthy s && negb (contains sep s).

(** The lists [full_split] returns: segments, the last of which may be
    empty. *)
Fixpoint valid_parts (parts : list string) : bool :=
  match parts with
  | [] => false
  | [t] => negb (contains sep t)
  | d :: rest => segment d && valid_parts rest
  end.

(** [head == sep * len(head)]. *)
Definition all_sep (s : string) : bool := String.eqb s (mul sep (String.length s)).

(** A head the loop of [full_split] can work on: not empty, no slash at
    either end. *)
Definition clean (h : string) : Prop :=
  truthy h = true ∧ startswith sep h = false ∧ endswith sep h = false.

End Path.


(** ** Exceptions and the state-and-exception monad *)

Inductive exn : Type :=
| TypeError
| KeyError
| AttributeError
| AssertionError
| IndexError
| GitError
| ValueError (arg : string)
| Exception (args : list string).

(** Result of running a piece of Python from a state [s]: a value, an
    exception, both with the state reached, or no result at all. *)
Inductive outcome (S A : Type) : Type :=
| Ok (a : A) (s : S)
| Raise (e : exn) (s : S)
| Diverge.
Arguments Ok {S A} a s.
Arguments Raise {S A} e s.
Arguments Diverge {S A}.

Definition M (S A : Type) : Type := S → outcome S A.

Definition ret {S A} (a : A) : M S A := λ s, Ok a s.
Definition raise {S A} (e : exn) : M S A := λ s, Raise e s.
Definition diverge {S A} : M S A := λ _, Diverge.
Definition bind {S A B} (m : M S A) (k : A → M S B) : M S B :=
  λ s, match m s with
       | Ok a s' => k a s'
       | Raise e s' => Raise e s'
       | Diverge => Diverge
       end.
Definition get {S} : M S S := λ s, Ok s s.
Definition modify {S} (f : S → S) : M S unit := λ s, Ok tt (f s).

Notation "'let*' x ':=' m 'in' k" := (bind m (λ x, k))
  (at level 10, x name, m at level 100, k at level 200, only parsing).
Notation "'let*' ' p ':=' m 'in' k" := (bind m (λ x, match x with p => k end))
  (at level 10, p pattern, m at level 100, k at level 200, only parsing).
Notation "m ';;' k" := (bind m (λ _, k))
  (at level 100, k at level 200, right associativity, only parsing).

(** [assert b]. *)
Definition assert {S} (b : bool) : M S unit :=
  if b then ret tt else raise AssertionError.

(** ** The pygit2 object model *)

Definition Oid : Type := positive.

Definition GIT_FILEMODE_BLOB : Z := 33188. (* 0o100644 *)
Definition GIT_FILEMODE_TREE : Z := 16384. (* 0o040000 *)

Record Signature : Type := mkSignature {
  sig_name : string;
  sig_email : string;
  sig_time : Z;
}.

Record CommitData : Type := mkCommit {
  commit_tree_id : Oid;
  commit_parents : list Oid;
  commit_author : Signature;
  commit_committer : Signature;
  commit_message : string;
}.

(** What the object database stores.  A tree is a finite map from entry
    name to (id, filemode); git keeps the entries sorted by name, so two
    trees with the same entries are the same object. *)
Inductive object : Type :=
| Blob (data : string)
| Tree (entries : gmap string (Oid * Z))
| Commit (c : CommitData).

(** A Python handle on a stored object: [o.id] (also [o.oid]) and the
    object itself. *)
Record PyObject : Type := mkPy { oid : Oid; obj : object }.

(** [pygit2.TreeEntry]. *)
Record TreeEntry : Type := mkEntry {
  te_name : string;
  te_id : Oid;
  te_filemode : Z;
}.

(** The hash that names objects: [pygit2.hash] on blobs, and the id under
    which [TreeBuilder.write], [create_blob] and [create_commit] store. *)
Class GitHash : Type := { hash_object : object → Oid }.

(** [Oid(hex='4b825dc642cb6eb9a060e54bf8d69288fbee4904')]. *)
Definition empty_tree_id : Oid := 0x4b825dc642cb6eb9a060e54bf8d69288fbee4904%positive.

(** [pygit2.Repository].  [HEAD] is the name of the branch HEAD points at;
    the head is unborn when that branch has no commit yet. *)
Record Repository : Type := mkRepo {
  objects : gmap Oid object;
  references : gmap string Oid;
  HEAD : string;
  is_bare : bool;
  config : gmap string string;
  index : option Oid;
}.

Definition set_objects (f : gmap Oid object → gmap Oid object) (r : Repository)
  : Repository :=
  mkRepo (f (objects r)) (references r) (HEAD r) (is_bare r) (config r) (index r).
Definition set_references (f : gmap string Oid → gmap string Oid) (r : Repository)
  : Repository :=
  mkRepo (objects r) (f (references r)) (HEAD r) (is_bare r) (config r) (index r).
Definition set_index (i : option Oid) (r : Repository) : Repository :=
  mkRepo (objects r) (references r) (HEAD r) (is_bare r) (config r) i.

(** The entries a [TreeBuilder] holds. *)
Abbreviation builder := (gmap string (Oid * Z)).

Section Pygit2.
Context `{GitHash}.

(** [repo[oid]]. *)
Definition repo_getitem (i : Oid) : M Repository PyObject :=
  λ r, match objects r !! i with
       | Some o => Ok (mkPy i o) r
       | None => Raise KeyError r
       end.

(** Writing to the object database: the object is stored under its hash;
    an id that is already present is left as it is. *)
Definition odb_write (o : object) : M Repository Oid :=
  λ r, let i := hash_object o in
       match objects r !! i with
       | Some _ => Ok i r
       | None => Ok i (set_objects <[i:=o]> r)
       end.

Definition git_hash (data : string) : Oid := hash_object (Blob data).
Definition create_blob (data : string) : M Repository Oid := odb_write (Blob data).

(** [name in tree] and [tree[name]]; only a Tree supports them. *)
Definition tree_contains (tree : option PyObject) (name : string) : M Repository bool :=
  match tree with
  | Some (mkPy _ (Tree es)) => ret (bool_decide (is_Some (es !! name)))
  | _ => raise TypeError
  end.

Definition tree_getitem (tree : option PyObject) (name : string) : M Repository TreeEntry :=
  match tree with
  | Some (mkPy _ (Tree es)) =>
      match es !! name with
      | Some (i, m) => ret (mkEntry name i m)
      | None => raise KeyError
      end
  | _ => raise TypeError
  end.

(** [tree.id] where [tree] may be [None]. *)
Definition tree_id (tree : option PyObject) : M Repository Oid :=
  match tree with
  | Some t => ret (oid t)
  | None => raise AttributeError
  end.

(** *** TreeBuilder *)

(** Entry names libgit2 accepts: not empty, no slash, not ".", ".." or
    ".git". *)
Definition valid_entry_name (name : string) : bool :=
  PyStr.truthy name && negb (PyStr.contains Path.sep name)
  && negb (String.eqb name ".") && negb (String.eqb name "..")
  && negb (String.eqb name ".git").

(** [repo.TreeBuilder()] and [repo.TreeBuilder(tree)]. *)
Definition TreeBuilder (src : option PyObject) : M Repository builder :=
  match src with
  | None => ret ∅
  | Some (mkPy _ (Tree es)) => ret es
  | Some _ => raise TypeError
  end.

Definition tb_insert (tb : builder) (name : string) (i : Oid) (mode : Z)
  : M Repository builder :=
  if valid_entry_name name then ret (<[name := (i, mode)]> tb) else raise GitError.

Definition tb_get (tb : builder) (name : string) : option TreeEntry :=
  match tb !! name with
  | Some (i, m) => Some (mkEntry name i m)
  | None => None
  end.

(** [tree_builder.remove(name)] fails on a name that is not there. *)
Definition tb_remove (tb : builder) (name : string) : M Repository builder :=
  match tb !! name with
  | Some _ => ret (delete name tb)
  | None => raise GitError
  end.

Definition tb_write (tb : builder) : M Repository Oid := odb_write (Tree tb).

(** *** Paths inside the monad *)

Definition full_split {S} (filename : string) : M S (list string) :=
  λ s, match Path.full_split filename with
       | Some parts => Ok parts s
       | None => Diverge
       end.

(** [os.path.join] applied to an unpacked list of parts. *)
Definition os_path_join {S} (parts : list string) : M S string :=
  match parts with
  | a :: p => ret (Path.join a p)
  | [] => raise TypeError
  end.

(** ** Tree editing *)

(** [insert_into_tree]; the recursive call is the one the source makes
    through [insert_blob_into_tree]. *)
Fixpoint insert_into_tree_fuel (fuel : nat) (tree : option PyObject)
    (filename : string) (oid : Oid) (attr : Z) : M Repository Oid :=
  match fuel with
  | O => diverge
  | S fuel =>
      let* parts := full_split filename in
      assert (bool_decide (0 < length parts)%nat) ;;
      let* '(filename, oid, mode) :=
        match parts with
        | sub_directory :: ((_ :: _) as rest) =>
            (* Create or get tree *)
            let* sub_filename := os_path_join rest in
            let* sub_tree :=
              match tree with
              | None => ret None
              | Some _ =>
                  let* present := tree_contains tree sub_directory in
                  if present then
                    let* e := tree_getitem tree sub_directory in
                    let* t := repo_getitem (te_id e) in
                    ret (Some t)
                  else ret None
              end in
            let* oid :=
              insert_into_tree_fuel fuel sub_tree sub_filename oid GIT_FILEMODE_BLOB in
            ret (sub_directory, oid, GIT_FILEMODE_TREE)
        | _ =>
            (* insert in this tree *)
            ret (filename, oid, attr)
        end in
      (* do the actual insert *)
      let* tree_builder := TreeBuilder tree in
      let* tree_builder := tb_insert tree_builder filename oid mode in
      tb_write tree_builder
  end.

Definition insert_into_tree (tree : option PyObject) (filename : string)
    (oid : Oid) (attr : Z) : M Repository Oid :=
  insert_into_tree_fuel (S (String.length filename)) tree filename oid attr.

Definition insert_blob_into_tree (tree : option PyObject) (blob_id : Oid)
    (filename : string) : M Repository Oid :=
  insert_into_tree tree filename blob_id GIT_FILEMODE_BLOB.

(** The tail of [remove_file_from_tree]:
    [if filename and tree_builder.get(filename): tree_builder.remove(filename)]
    and the write. *)
Definition remove_and_write (tree_builder : builder) (filename : option string)
  : M Repository Oid :=
  let* tree_builder :=
    match filename with
    | Some f =>
        if PyStr.truthy f && bool_decide (is_Some (tb_get tree_builder f))
        then tb_remove tree_builder f
        else ret tree_builder
    | None => ret tree_builder
    end in
  tb_write tree_builder.

Fixpoint remove_file_from_tree_fuel (fuel : nat) (tree : option PyObject)
    (filename : string) : M Repository Oid :=
  match fuel with
  | O => diverge
  | S fuel =>
      let* tree_builder := TreeBuilder tree in
      let* parts := full_split filename in
      assert (bool_decide (0 < length parts)%nat) ;;
      match parts with
      | sub_directory :: ((_ :: _) as rest) =>
          let* sub_filename := os_path_join rest in
          match tb_get tree_builder sub_directory with
          | None => tree_id tree
          | Some sub_tree_entry =>
              let* sub_tree := repo_getitem (te_id sub_tree_entry) in
              let* new_sub_tree_id :=
                remove_file_from_tree_fuel fuel (Some sub_tree) sub_filename in
              if bool_decide (new_sub_tree_id = empty_tree_id) then
                remove_and_write tree_builder (Some sub_directory)
              else
                let* tree_builder :=
                  tb_insert tree_builder sub_directory new_sub_tree_id
                            GIT_FILEMODE_TREE in
                remove_and_write tree_builder None
          end
      | _ =>
          (* remove from this tree *)
          remove_and_write tree_builder (Some filename)
      end
  end.

Definition remove_file_from_tree (tree : option PyObject) (filename : string)
  : M Repository Oid :=
  remove_file_from_tree_fuel (S (String.length filename)) tree filename.

(** [get_tree_entry]: [Ok None] is Python's [None], "not found". *)
Fixpoint get_tree_entry_fuel (fuel : nat) (tree : option PyObject)
    (filename : string) : M Repository (option TreeEntry) :=
  match fuel with
  | O => diverge
  | S fuel =>
      let* parts := full_split filename in
      match parts with
      | [name] =>
          let* present := tree_contains tree name in
          if present then
            let* e := tree_getitem tree name in ret (Some e)
          else ret None
      | sub_directory :: rest =>
          let* sub_filename := os_path_join rest in
          let* present := tree_contains tree sub_directory in
          if negb present then ret None
          else
            let* e := tree_getitem tree sub_directory in
            let* sub_tree := repo_getitem (te_id e) in
            get_tree_entry_fuel fuel (Some sub_tree) sub_filename
      | [] => raise IndexError
      end
  end.

Definition get_tree_entry (tree : option PyObject) (filename : string)
  : M Repository (option TreeEntry) :=
  get_tree_entry_fuel (S (String.length filename)) tree filename.

(** [move_file_in_tree]; the progress line it prints is not modelled. *)
Definition move_file_in_tree (tree : option PyObject)
    (old_filename new_filename : string) : M Repository Oid :=
  let* tree_entry := get_tree_entry tree old_filename in
  match tree_entry with
  | None => raise (ValueError ("filename not in tree: " ++ old_filename))
  | Some tree_entry =>
      let oid := te_id tree_entry in
      let filemode := te_filemode tree_entry in
      let* new_tree_id := remove_file_from_tree tree old_filename in
      let* new_tree := repo_getitem new_tree_id in
      insert_into_tree (Some new_tree) new_filename oid filemode
  end.

(** ** TreeModifier *)

Inductive operation : Type :=
| OpInsert (blob_id : Oid) (filename : string)
| OpRemove (filename : string)
| OpMove (old_filename new_filename : string).

Record TreeModifier : Type := mkTreeModifier {
  tm_tree : PyObject;
  operations : list operation;
}.

Definition insert_blob (blob_id : Oid) (filename : string) (self : TreeModifier)
  : TreeModifier :=
  mkTreeModifier (tm_tree self) (operations self ++ [OpInsert blob_id filename]).
Definition remove_blob (filename : string) (self : TreeModifier) : TreeModifier :=
  mkTreeModifier (tm_tree self) (operations self ++ [OpRemove filename]).
Definition move (old_filename new_filename : string) (self : TreeModifier)
  : TreeModifier :=
  mkTreeModifier (tm_tree self) (operations self ++ [OpMove old_filename new_filename]).

(** A Python dict with string keys, in insertion order: assigning to a key
    that is present keeps its place, a new key goes to the end. *)
Fixpoint dict_get {V} (k : string) (d : list (string * V)) : option V :=
  match d with
  | [] => None
  | (k', v) :: d => if String.eqb k' k then Some v else dict_get k d
  end.

Fixpoint dict_set {V} (k : string) (v : V) (d : list (string * V))
  : list (string * V) :=
  match d with
  | [] => [(k, v)]
  | (k', v') :: d =>
      if String.eqb k' k then (k', v) :: d else (k', v') :: dict_set k v d
  end.

(** What [simplify] stores under a filename: [None], the blob id of an
    insert, or, after a move out of the base tree, whatever
    [get_tree_entry] returned, which is a tree entry and not an id. *)
Inductive todo_value : Type :=
| TNone
| TId (blob_id : Oid)
| TEntry (e : TreeEntry).

(** The nested dictionaries [simplify] returns. *)
Inductive nested : Type :=
| Leaf (v : todo_value)
| Dict (d : list (string * nested)).

Definition MoveOfDeletedPath (old_filename new_filename : string) : exn :=
  Exception ["Trying to move deleted file"; old_filename; new_filename].
Definition MoveOfMissingPath (old_filename new_filename : string) : exn :=
  Exception ["Trying to move non existant file"; old_filename; new_filename].

(** One turn of the first loop of [simplify]. *)
Definition simplify_operation (tree : PyObject) (todo : list (string * todo_value))
    (op : operation) : M Repository (list (string * todo_value)) :=
  match op with
  | OpInsert blob_id filename => ret (dict_set filename (TId blob_id) todo)
  | OpRemove filename => ret (dict_set filename TNone todo)
  | OpMove old_filename new_filename =>
      let* blob_id :=
        match dict_get old_filename todo with
        | Some blob_id =>
            match blob_id with
            | TNone => raise (MoveOfDeletedPath old_filename new_filename)
            | _ => ret blob_id
            end
        | None =>
            let* blob_id := get_tree_entry (Some tree) old_filename in
            match blob_id with
            | None => raise (MoveOfMissingPath old_filename new_filename)
            | Some e => ret (TEntry e)
            end
        end in
      let todo := dict_set old_filename TNone todo in
      let todo := dict_set new_filename blob_id todo in
      ret todo
  end.

Fixpoint simplify_operations (tree : PyObject) (todo : list (string * todo_value))
    (ops : list operation) : M Repository (list (string * todo_value)) :=
  match ops with
  | [] => ret todo
  | op :: ops =>
      let* todo := simplify_operation tree todo op in
      simplify_operations tree todo ops
  end.

(** [directory = directory.setdefault(d, {})] down [directories], then
    [directory[filename] = blob_id]. *)
Fixpoint nested_set (directories : list string) (filename : string)
    (blob_id : todo_value) (directory : list (string * nested))
  : M Repository (list (string * nested)) :=
  match directories with
  | [] => ret (dict_set filename (Leaf blob_id) directory)
  | d :: directories =>
      match dict_get d directory with
      | None =>
          let* sub := nested_set directories filename blob_id [] in
          ret (dict_set d (Dict sub) directory)
      | Some (Dict sub) =>
          let* sub := nested_set directories filename blob_id sub in
          ret (dict_set d (Dict sub) directory)
      | Some (Leaf _) => raise AssertionError
      end
  end.

(** [parts[:-1]] and [parts[-1]]. *)
Definition init_last (parts : list string) : M Repository (list string * string) :=
  match reverse parts with
  | filename :: directories => ret (reverse directories, filename)
  | [] => raise IndexError
  end.

Fixpoint by_directory (todo : list (string * todo_value))
    (todo_by_directory : list (string * nested))
  : M Repository (list (string * nested)) :=
  match todo with
  | [] => ret todo_by_directory
  | (filename, blob_id) :: todo =>
      let* parts := full_split filename in
      let* '(directories, filename) := init_last parts in
      let* todo_by_directory :=
        nested_set directories filename blob_id todo_by_directory in
      by_directory todo todo_by_directory
  end.

Definition simplify (self : TreeModifier) : M Repository (list (string * nested)) :=
  let* todo := simplify_operations (tm_tree self) [] (operations self) in
  by_directory todo [].

(** [for key, value in todo.items(): body]. *)
Definition for_items {V} (body : string → V → builder → M Repository builder)
  : list (string * V) → builder → M Repository builder :=
  fix go (items : list (string * V)) (tree_builder : builder) :=
    match items with
    | [] => ret tree_builder
    | (key, value) :: items =>
        let* tree_builder := body key value tree_builder in
        go items tree_builder
    end.

(** The body of the loop of [update_tree], with the recursive call on a
    sub-dictionary unfolded into it. *)
Fixpoint update_tree_item (key : string) (value : nested) (tree_builder : builder)
  : M Repository builder :=
  match value with
  | Leaf TNone =>
      (* Remove *)
      tb_remove tree_builder key
  | Dict todo =>
      (* subdirectory *)
      let* sub_tree :=
        match tb_get tree_builder key with
        | None => ret None
        | Some sub_tree_entry =>
            let* t := repo_getitem (te_id sub_tree_entry) in ret (Some t)
        end in
      let* new_subtree_id :=
        (let* sub_builder := TreeBuilder sub_tree in
         let* sub_builder := for_items update_tree_item todo sub_builder in
         tb_write sub_builder) in
      tb_insert tree_builder key new_subtree_id GIT_FILEMODE_TREE
  | Leaf (TId blob_id) =>
      (* Blob *)
      tb_insert tree_builder key blob_id GIT_FILEMODE_BLOB
  | Leaf (TEntry _) =>
      (* a TreeEntry where TreeBuilder.insert wants an Oid *)
      raise TypeError
  end.

Definition update_tree (tree : option PyObject) (todo : list (string * nested))
  : M Repository Oid :=
  let* tree_builder := TreeBuilder tree in
  let* tree_builder := for_items update_tree_item todo tree_builder in
  tb_write tree_builder.

Definition apply (self : TreeModifier) : M Repository PyObject :=
  let* todo := simplify self in
  let* new_tree_id := update_tree (Some (tm_tree self)) todo in
  repo_getitem new_tree_id.

(** ** GitHandler *)

Record GitHandler : Type := mkHandler {
  path : string;
  repo_path : string;
  update_working_copy : bool;
  working_tree : PyObject;
  tree_modifier : TreeModifier;
  messages : list string;
}.

(** Everything a method of the handler can read or change: the handler's
    own attributes, the repository it opened, the files below [path] (a
    directory exists when a file below it does, so [mkdir_p] has nothing to
    do) and the clock that [Signature] reads. *)
Record World : Type := mkWorld {
  self : GitHandler;
  repo : Repository;
  files : gmap string string;
  clock : Z;
}.

Definition set_self (f : GitHandler → GitHandler) (w : World) : World :=
  mkWorld (f (self w)) (repo w) (files w) (clock w).
Definition set_repo (r : Repository) (w : World) : World :=
  mkWorld (self w) r (files w) (clock w).
Definition set_files (f : gmap string string → gmap string string) (w : World)
  : World :=
  mkWorld (self w) (repo w) (f (files w)) (clock w).

Definition set_working_tree (t : PyObject) (h : GitHandler) : GitHandler :=
  mkHandler (path h) (repo_path h) (update_working_copy h) t (tree_modifier h)
            (messages h).
Definition set_tree_modifier (f : TreeModifier → TreeModifier) (h : GitHandler)
  : GitHandler :=
  mkHandler (path h) (repo_path h) (update_working_copy h) (working_tree h)
            (f (tree_modifier h)) (messages h).
Definition set_messages (f : list string → list string) (h : GitHandler)
  : GitHandler :=
  mkHandler (path h) (repo_path h) (update_working_copy h) (working_tree h)
            (tree_modifier h) (f (messages h)).

(** Running repository code from a method of the handler. *)
Definition liftR {A} (m : M Repository A) : M World A :=
  λ w, match m (repo w) with
       | Ok a r => Ok a (set_repo r w)
       | Raise e r => Raise e (set_repo r w)
       | Diverge => Diverge
       end.

(** Text is held as its UTF-8 bytes, so encoding it changes nothing. *)
Definition utf8_encode (content : string) : string := content.

Definition hex_digit (d : N) : ascii :=
  match d with
  | 0 => "0" | 1 => "1" | 2 => "2" | 3 => "3" | 4 => "4" | 5 => "5"
  | 6 => "6" | 7 => "7" | 8 => "8" | 9 => "9" | 10 => "a" | 11 => "b"
  | 12 => "c" | 13 => "d" | 14 => "e" | _ => "f"
  end%N%char.

Fixpoint hex_digits (n : nat) (x : N) (acc : string) : string :=
  match n with
  | O => acc
  | S n => hex_digits n (x / 16)%N (String (hex_digit (x mod 16)%N) acc)
  end.

(** [oid.hex]: forty hexadecimal digits. *)
Definition hex (i : Oid) : string := hex_digits 40 (Npos i) "".

Definition head_is_unborn (r : Repository) : bool :=
  bool_decide (references r !! HEAD r = None).

(** [repo.head.target]. *)
Definition head_target : M Repository Oid :=
  λ r, match references r !! HEAD r with
       | Some c => Ok c r
       | None => Raise GitError r
       end.

(** [commit.tree]. *)
Definition commit_tree (commit : PyObject) : M Repository PyObject :=
  match obj commit with
  | Commit c =>
      let* t := repo_getitem (commit_tree_id c) in
      match obj t with
      | Tree _ => ret t
      | _ => raise GitError
      end
  | _ => raise AttributeError
  end.

(** [repo.config[key]]. *)
Definition config_getitem (key : string) : M Repository string :=
  λ r, match config r !! key with
       | Some v => Ok v r
       | None => Raise KeyError r
       end.

(** [repo.create_commit(reference, author, committer, message, tree, parents)]:
    stores the commit and points [reference] at it. *)
Definition create_commit (reference : string) (author committer : Signature)
    (message : string) (tree : Oid) (parents : list Oid) : M Repository Oid :=
  let* c := odb_write (Commit (mkCommit tree parents author committer message)) in
  modify (set_references <[reference := c]>) ;;
  ret c.

Definition getCurrentCommit : M World Oid := liftR head_target.

Definition get_last_tree : M World PyObject :=
  let* w := get in
  if head_is_unborn (repo w) then
    let* tree_id := liftR (let* tb := TreeBuilder None in tb_write tb) in
    liftR (repo_getitem tree_id)
  else
    let* c := getCurrentCommit in
    let* commit := liftR (repo_getitem c) in
    liftR (commit_tree commit).

Definition insert_into_working_tree (blob_id : Oid) (filename : string)
  : M World unit :=
  modify (set_self (set_tree_modifier (insert_blob blob_id filename))).

Definition remove_from_working_tree (filename : string) : M World unit :=
  modify (set_self (set_tree_modifier (remove_blob filename))).

(** [write_file] from [blob_id = self.repo.create_blob(data)] on. *)
Definition write_file_stage (type filename content data : string) : M World unit :=
  let* blob_id := liftR (create_blob data) in
  insert_into_working_tree blob_id filename ;;
  let* w := get in
  (if negb (is_bare (repo w)) && update_working_copy (self w) then
     let real_filename := Path.join (path (self w)) [filename] in
     modify (set_files <[real_filename := content]>)
   else ret tt) ;;
  modify (set_self (set_messages (λ ms, app ms [String.append "    " (String.append type (String.append "  " filename))]))).

Definition write_file (filename content : string) : M World unit :=
  let data := utf8_encode content in
  let* w := get in
  let* existing_entry :=
    liftR (get_tree_entry (Some (working_tree (self w))) filename) in
  match existing_entry with
  | Some existing_entry =>
      if bool_decide (te_id existing_entry = git_hash data) then ret tt
      else write_file_stage "M" filename content data
  | None => write_file_stage "A" filename content data
  end.

Definition saveCurrentCommit : M World unit :=
  let* w := get in
  let* c := getCurrentCommit in
  modify (set_files <[Path.join (path (self w)) ["dbcommit"]
                      := hex c ++ String "010"%char ""]>).

Definition ConcurrentModification : exn :=
  Exception ["The repository was modified outside of this process. For safety reasons, we cannot commit!"].

(** [commit] from the line after the early [return] on. *)
Definition commit_create (parents : list Oid) : M World unit :=
  let* author :=
    liftR (let* n := config_getitem "user.name" in
           let* e := config_getitem "user.email" in ret (n, e)) in
  let* committer :=
    liftR (let* n := config_getitem "user.name" in
           let* e := config_getitem "user.email" in ret (n, e)) in
  let* w := get in
  let author := mkSignature (fst author) (snd author) (clock w) in
  let committer := mkSignature (fst committer) (snd committer) (clock w) in
  let tree_id := oid (working_tree (self w)) in
  let message := String.concat (String "010"%char "") (messages (self w)) in
  liftR (create_commit "refs/heads/master" author committer message tree_id
                       parents) ;;
  saveCurrentCommit ;;
  modify (set_self (set_messages (λ _, []))) ;;
  let* w := get in
  if negb (is_bare (repo w)) && update_working_copy (self w) then
    modify (λ w, set_repo (set_index (Some (oid (working_tree (self w)))) (repo w)) w)
  else ret tt.

Definition commit : M World unit :=
  let* w := get in
  let* last := get_last_tree in
  if bool_decide (oid (tm_tree (tree_modifier (self w))) ≠ oid last) then
    raise ConcurrentModification
  else
    let* new_tree := liftR (apply (tree_modifier (self w))) in
    modify (set_self (set_working_tree new_tree)) ;;
    modify (set_self (set_tree_modifier (λ _, mkTreeModifier new_tree []))) ;;
    let* w := get in
    if head_is_unborn (repo w) then commit_create []
    else
      let* c := getCurrentCommit in
      let* commit := liftR (repo_getitem c) in
      let* t := liftR (commit_tree commit) in
      if bool_decide (oid t = oid (working_tree (self w))) then ret tt
      else commit_create [oid commit].

Definition reset : M World unit :=
  let* t := get_last_tree in
  modify (set_self (set_working_tree t)) ;;
  modify (set_self (set_tree_modifier (λ _, mkTreeModifier t []))) ;;
  modify (set_self (set_messages (λ _, []))).

(** [GitHandler.__init__], run on the handler that is being made and the
    repository that [Repository(self.repo_path)] opens; [repo_path] is
    [None] when the caller leaves it out.  The line it prints is not
    modelled. *)
Definition __init__ (path : string) (repo_path : option string)
    (update_working_copy : bool) : M World unit :=
  let repo_path := match repo_path with None => path | Some p => p end in
  modify (set_self (λ h, mkHandler path repo_path update_working_copy
                                   (working_tree h) (tree_modifier h) (messages h))) ;;
  let* t := get_last_tree in
  modify (set_self (set_working_tree t)) ;;
  modify (set_self (set_tree_modifier (λ _, mkTreeModifier t []))) ;;
  modify (set_self (set_messages (λ _, []))).

(** *** Methods that move files of the working copy

    [remove_file] and [move_file] reach the files below [path] through
    [os.rename] and [remove_file_with_empty_parents]; what those two do is
    left open here, and they run only in a repository that is not bare,
    with [update_working_copy] set. *)
Section WorkingCopy.
Variable remove_file_with_empty_parents : string → string → M World unit.
Variable os_rename : string → string → M World unit.

Definition remove_file (filename : string) : M World unit :=
  let* w := get in
  let* existing_entry :=
    liftR (get_tree_entry (Some (working_tree (self w))) filename) in
  match existing_entry with
  | Some _ =>
      remove_from_working_tree filename ;;
      let* w := get in
      (if negb (is_bare (repo w)) && update_working_copy (self w) then
         remove_file_with_empty_parents (path (self w)) filename
       else ret tt) ;;
      modify (set_self (set_messages (λ ms, app ms [String.append "    D  " filename])))
  | None => ret tt
  end.

Definition move_file (old_filename new_filename : string) : M World unit :=
  modify (set_self (set_tree_modifier (move old_filename new_filename))) ;;
  let* w := get in
  (if negb (is_bare (repo w)) && update_working_copy (self w) then
     let real_old_filename := Path.join (path (self w)) [old_filename] in
     let real_new_filename := Path.join (path (self w)) [new_filename] in
     os_rename real_old_filename real_new_filename ;;
     remove_file_with_empty_parents (path (self w)) old_filename
   else ret tt) ;;
  modify (set_self (set_messages (λ ms,
    app ms [String.append "    R  "
              (String.append old_filename (String.append " -> " new_filename))]))).

End WorkingCopy.

End Pygit2.

(** ** Vocabulary for the properties of the tree editor *)

Section Vocabulary.
Context `{GitHash}.

(** The object database is content-addressed: every object sits under its
    own hash. *)
Definition wf_store (r : Repository) : Prop :=
  ∀ i o, objects r !! i = Some o → hash_object o = i.


(** [r'] has every object of [r], and nothing else of the repository
    differs. *)
Definition extends (r r' : Repository) : Prop :=
  objects r ⊆ objects r' ∧ references r = references r' ∧ HEAD r = HEAD r' ∧
  is_bare r = is_bare r' ∧ config r = config r' ∧ index r = index r'.

(** [t] is a handle on an object of [r]. *)
Definition stored (r : Repository) (t : PyObject) : Prop :=
  objects r !! oid t = Some (obj t).

(** The recursions of the tree editor, on the list of parts instead of on
    the path that is split again at every level. *)
Fixpoint get_tree_entry_parts (parts : list string) (tree : option PyObject)
  : M Repository (option TreeEntry) :=
  match parts with
  | [] => raise IndexError
  | [name] =>
      let* present := tree_contains tree name in
      if present then
        let* e := tree_getitem tree name in ret (Some e)
      else ret None
  | sub_directory :: rest =>
      let* present := tree_contains tree sub_directory in
      if negb present then ret None
      else
        let* e := tree_getitem tree sub_directory in
        let* sub_tree := repo_getitem (te_id e) in
        get_tree_entry_parts rest (Some sub_tree)
  end.

Fixpoint insert_parts (parts : list string) (tree : option PyObject)
    (oid : Oid) (attr : Z) : M Repository Oid :=
  let* '(filename, oid, mode) :=
    match parts with
    | [] => raise AssertionError
    | [name] => ret (name, oid, attr)
    | sub_directory :: rest =>
        let* sub_tree :=
          match tree with
          | None => ret None
          | Some _ =>
              let* present := tree_contains tree sub_directory in
              if present then
                let* e := tree_getitem tree sub_directory in
                let* t := repo_getitem (te_id e) in
                ret (Some t)
              else ret None
          end in
        let* oid := insert_parts rest sub_tree oid GIT_FILEMODE_BLOB in
        ret (sub_directory, oid, GIT_FILEMODE_TREE)
    end in
  let* tree_builder := TreeBuilder tree in
  let* tree_builder := tb_insert tree_builder filename oid mode in
  tb_write tree_builder.

Fixpoint remove_parts (parts : list string) (tree : option PyObject)
  : M Repository Oid :=
  let* tree_builder := TreeBuilder tree in
  match parts with
  | [] => raise AssertionError
  | [name] => remove_and_write tree_builder (Some name)
  | sub_directory :: rest =>
      match tb_get tree_builder sub_directory with
      | None => tree_id tree
      | Some sub_tree_entry =>
          let* sub_tree := repo_getitem (te_id sub_tree_entry) in
          let* new_sub_tree_id := remove_parts rest (Some sub_tree) in
          if bool_decide (new_sub_tree_id = empty_tree_id) then
            remove_and_write tree_builder (Some sub_directory)
          else
            let* tree_builder :=
              tb_insert tree_builder sub_directory new_sub_tree_id
                        GIT_FILEMODE_TREE in
            remove_and_write tree_builder None
      end
  end.




(** [es] is what [repo.TreeBuilder(tree)] starts from, and [tree], when it
    is not [None], is a handle on a stored tree. *)
Definition tree_known (r : Repository) (tree : option PyObject)
    (es : gmap string (Oid * Z)) : Prop :=
  match tree with
  | None => es = ∅
  | Some t => obj t = Tree es ∧ stored r t
  end.

(** What [remove_and_write] does to the builder before it writes it. *)
Definition removed (tb : builder) (filename : option string) : builder :=
  match filename with
  | Some f => if PyStr.truthy f then delete f tb else tb
  | None => tb
  end.

(** The object database only grows, and stays content-addressed. *)
Definition grows (r r' : Repository) : Prop :=
  extends r r' ∧ (wf_store r → wf_store r').

(** The state a successful [commit] leaves: the head commit holds the
    session's base tree, that tree is stored, and nothing is staged. *)
Definition published (w : World) : Prop :=
  ∃ c cd tb,
    references (repo w) !! HEAD (repo w) = Some c ∧
    objects (repo w) !! c = Some (Commit cd) ∧
    commit_tree_id cd = oid (working_tree (self w)) ∧
    objects (repo w) !! oid (working_tree (self w)) = Some (Tree tb) ∧
    obj (working_tree (self w)) = Tree tb ∧
    tree_modifier (self w) = mkTreeModifier (working_tree (self w)) [] ∧
    wf_store (repo w).

End Vocabulary.

(** ** What a computation can do to the state *)

(** Whenever [m] returns or raises, the state it leaves is [R]-related to
    the one it started from, and what it raises satisfies [E]. *)
Definition always {S A} (R : S → S → Prop) (E : exn → Prop) (m : M S A) : Prop :=
  ∀ s, match m s with
       | Ok _ s' => R s s'
       | Raise e s' => R s s' ∧ E e
       | Diverge => True
       end.

(** The handler's own exception is raised by [commit] and by nothing it
    calls. *)
Definition other (e : exn) : Prop := e ≠ ConcurrentModification.

(** The exceptions that Python and pygit2 raise on their own. *)
Definition builtin (e : exn) : Prop :=
  match e with
  | TypeError | KeyError | AttributeError | AssertionError | IndexError
  | GitError => True
  | ValueError _ | Exception _ => False
  end.

(** [E] allows every exception of Python and pygit2. *)
Class AllowsBuiltin (E : exn → Prop) : Prop :=
  allows_builtin : ∀ e, builtin e → E e.

(** The relation that records nothing. *)
Definition anything {S} (s s' : S) : Prop := True.

(** A relation on repositories, as a relation on worlds that differ in
    nothing but the repository. *)
Definition lift_rel (R : Repository → Repository → Prop) (w w' : World) : Prop :=
  self w' = self w ∧ files w' = files w ∧ clock w' = clock w ∧
  R (repo w) (repo w').

(** [m] returns or raises, from every state: it does not run forever. *)
Definition halts {S A} (m : M S A) : Prop := ∀ s, m s ≠ Diverge.

(** A nested dictionary of [simplify] that holds, somewhere, a tree entry
    where a blob id belongs. *)
Inductive holds_entry : nested → Prop :=
| holds_here e : holds_entry (Leaf (TEntry e))
| holds_below d k n : (k, n) ∈ d → holds_entry n → holds_entry (Dict d).

(** What the operations [ops] leave for the path [f] when they are inserts
    and removes: the outcome of the last one that names [f], and [v] when
    none does. *)
Definition is_move (op : operation) : bool :=
  match op with OpMove _ _ => true | _ => false end.

Fixpoint last_write (f : string) (ops : list operation) (v : option todo_value)
  : option todo_value :=
  match ops with
  | [] => v
  | OpInsert b g :: ops => last_write f ops (if String.eqb g f then Some (TId b) else v)
  | OpRemove g :: ops => last_write f ops (if String.eqb g f then Some TNone else v)
  | OpMove _ _ :: ops => last_write f ops v
  end.

(** The commit that [commit] stores from the session [w], given its
    parents, the configured user and the id of the tree. *)
Definition commit_of (w : World) (parents : list Oid) (name email : string) (t : Oid)
  : CommitData :=
  mkCommit t parents (mkSignature name email (clock w))
           (mkSignature name email (clock w))
           (String.concat (String "010"%char "") (messages (self w))).

(** The nested dictionary that [simplify] makes of one file below
    [directories]. *)
Fixpoint single_file (directories : list string) (filename : string)
    (v : todo_value) : list (string * nested) :=
  match directories with
  | [] => [(filename, Leaf v)]
  | d :: directories => [(d, Dict (single_file directories filename v))]
  end.

(** ** A collision-free hash to compute with *)

#[global] Instance Signature_eq_dec : EqDecision Signature.
Proof. solve_decision. Defined.
#[global] Instance CommitData_eq_dec : EqDecision CommitData.
Proof. solve_decision. Defined.
#[global] Instance object_eq_dec : EqDecision object.
Proof. solve_decision. Defined.
#[global] Instance PyObject_eq_dec : EqDecision PyObject.
Proof. solve_decision. Defined.
#[global] Instance TreeEntry_eq_dec : EqDecision TreeEntry.
Proof. solve_decision. Defined.
#[global] Instance exn_eq_dec : EqDecision exn.
Proof. solve_decision. Defined.
#[global] Instance todo_value_eq_dec : EqDecision todo_value.
Proof. solve_decision. Defined.

Definition object_to_sum (o : object)
  : string + gmap string (Oid * Z)
    + (Oid * list Oid * (string * string * Z) * (string * string * Z) * string) :=
  match o with
  | Blob d => inl (inl d)
  | Tree es => inl (inr es)
  | Commit (mkCommit t ps (mkSignature an ae at_) (mkSignature cn ce ct) m) =>
      inr (t, ps, (an, ae, at_), (cn, ce, ct), m)
  end.

Definition sum_to_object
    (x : string + gmap string (Oid * Z)
         + (Oid * list Oid * (string * string * Z) * (string * string * Z) * string))
  : object :=
  match x with
  | inl (inl d) => Blob d
  | inl (inr es) => Tree es
  | inr (t, ps, (an, ae, at_), (cn, ce, ct), m) =>
      Commit (mkCommit t ps (mkSignature an ae at_) (mkSignature cn ce ct) m)
  end.

#[global] Instance object_countable : Countable object.
Proof.
  apply (inj_countable' object_to_sum sum_to_object).
  intros [d|es|[t ps [an ae at_] [cn ce ct] m]]; reflexivity.
Defined.

(** The empty tree gets git's id for it; every other object gets its code
    as a number, moved out of the way of that id. *)
Definition ideal_hash (o : object) : Oid :=
  if decide (o = Tree ∅) then empty_tree_id
  else let e := encode o in
       if (e <? empty_tree_id)%positive then e else Pos.succ e.

Definition ideal : GitHash := {| hash_object := ideal_hash |}.

(** ** Concrete repositories *)

Definition value_of {S A} (o : outcome S A) : option A :=
  match o with Ok a _ => Some a | _ => None end.

Definition state_of {S A} (o : outcome S A) (s : S) : S :=
  match o with Ok _ s' | Raise _ s' => s' | Diverge => s end.

Definition is_ok {S A} (o : outcome S A) : bool :=
  match o with Ok _ _ => true | _ => false end.

Definition raised {S A} (o : outcome S A) : option exn :=
  match o with Raise e _ => Some e | _ => None end.




Module Example.
#[local] Existing Instance ideal.

(** An empty bare repository whose HEAD is the unborn branch master. *)
Definition repo0 : Repository :=
  mkRepo ∅ ∅ "refs/heads/master" true
         {[ "user.name" := "gitdb2"; "user.email" := "gitdb2@example.org" ]} None.

(** Runs [m] and hands out the tree it made, with the repository it left. *)
Definition build (m : M Repository Oid) (r : Repository) : PyObject * Repository :=
  match (let* i := m in repo_getitem i) r with
  | Ok t r' => (t, r')
  | _ => (mkPy 1%positive (Blob ""), r)
  end.

Definition blobX : Oid := git_hash "x".

(** The tree that holds the one file a/b/c.txt. *)
Definition abc : PyObject * Repository :=
  build (insert_into_tree None "a/b/c.txt" blobX GIT_FILEMODE_BLOB) repo0.


(** The empty tree. *)
Definition empty : PyObject * Repository :=
  build (let* tb := TreeBuilder None in tb_write tb) repo0.

(** The tree whose one entry, a, is a blob. *)
Definition blob_a : PyObject * Repository :=
  build (let* b := create_blob "hello" in
         insert_into_tree None "a" b GIT_FILEMODE_BLOB) repo0.


(** Runs [m] from [s]; [d] stands in when [m] does not return. *)
Definition run {S A} (m : M S A) (s : S) (d : A) : A * S :=
  match m s with
  | Ok a s' => (a, s')
  | _ => (d, s)
  end.

(** [abc] after the batch that removes a/b/c.txt. *)
Definition abc_applied : PyObject * Repository :=
  run (apply (mkTreeModifier abc.1 [OpRemove "a/b/c.txt"])) abc.2 abc.1.

(** [abc] after [remove_file_from_tree] of a/b/c.txt. *)
Definition abc_removed : Oid * Repository :=
  run (remove_file_from_tree (Some abc.1) "a/b/c.txt") abc.2 1%positive.



(** A session on the tree [t] of the repository [r]. *)
Definition session (r : Repository) (t : PyObject) : World :=
  mkWorld (mkHandler "/srv/db" "/srv/db" true t (mkTreeModifier t []) [])
          r ∅ 0.

(** A session on the empty repository; the same after [write_file], and
    after [commit]. *)
Definition session0 : World := session empty.2 empty.1.
Definition staged : World := state_of (write_file "a/b/c.txt" "x" session0) session0.
Definition committed : World := state_of (commit staged) staged.

(** A second session that was where [staged] is when the first one
    committed: the handler of [staged] on the repository of [committed]. *)
Definition stale : World :=
  mkWorld (self staged) (repo committed) (files committed) (clock committed).

(** What the second session reads as the head tree. *)
Definition stale_head : PyObject * World :=
  run get_last_tree stale (working_tree (self stale)).

(** A session on an empty repository in which no user is configured,
    after the write of a.txt. *)
Definition repo_anonymous : Repository :=
  mkRepo ∅ ∅ "refs/heads/master" true ∅ None.

Definition anonymous : World :=
  let e := build (let* tb := TreeBuilder None in tb_write tb) repo_anonymous in
  let s := session e.2 e.1 in
  state_of (write_file "a.txt" "x" s) s.

End Example.

Module PathFacts.
Import PyStr Path.

Lemma app_cons a s t : String a s ++ t = String a (s ++ t).
Proof. reflexivity. Qed.
Lemma app_nil_l t : "" ++ t = t.
Proof. reflexivity. Qed.
Lemma app_nil_r s : s ++ "" = s.
Proof. induction s as [|a s IH]; [done|]. by rewrite app_cons, IH. Qed.
Lemma app_assoc s t u : (s ++ t) ++ u = s ++ (t ++ u).
Proof. induction s as [|a s IH]; [done|]. by rewrite !app_cons, IH. Qed.
Lemma str_length_app s t : String.length (s ++ t) = (String.length s + String.length t)%nat.
Proof. induction s as [|a s IH]; [done|]. rewrite app_cons. simpl. by rewrite IH. Qed.

Lemma contains_app c s t : contains c (s ++ t) = contains c s || contains c t.
Proof.
  induction s as [|a s IH]; [done|]. rewrite app_cons. simpl.
  rewrite IH. by rewrite orb_assoc.
Qed.

Lemma rfind_lt c s : (-1 <= rfind c s < Z.of_nat (String.length s))%Z.
Proof.
  induction s as [|a s IH]; simpl; [lia|].
  destruct (Z.leb_spec 0 (rfind c s)); [lia|].
  destruct (Ascii.eqb a c); lia.
Qed.

Lemma rfind_none c s : contains c s = false → rfind c s = (-1)%Z.
Proof.
  induction s as [|a s IH]; simpl; [done|].
  intros [Ha Hs]%orb_false_iff. rewrite (IH Hs). simpl. by rewrite Ha.
Qed.

Lemma rfind_app c x t :
  contains c t = false → rfind c (x ++ String c t) = Z.of_nat (String.length x).
Proof.
  intros Ht. induction x as [|a x IH].
  - rewrite app_nil_l. simpl. rewrite (rfind_none _ _ Ht). simpl.
    by rewrite Ascii.eqb_refl.
  - rewrite app_cons. simpl rfind. rewrite IH.
    destruct (Z.leb_spec 0 (Z.of_nat (String.length x))); simpl String.length; lia.
Qed.

Lemma take_app x t : take (String.length x) (x ++ t) = x.
Proof.
  induction x as [|a x IH]; [by destruct t|].
  rewrite app_cons. simpl. by rewrite IH.
Qed.
Lemma drop_app x t : drop (String.length x) (x ++ t) = t.
Proof. induction x as [|a x IH]; [by destruct t|]. by rewrite app_cons. Qed.

(** Every string with a slash splits at its last slash. *)
Lemma contains_split c s :
  contains c s = true → ∃ x t, s = x ++ String c t ∧ contains c t = false.
Proof.
  induction s as [|a s IH]; simpl; [done|].
  destruct (contains c s) eqn:Hs.
  - intros _. destruct (IH eq_refl) as (x & t & -> & Ht).
    exists (String a x), t. by rewrite app_cons.
  - rewrite orb_false_r. intros ->%Ascii.eqb_eq. by exists "", s.
Qed.


Lemma all_sep_cons a s : all_sep (String a s) = Ascii.eqb a sep && all_sep s.
Proof. reflexivity. Qed.

Lemma rstrip_app_sep c x : rstrip c (x ++ String c "") = rstrip c x.
Proof.
  induction x as [|a x IH].
  - rewrite app_nil_l. simpl. by rewrite Ascii.eqb_refl.
  - rewrite app_cons. simpl. by rewrite IH.
Qed.

Lemma rstrip_id c s : truthy s = true → endswith c s = false → rstrip c s = s.
Proof.
  induction s as [|a s IH]; [done|]. intros _ He. simpl.
  destruct s as [|b s].
  - simpl in *. by rewrite He.
  - rewrite IH by done. done.
Qed.

Lemma rstrip_first c a s :
  Ascii.eqb a c = false → ∃ r, rstrip c (String a s) = String a r.
Proof. intros Ha. simpl. destruct (rstrip c s); [rewrite Ha|]; eauto. Qed.

Lemma rstrip_length c s : (String.length (rstrip c s) ≤ String.length s)%nat.
Proof.
  induction s as [|a s IH]; simpl; [lia|].
  destruct (rstrip c s); [destruct (Ascii.eqb a c)|]; simpl in *; lia.
Qed.

Lemma rstrip_endswith c s : endswith c (rstrip c s) = false.
Proof.
  induction s as [|a s IH]; simpl; [done|].
  destruct (rstrip c s) as [|b r] eqn:Hr.
  - destruct (Ascii.eqb a c) eqn:Ha; simpl; [done|]. done.
  - done.
Qed.

(** A string that holds something else than slashes keeps its first
    character under [rstrip]. *)
Lemma rstrip_cons c a s :
  rstrip c (String a s) =
    match rstrip c s with
    | EmptyString => if Ascii.eqb a c then EmptyString else String a EmptyString
    | r' => String a r'
    end.
Proof. reflexivity. Qed.

Lemma rstrip_not_all_sep a s :
  all_sep (String a s) = false → ∃ r, rstrip sep (String a s) = String a r.
Proof.
  revert a. induction s as [|b s IH]; intros a Hall; rewrite all_sep_cons in Hall;
    rewrite rstrip_cons.
  - change (all_sep "") with true in Hall. rewrite andb_true_r in Hall.
    change (rstrip sep "") with EmptyString. cbv beta iota.
    destruct (Ascii.eqb a sep); [done|eauto].
  - destruct (Ascii.eqb a sep) eqn:Ha; simpl in Hall.
    + destruct (IH _ Hall) as [r ->]. eauto.
    + destruct (rstrip sep (String b s)); eauto.
Qed.

Lemma split_noslash p : contains sep p = false → split p = ("", p).
Proof.
  intros Hp. unfold split. rewrite (rfind_none _ _ Hp). simpl.
  by destruct p.
Qed.

Lemma split_slash x t :
  contains sep t = false →
  split (x ++ String sep t) =
    (if all_sep (x ++ String sep "") then x ++ String sep "" else rstrip sep x, t).
Proof.
  intros Ht. unfold split. rewrite (rfind_app _ _ _ Ht).
  replace (Z.to_nat (Z.of_nat (String.length x) + 1))
    with (String.length (x ++ String sep "")) by (rewrite str_length_app; simpl; lia).
  replace (x ++ String sep t) with ((x ++ String sep "") ++ t)
    by (by rewrite app_assoc).
  rewrite take_app, drop_app. fold (all_sep (x ++ String sep "")).
  assert (truthy (x ++ String sep "") = true) as -> by (by destruct x).
  simpl. destruct (all_sep _); simpl; [done|]. by rewrite rstrip_app_sep.
Qed.


(** *** Segments and well-formed lists of parts *)

Lemma startswith_contains c s : contains c s = false → startswith c s = false.
Proof. destruct s; simpl; [done|]. by intros [? ?]%orb_false_iff. Qed.

Lemma endswith_contains c s : contains c s = false → endswith c s = false.
Proof.
  induction s as [|a s IH]; [done|]. simpl.
  intros [Ha Hs]%orb_false_iff. destruct s; [done|]. by apply IH.
Qed.

Lemma endswith_app c s t : truthy t = true → endswith c (s ++ t) = endswith c t.
Proof.
  intros Ht. induction s as [|a s IH]; [done|].
  rewrite app_cons. simpl. rewrite IH.
  destruct (s ++ t) eqn:E; [|done]. by destruct s, t.
Qed.

Lemma startswith_app c s t : truthy s = true → startswith c (s ++ t) = startswith c s.
Proof. by destruct s. Qed.

Lemma truthy_app_l s t : truthy s = true → truthy (s ++ t) = true.
Proof. by destruct s. Qed.

Lemma truthy_length s : truthy s = true → (0 < String.length s)%nat.
Proof. destruct s; simpl; [done|lia]. Qed.

Lemma falsy_empty s : truthy s = false → s = "".
Proof. by destruct s. Qed.

Lemma all_sep_startswith s : truthy s = true → startswith sep s = false → all_sep s = false.
Proof. destruct s as [|a s]; [done|]. rewrite all_sep_cons. simpl. by intros _ ->. Qed.

Lemma all_sep_app_sep x : all_sep (x ++ String sep "") = all_sep x.
Proof.
  induction x as [|a x IH]; [done|].
  rewrite app_cons, !all_sep_cons. by rewrite IH.
Qed.

Lemma segment_clean s : segment s = true → clean s.
Proof.
  intros [? ?%negb_true_iff]%andb_true_iff.
  split_and!; auto using startswith_contains, endswith_contains.
Qed.

(** [os.path.split] on a path that does not start with a slash. *)
Lemma split_relative p :
  startswith sep p = false →
  ∃ h t, split p = (h, t) ∧ contains sep t = false ∧ (h = "" ∨ clean h) ∧
         (String.length h ≤ String.length p)%nat ∧
         (endswith sep p = false → truthy p = true →
          truthy t = true ∧ (String.length h < String.length p)%nat).
Proof.
  intros Hrel. destruct (contains sep p) eqn:Hp.
  - destruct (contains_split _ _ Hp) as (x & t & -> & Ht).
    rewrite (split_slash _ _ Ht). destruct x as [|a x].
    { by rewrite app_nil_l in Hrel; simpl in Hrel. }
    rewrite app_cons in Hrel. simpl in Hrel.
    rewrite all_sep_app_sep, all_sep_cons, Hrel. simpl andb. cbv iota.
    destruct (rstrip_first sep a x Hrel) as [r Hr].
    eexists _, _. split; [done|]. split; [done|].
    pose proof (rstrip_length sep (String a x)) as Hlen.
    rewrite str_length_app. simpl String.length in *.
    split; [right; rewrite Hr; split_and!; try done|].
    + rewrite <- Hr. apply rstrip_endswith.
    + split; [lia|]. intros Hend _. split; [|lia].
      destruct t; [|done].
      rewrite endswith_app in Hend by done. done.
  - rewrite (split_noslash _ Hp). eexists _, _. split; [done|].
    split; [done|]. split; [by left|]. simpl. split; [lia|].
    intros _ Ht. split; [done|]. by apply truthy_length.
Qed.

Lemma full_split_loop_S n h acc :
  full_split_loop (S n) h acc =
    if truthy h then
      let '(h', t) := split h in full_split_loop n h' (t :: acc)
    else Some acc.
Proof. reflexivity. Qed.

(** The loop of [full_split] ends on every head that a relative path can
    leave, with fuel to spare. *)
Lemma full_split_loop_clean n h acc :
  h = "" ∨ clean h → (String.length h ≤ n)%nat →
  ∃ ps, full_split_loop n h acc = Some (ps ++ acc)%list ∧
        Forall (λ s, segment s = true) ps ∧ (length ps ≤ String.length h)%nat.
Proof.
  revert h acc. induction n as [|n IH]; intros h acc Hh Hn.
  - destruct h; [|simpl in Hn; lia]. exists []. by split_and!.
  - destruct Hh as [->|(Ht & Hs & He)].
    { exists []. split_and!; [done|done|simpl; lia]. }
    destruct (split_relative h Hs) as (h' & t & Hsplit & Hft & Hh' & _ & Hlt).
    destruct (Hlt He Ht) as [Htt Hlen].
    rewrite full_split_loop_S, Ht, Hsplit.
    destruct (IH h' (t :: acc) Hh' ltac:(lia)) as (ps & -> & Hps & Hl).
    exists (ps ++ [t])%list. split; [by rewrite <- (assoc_L (++))|].
    split.
    + apply Forall_app. split; [done|]. apply Forall_singleton.
      unfold segment. by rewrite Htt, Hft.
    + rewrite length_app. simpl. lia.
Qed.

Lemma valid_parts_snoc ps t :
  Forall (λ s, segment s = true) ps → contains sep t = false →
  valid_parts (ps ++ [t]) = true.
Proof.
  intros Hps Ht. induction Hps as [|d ps Hd Hps IH]; simpl; [by rewrite Ht|].
  rewrite Hd, IH. by destruct ps.
Qed.

Lemma valid_parts_inv parts :
  valid_parts parts = true →
  ∃ ps t, parts = (ps ++ [t])%list ∧ Forall (λ s, segment s = true) ps ∧
          contains sep t = false.
Proof.
  induction parts as [|d rest IH]; [done|]. destruct rest as [|d' rest].
  - simpl. intros ?%negb_true_iff. by exists [], d.
  - intros [Hd Hrest]%andb_true_iff.
    destruct (IH Hrest) as (ps & t & E & Hps & Ht).
    exists (d :: ps), t. rewrite E. split_and!; [done| |done]. by constructor.
Qed.

Lemma valid_parts_tail d rest : rest ≠ [] → valid_parts (d :: rest) = true → valid_parts rest = true.
Proof. destruct rest; [done|]. by intros _ [_ ?]%andb_true_iff. Qed.


(** [full_split] returns on every path that does not start with a slash. *)
Lemma full_split_total p :
  startswith sep p = false →
  ∃ parts, full_split p = Some parts ∧ valid_parts parts = true ∧
           (length parts ≤ S (String.length p))%nat.
Proof.
  intros Hrel. unfold full_split.
  destruct (split_relative p Hrel) as (h & t & -> & Ht & Hh & Hlen & _).
  destruct (full_split_loop_clean (String.length p) h [t] Hh Hlen)
    as (ps & -> & Hps & Hl).
  exists (ps ++ [t])%list. split; [done|]. split; [by apply valid_parts_snoc|].
  rewrite length_app. simpl. lia.
Qed.

(** On a path that starts with a slash the head never becomes empty. *)
Lemma split_absolute h :
  startswith sep h = true → startswith sep (split h).1 = true.
Proof.
  intros Habs. assert (contains sep h = true) as Hc.
  { destruct h; [done|]. simpl in *. by rewrite Habs. }
  destruct (contains_split _ _ Hc) as (x & t & -> & Ht).
  rewrite (split_slash _ _ Ht). simpl fst. rewrite all_sep_app_sep.
  destruct x as [|a x].
  { change (all_sep "") with true. cbv iota. by rewrite app_nil_l. }
  rewrite app_cons in Habs. simpl in Habs.
  destruct (all_sep (String a x)) eqn:Hall.
  - by rewrite app_cons.
  - destruct (rstrip_not_all_sep _ _ Hall) as [r ->]. done.
Qed.

Lemma full_split_loop_absolute n h acc :
  startswith sep h = true → full_split_loop n h acc = None.
Proof.
  revert h acc. induction n as [|n IH]; intros h acc Habs;
    (destruct h as [|a h]; [done|]); [done|].
  rewrite full_split_loop_S. simpl truthy. cbv iota.
  pose proof (split_absolute _ Habs) as Hs.
  destruct (split (String a h)) as [h' t]. by apply IH.
Qed.

Lemma full_split_absolute p : startswith sep p = true → full_split p = None.
Proof.
  intros Habs. unfold full_split. pose proof (split_absolute _ Habs) as Hs.
  destruct (split p) as [h t]. by apply full_split_loop_absolute.
Qed.

Lemma full_split_Some p parts :
  full_split p = Some parts →
  startswith sep p = false ∧ valid_parts parts = true ∧
  (length parts ≤ S (String.length p))%nat.
Proof.
  intros Hp. destruct (startswith sep p) eqn:Hs.
  - by rewrite full_split_absolute in Hp.
  - destruct (full_split_total p Hs) as (parts' & Hp' & ? & ?). by simplify_eq.
Qed.

(** *** Joining parts and splitting them again *)

Lemma path_of_snoc ps t :
  ps ≠ [] → clean (path_of ps) → contains sep t = false →
  path_of (ps ++ [t]) = path_of ps ++ String sep t.
Proof.
  intros Hne (Ht & _ & He) Hft. destruct ps as [|a p]; [done|].
  simpl. unfold join. rewrite foldl_app. simpl. unfold join_step at 1.
  fold (join a p). rewrite (startswith_contains _ _ Hft).
  simpl in Ht, He. unfold join in *. by rewrite Ht, He.
Qed.

Lemma path_of_clean ps :
  Forall (λ s, segment s = true) ps → ps ≠ [] → clean (path_of ps).
Proof.
  induction ps as [|x ps IH] using rev_ind; [done|].
  intros [Hps Hx%Forall_inv]%Forall_app _.
  destruct (segment_clean _ Hx) as (Hxt & Hxs & Hxe).
  apply andb_true_iff in Hx as [_ Hxc%negb_true_iff].
  destruct (decide (ps = [])) as [->|Hne]; [by split_and!|].
  destruct (IH Hps Hne) as (Ht & Hs & He).
  rewrite path_of_snoc by done. split_and!.
  - by apply truthy_app_l.
  - by rewrite startswith_app.
  - rewrite endswith_app by done. simpl. by destruct x.
Qed.

Lemma split_path_of_snoc ps t :
  Forall (λ s, segment s = true) ps → contains sep t = false →
  split (path_of (ps ++ [t])) = (path_of ps, t).
Proof.
  intros Hps Ht. destruct (decide (ps = [])) as [->|Hne].
  { simpl. by apply split_noslash. }
  pose proof (path_of_clean ps Hps Hne) as Hc.
  rewrite path_of_snoc, split_slash by done.
  destruct Hc as (Hct & Hcs & Hce).
  by rewrite all_sep_app_sep, all_sep_startswith, rstrip_id.
Qed.

Lemma full_split_loop_path_of n ps acc :
  Forall (λ s, segment s = true) ps → (String.length (path_of ps) ≤ n)%nat →
  full_split_loop n (path_of ps) acc = Some (ps ++ acc)%list.
Proof.
  revert n acc. induction ps as [|x ps IH] using rev_ind; intros n acc Hps Hn.
  { by destruct n. }
  apply Forall_app in Hps as Hps'. destruct Hps' as [Hps' Hx%Forall_inv].
  pose proof (path_of_clean _ Hps ltac:(by destruct ps)) as (Ht & _ & _).
  pose proof Hx as [Hxt Hxc%negb_true_iff]%andb_true_iff.
  destruct n as [|n]; [apply truthy_length in Ht; lia|].
  rewrite full_split_loop_S, Ht, split_path_of_snoc by done.
  rewrite IH, <- (assoc_L (++)); [done|done|].
  destruct (decide (ps = [])) as [->|Hne]; [simpl; lia|].
  rewrite path_of_snoc in Hn by (done || by apply path_of_clean).
  rewrite str_length_app in Hn. simpl in Hn. lia.
Qed.

(** Splitting what [os.path.join] made of valid parts gives them back. *)
Lemma full_split_path_of parts :
  valid_parts parts = true → full_split (path_of parts) = Some parts.
Proof.
  intros (ps & t & -> & Hps & Ht)%valid_parts_inv.
  unfold full_split. rewrite split_path_of_snoc by done.
  apply full_split_loop_path_of; [done|].
  destruct (decide (ps = [])) as [->|Hne]; [simpl; lia|].
  rewrite (path_of_snoc ps t) by (done || by apply path_of_clean).
  rewrite str_length_app. lia.
Qed.

Lemma path_of_length parts :
  valid_parts parts = true → (length parts ≤ S (String.length (path_of parts)))%nat.
Proof.
  intros Hv. by destruct (full_split_Some _ _ (full_split_path_of _ Hv)) as (_ & _ & ?).
Qed.


(** A one-part result is the path itself. *)
Lemma split_head_empty p : (split p).1 = "" → (split p).2 = p.
Proof.
  destruct (contains sep p) eqn:Hp; [|by rewrite (split_noslash _ Hp)].
  destruct (contains_split _ _ Hp) as (x & t & -> & Ht).
  rewrite (split_slash _ _ Ht). simpl. rewrite all_sep_app_sep.
  destruct (all_sep x) eqn:Hall; [by destruct x|].
  destruct x as [|a x]; [done|].
  by destruct (rstrip_not_all_sep _ _ Hall) as [r ->].
Qed.

Lemma full_split_loop_grows n h acc parts :
  full_split_loop n h acc = Some parts →
  (length acc ≤ length parts)%nat ∧
  (truthy h = true → (length acc < length parts)%nat).
Proof.
  revert h acc. induction n as [|n IH]; intros h acc.
  - simpl. destruct (truthy h); [done|]. intros [= ->]. split; [lia|done].
  - rewrite full_split_loop_S. destruct (truthy h); [|intros [= ->]; split; [lia|done]].
    destruct (split h) as [h' t]. intros [Hle _]%IH. simpl in Hle. split; lia.
Qed.

Lemma full_split_single p t : full_split p = Some [t] → t = p.
Proof.
  unfold full_split. pose proof (split_head_empty p) as Hs.
  destruct (split p) as [h t']. simpl in Hs. intros Hl.
  destruct (truthy h) eqn:Hh.
  - apply full_split_loop_grows in Hl as [_ Hl]. specialize (Hl Hh). simpl in Hl. lia.
  - apply falsy_empty in Hh as ->. rewrite Hs in Hl by done.
    destruct (String.length p); simpl in Hl; by simplify_eq.
Qed.



End PathFacts.

Import PathFacts.

(** ** The monad *)

Lemma bind_Ok_inv {S A B} (m : M S A) (k : A → M S B) s b s'' :
  bind m k s = Ok b s'' → ∃ a s', m s = Ok a s' ∧ k a s' = Ok b s''.
Proof. unfold bind. destruct (m s); [eauto|done|done]. Qed.


Lemma bind_Ok {S A B} (m : M S A) (k : A → M S B) s a s' :
  m s = Ok a s' → bind m k s = k a s'.
Proof. unfold bind. by intros ->. Qed.

Lemma bind_ext {S A B} (m : M S A) (k1 k2 : A → M S B) s :
  (∀ a s', k1 a s' = k2 a s') → bind m k1 s = bind m k2 s.
Proof. intros Hk. unfold bind. destruct (m s); auto. Qed.

(** Two computations that agree after their first step agree. *)
Lemma bind_ext' {S A B} (m1 m2 : M S A) (k : A → M S B) s :
  (∀ s', m1 s' = m2 s') → bind m1 k s = bind m2 k s.
Proof. intros Hm. unfold bind. by rewrite Hm. Qed.

Lemma bind_assoc {S A B C} (m : M S A) (k1 : A → M S B) (k2 : B → M S C) s :
  bind (bind m k1) k2 s = bind m (λ a, bind (k1 a) k2) s.
Proof. unfold bind. by destruct (m s). Qed.

Lemma bind_get {S B} (k : S → M S B) s : bind get k s = k s s.
Proof. reflexivity. Qed.

Lemma bind_modify {S B} (f : S → S) (k : unit → M S B) s :
  bind (modify f) k s = k tt (f s).
Proof. reflexivity. Qed.

Section Refinement.
Context `{GitHash}.

Lemma full_split_Ok {S} p parts (s : S) :
  Path.full_split p = Some parts → full_split p s = Ok parts s.
Proof. unfold full_split. by intros ->. Qed.

Lemma bind_ret_l {S A B} (a : A) (k : A → M S B) s : bind (ret a) k s = k a s.
Proof. reflexivity. Qed.

#[local] Arguments get_tree_entry_parts : simpl never.
#[local] Arguments insert_parts : simpl never.
#[local] Arguments remove_parts : simpl never.

Lemma get_tree_entry_parts_cons d d' rest tree :
  get_tree_entry_parts (d :: d' :: rest) tree =
    (let* present := tree_contains tree d in
     if negb present then ret None
     else
       let* e := tree_getitem tree d in
       let* sub_tree := repo_getitem (te_id e) in
       get_tree_entry_parts (d' :: rest) (Some sub_tree)).
Proof. reflexivity. Qed.

Lemma get_tree_entry_step n tree p d d' rest r :
  Path.full_split p = Some (d :: d' :: rest) →
  (∀ sub r', get_tree_entry_fuel n sub (Path.path_of (d' :: rest)) r' =
             get_tree_entry_parts (d' :: rest) sub r') →
  get_tree_entry_fuel (S n) tree p r = get_tree_entry_parts (d :: d' :: rest) tree r.
Proof.
  intros Hp Hrec. simpl get_tree_entry_fuel.
  rewrite (bind_Ok _ _ _ _ _ (full_split_Ok _ _ r Hp)).
  rewrite get_tree_entry_parts_cons. cbn [os_path_join]. rewrite bind_ret_l.
  apply bind_ext. intros present r1. destruct present; simpl; [|done].
  apply bind_ext. intros e r2. apply bind_ext. intros sub r3. apply Hrec.
Qed.

Lemma get_tree_entry_fuel_parts parts : ∀ n tree r,
  Path.valid_parts parts = true → (length parts ≤ n)%nat →
  get_tree_entry_fuel n tree (Path.path_of parts) r = get_tree_entry_parts parts tree r.
Proof.
  induction parts as [|d rest IH]; [done|]. intros n tree r Hv Hn.
  destruct n as [|n]; [simpl in Hn; lia|].
  pose proof (full_split_path_of _ Hv) as Hp.
  destruct rest as [|d' rest].
  - simpl get_tree_entry_fuel.
    by rewrite (bind_Ok _ _ _ _ _ (full_split_Ok _ _ r Hp)).
  - apply get_tree_entry_step; [done|]. intros sub r'.
    apply IH; [by apply (valid_parts_tail d)|simpl in *; lia].
Qed.

Lemma get_tree_entry_eq p parts tree r :
  Path.full_split p = Some parts →
  get_tree_entry tree p r = get_tree_entry_parts parts tree r.
Proof.
  intros Hp. destruct (full_split_Some _ _ Hp) as (_ & Hv & Hlen).
  unfold get_tree_entry. destruct parts as [|d [|d' rest]]; [done| |].
  - simpl get_tree_entry_fuel.
    by rewrite (bind_Ok _ _ _ _ _ (full_split_Ok _ _ r Hp)).
  - apply get_tree_entry_step; [done|]. intros sub r'.
    apply (get_tree_entry_fuel_parts (d' :: rest));
      [by apply (valid_parts_tail d)|simpl in *; lia].
Qed.

Lemma assert_true {S} (b : bool) (s : S) : b = true → assert b s = Ok tt s.
Proof. by intros ->. Qed.

Lemma assert_length {S A} (d : string) (rest : list string) (k : M S A) s :
  (assert (bool_decide (0 < length (d :: rest))%nat) ;; k) s = k s.
Proof.
  assert (bool_decide (0 < length (d :: rest))%nat = true) as Hb
    by (apply bool_decide_eq_true_2; simpl; lia).
  by rewrite (bind_Ok _ _ _ _ _ (assert_true _ s Hb)).
Qed.

Lemma insert_parts_cons d d' rest tree c m :
  insert_parts (d :: d' :: rest) tree c m =
    (let* '(filename, oid, mode) :=
       (let* sub_tree :=
          match tree with
          | None => ret None
          | Some _ =>
              let* present := tree_contains tree d in
              if present then
                let* e := tree_getitem tree d in
                let* t := repo_getitem (te_id e) in
                ret (Some t)
              else ret None
          end in
        let* oid := insert_parts (d' :: rest) sub_tree c GIT_FILEMODE_BLOB in
        ret (d, oid, GIT_FILEMODE_TREE)) in
     let* tree_builder := TreeBuilder tree in
     let* tree_builder := tb_insert tree_builder filename oid mode in
     tb_write tree_builder).
Proof. reflexivity. Qed.

Lemma insert_parts_single name tree c m :
  insert_parts [name] tree c m =
    (let* tree_builder := TreeBuilder tree in
     let* tree_builder := tb_insert tree_builder name c m in
     tb_write tree_builder).
Proof. reflexivity. Qed.

Lemma insert_into_tree_step n tree p d d' rest c m r :
  Path.full_split p = Some (d :: d' :: rest) →
  (∀ sub c' m' r', insert_into_tree_fuel n sub (Path.path_of (d' :: rest)) c' m' r' =
                   insert_parts (d' :: rest) sub c' m' r') →
  insert_into_tree_fuel (S n) tree p c m r = insert_parts (d :: d' :: rest) tree c m r.
Proof.
  intros Hp Hrec. simpl insert_into_tree_fuel.
  rewrite (bind_Ok _ _ _ _ _ (full_split_Ok _ _ r Hp)), assert_length.
  rewrite insert_parts_cons. apply bind_ext'. cbn [os_path_join]. intros r0.
  rewrite bind_ret_l. apply bind_ext. intros sub r1.
  apply bind_ext'. intros r2. apply Hrec.
Qed.

Lemma insert_into_tree_single n tree p t c m r :
  Path.full_split p = Some [t] →
  insert_into_tree_fuel (S n) tree p c m r = insert_parts [t] tree c m r.
Proof.
  intros Hp. simpl insert_into_tree_fuel.
  rewrite (bind_Ok _ _ _ _ _ (full_split_Ok _ _ r Hp)), assert_length.
  by rewrite (full_split_single _ _ Hp).
Qed.

Lemma insert_into_tree_fuel_parts parts : ∀ n tree c m r,
  Path.valid_parts parts = true → (length parts ≤ n)%nat →
  insert_into_tree_fuel n tree (Path.path_of parts) c m r = insert_parts parts tree c m r.
Proof.
  induction parts as [|d rest IH]; [done|]. intros n tree c m r Hv Hn.
  destruct n as [|n]; [simpl in Hn; lia|].
  pose proof (full_split_path_of _ Hv) as Hp.
  destruct rest as [|d' rest]; [by apply insert_into_tree_single|].
  apply insert_into_tree_step; [done|]. intros sub c' m' r'.
  apply IH; [by apply (valid_parts_tail d)|simpl in *; lia].
Qed.

Lemma insert_into_tree_eq p parts tree c m r :
  Path.full_split p = Some parts →
  insert_into_tree tree p c m r = insert_parts parts tree c m r.
Proof.
  intros Hp. destruct (full_split_Some _ _ Hp) as (_ & Hv & Hlen).
  unfold insert_into_tree. destruct parts as [|d [|d' rest]]; [done| |].
  - by apply insert_into_tree_single.
  - apply insert_into_tree_step; [done|]. intros sub c' m' r'.
    apply (insert_into_tree_fuel_parts (d' :: rest));
      [by apply (valid_parts_tail d)|simpl in *; lia].
Qed.

Lemma remove_parts_cons d d' rest tree :
  remove_parts (d :: d' :: rest) tree =
    (let* tree_builder := TreeBuilder tree in
     match tb_get tree_builder d with
     | None => tree_id tree
     | Some sub_tree_entry =>
         let* sub_tree := repo_getitem (te_id sub_tree_entry) in
         let* new_sub_tree_id := remove_parts (d' :: rest) (Some sub_tree) in
         if bool_decide (new_sub_tree_id = empty_tree_id) then
           remove_and_write tree_builder (Some d)
         else
           let* tree_builder :=
             tb_insert tree_builder d new_sub_tree_id GIT_FILEMODE_TREE in
           remove_and_write tree_builder None
     end).
Proof. reflexivity. Qed.

Lemma remove_parts_single name tree :
  remove_parts [name] tree =
    (let* tree_builder := TreeBuilder tree in
     remove_and_write tree_builder (Some name)).
Proof. reflexivity. Qed.

Lemma remove_file_from_tree_step n tree p d d' rest r :
  Path.full_split p = Some (d :: d' :: rest) →
  (∀ sub r', remove_file_from_tree_fuel n sub (Path.path_of (d' :: rest)) r' =
             remove_parts (d' :: rest) sub r') →
  remove_file_from_tree_fuel (S n) tree p r = remove_parts (d :: d' :: rest) tree r.
Proof.
  intros Hp Hrec. simpl remove_file_from_tree_fuel. rewrite remove_parts_cons.
  apply bind_ext. intros tb r0.
  rewrite (bind_Ok _ _ _ _ _ (full_split_Ok _ _ r0 Hp)), assert_length.
  cbn [os_path_join]. rewrite bind_ret_l.
  destruct (tb_get tb d); [|done].
  apply bind_ext. intros sub r1. apply bind_ext'. intros r2. apply Hrec.
Qed.

Lemma remove_file_from_tree_single n tree p t r :
  Path.full_split p = Some [t] →
  remove_file_from_tree_fuel (S n) tree p r = remove_parts [t] tree r.
Proof.
  intros Hp. simpl remove_file_from_tree_fuel. rewrite remove_parts_single.
  apply bind_ext. intros tb r0.
  rewrite (bind_Ok _ _ _ _ _ (full_split_Ok _ _ r0 Hp)), assert_length.
  by rewrite (full_split_single _ _ Hp).
Qed.

Lemma remove_file_from_tree_fuel_parts parts : ∀ n tree r,
  Path.valid_parts parts = true → (length parts ≤ n)%nat →
  remove_file_from_tree_fuel n tree (Path.path_of parts) r = remove_parts parts tree r.
Proof.
  induction parts as [|d rest IH]; [done|]. intros n tree r Hv Hn.
  destruct n as [|n]; [simpl in Hn; lia|].
  pose proof (full_split_path_of _ Hv) as Hp.
  destruct rest as [|d' rest]; [by apply remove_file_from_tree_single|].
  apply remove_file_from_tree_step; [done|]. intros sub r'.
  apply IH; [by apply (valid_parts_tail d)|simpl in *; lia].
Qed.

Lemma remove_file_from_tree_eq p parts tree r :
  Path.full_split p = Some parts →
  remove_file_from_tree tree p r = remove_parts parts tree r.
Proof.
  intros Hp. destruct (full_split_Some _ _ Hp) as (_ & Hv & Hlen).
  unfold remove_file_from_tree. destruct parts as [|d [|d' rest]]; [done| |].
  - by apply remove_file_from_tree_single.
  - apply remove_file_from_tree_step; [done|]. intros sub r'.
    apply (remove_file_from_tree_fuel_parts (d' :: rest));
      [by apply (valid_parts_tail d)|simpl in *; lia].
Qed.

End Refinement.

Import PathFacts.

#[local] Arguments get_tree_entry_parts : simpl never.
#[local] Arguments insert_parts : simpl never.
#[local] Arguments remove_parts : simpl never.

(** ** The object database *)

Section Store.
Context `{GitHash}.

#[global] Instance extends_refl : Reflexive extends.
Proof. intros r. by split_and!. Qed.

#[global] Instance extends_trans : Transitive extends.
Proof.
  intros r1 r2 r3 (? & ? & ? & ? & ? & ?) (? & ? & ? & ? & ? & ?).
  split_and!; try congruence. by etrans.
Qed.

Lemma extends_lookup r r' i o :
  extends r r' → objects r !! i = Some o → objects r' !! i = Some o.
Proof. intros [Hsub _] Hi. by eapply lookup_weaken. Qed.

Lemma odb_write_Ok o r i r' :
  odb_write o r = Ok i r' →
  i = hash_object o ∧ extends r r' ∧ (wf_store r → wf_store r') ∧
  (wf_store r → Inj (=) (=) hash_object → objects r' !! i = Some o).
Proof.
  unfold odb_write. destruct (objects r !! hash_object o) as [o'|] eqn:E;
    intros [= <- <-].
  - split_and!; [done|done|done|]. intros Hwf Hinj.
    by rewrite E, (Hinj _ _ (Hwf _ _ E)).
  - split_and!; [done| | |].
    + split_and!; try done. simpl. by apply insert_subseteq.
    + intros Hwf i o'. simpl. intros [[<- <-]|[_ ?]]%lookup_insert_Some; eauto.
    + intros _ _. simpl. by rewrite lookup_insert_eq.
Qed.

Lemma odb_write_total o r : ∃ r', odb_write o r = Ok (hash_object o) r'.
Proof. unfold odb_write. destruct (objects r !! hash_object o); eauto. Qed.

Lemma odb_write_present o r :
  objects r !! hash_object o = Some o → odb_write o r = Ok (hash_object o) r.
Proof. unfold odb_write. by intros ->. Qed.

Lemma odb_write_never_raises o r e r' : odb_write o r ≠ Raise e r'.
Proof. unfold odb_write. by destruct (objects r !! hash_object o). Qed.

Lemma repo_getitem_Ok i r t r' :
  repo_getitem i r = Ok t r' → r' = r ∧ oid t = i ∧ stored r t.
Proof.
  unfold repo_getitem, stored. destruct (objects r !! i) eqn:E; [|done].
  by intros [= <- <-].
Qed.

Lemma repo_getitem_stored i o r :
  objects r !! i = Some o → repo_getitem i r = Ok (mkPy i o) r.
Proof. unfold repo_getitem. by intros ->. Qed.

Lemma TreeBuilder_Ok tree r tb r' :
  TreeBuilder tree r = Ok tb r' →
  r' = r ∧ match tree with None => tb = ∅ | Some t => obj t = Tree tb end.
Proof.
  destruct tree as [[i [d|es|c]]|]; simpl; try done; by intros [= <- <-].
Qed.


Lemma tb_insert_Ok tb name i m r tb' r' :
  tb_insert tb name i m r = Ok tb' r' →
  r' = r ∧ tb' = <[name := (i, m)]> tb ∧ valid_entry_name name = true.
Proof.
  unfold tb_insert. destruct (valid_entry_name name); [|done]. by intros [= <- <-].
Qed.



Lemma tb_get_Some tb name e :
  tb_get tb name = Some e ↔ ∃ i m, tb !! name = Some (i, m) ∧ e = mkEntry name i m.
Proof.
  unfold tb_get. destruct (tb !! name) as [[i m]|]; split.
  - intros [= <-]. eauto.
  - intros (? & ? & [= <- <-] & ->). done.
  - done.
  - by intros (? & ? & ? & _).
Qed.


Lemma remove_and_write_eq tb filename r :
  remove_and_write tb filename r = tb_write (removed tb filename) r.
Proof.
  unfold remove_and_write, removed. destruct filename as [f|]; [|done].
  destruct (PyStr.truthy f); [|done].
  destruct (tb !! f) as [[i m]|] eqn:E.
  - unfold tb_get, tb_remove. by rewrite E.
  - unfold tb_get. by rewrite E, delete_id.
Qed.


End Store.

(** ** Removal prunes *)

Section Remove.
Context `{GitHash}.
Hypothesis hash_inj : Inj (=) (=) hash_object.

Lemma tb_write_Ok tb r i r' :
  wf_store r → tb_write tb r = Ok i r' →
  i = hash_object (Tree tb) ∧ extends r r' ∧ wf_store r' ∧
  objects r' !! i = Some (Tree tb).
Proof.
  intros Hwf (-> & ? & Hwf' & Hi)%odb_write_Ok. split_and!; auto.
Qed.



End Remove.

Section RemoveTop.
Context `{GitHash}.



End RemoveTop.

Import PathFacts.

#[local] Arguments get_tree_entry_parts : simpl never.
#[local] Arguments insert_parts : simpl never.
#[local] Arguments remove_parts : simpl never.

(** ** Insert, then remove *)

Section InsertRemove.
Context `{GitHash}.
Hypothesis hash_inj : Inj (=) (=) hash_object.
Hypothesis hash_empty : hash_object (Tree ∅) = empty_tree_id.



Lemma tree_known_hash r tree es :
  wf_store r → tree_known r tree es →
  match tree with Some t => hash_object (Tree es) = oid t | None => True end.
Proof.
  intros Hwf. destruct tree as [[i o]|]; [|done]. simpl. intros [-> Hs]. by apply Hwf.
Qed.




End InsertRemove.

Import PathFacts.

(** ** What a computation can do to the state *)

Section Always.
Context {S : Type} (R : S → S → Prop) (E : exn → Prop).
Context `{!Reflexive R, !Transitive R}.

Lemma always_ret {A} (a : A) : always R E (ret a).
Proof. intros s. simpl. reflexivity. Qed.

Lemma always_raise {A} e : E e → always R E (raise (A:=A) e).
Proof. intros He s. simpl. split; [reflexivity|done]. Qed.

Lemma always_diverge {A} : always R E (diverge (A:=A)).
Proof. by intros s. Qed.

Lemma always_get : always R E get.
Proof. intros s. simpl. reflexivity. Qed.

Lemma always_bind {A B} (m : M S A) (k : A → M S B) :
  always R E m → (∀ a, always R E (k a)) → always R E (bind m k).
Proof.
  intros Hm Hk s. unfold bind. specialize (Hm s).
  destruct (m s) as [a s'|e s'|]; [|done|done].
  specialize (Hk a s'). destruct (k a s') as [b s''|e s''|]; [|destruct Hk; split|done];
    try done; by etrans.
Qed.

Lemma always_assert b : E AssertionError → always R E (assert b).
Proof. intros ?. destruct b; [apply always_ret|by apply always_raise]. Qed.

Lemma always_full_split p : always R E (full_split p).
Proof. intros s. unfold full_split. destruct (Path.full_split p); [reflexivity|done]. Qed.

Lemma always_os_path_join parts : E TypeError → always R E (os_path_join parts).
Proof. intros ?. destruct parts; [by apply always_raise|apply always_ret]. Qed.

Lemma always_Ok {A} (m : M S A) s a s' : always R E m → m s = Ok a s' → R s s'.
Proof. intros Hm Hs. specialize (Hm s). by rewrite Hs in Hm. Qed.

Lemma always_Raise {A} (m : M S A) s e s' :
  always R E m → m s = Raise e s' → R s s' ∧ E e.
Proof. intros Hm Hs. specialize (Hm s). by rewrite Hs in Hm. Qed.

End Always.

Lemma always_weaken {S A} (R R' : S → S → Prop) (E E' : exn → Prop) (m : M S A) :
  (∀ s s', R s s' → R' s s') → (∀ e, E e → E' e) →
  always R E m → always R' E' m.
Proof.
  intros HR HE Hm s. specialize (Hm s).
  destruct (m s) as [a s'|e s'|]; [auto|destruct Hm; auto|done].
Qed.

Ltac always_step :=
  lazymatch goal with
  | |- always _ _ (bind _ _) => apply always_bind; try (apply _); [|intros ?]
  | |- always _ _ (ret _) => apply always_ret; apply _
  | |- always _ _ (raise _) =>
      apply always_raise; first [apply _|done|by apply allows_builtin]
  | |- always _ _ diverge => apply always_diverge
  | |- always _ _ get => apply always_get; apply _
  | |- always _ _ (assert _) =>
      apply always_assert; first [apply _|done|by apply allows_builtin]
  | |- always _ _ (full_split _) => apply always_full_split; apply _
  | |- always _ _ (os_path_join _) =>
      apply always_os_path_join; first [apply _|done|by apply allows_builtin]
  | |- always _ _ (match ?x with _ => _ end) => destruct x
  end.

Tactic Notation "always_bind" "as" simple_intropattern(x) :=
  apply always_bind; try (apply _); [|intros x].

#[global] Instance builtin_allows : AllowsBuiltin builtin.
Proof. by intros e. Qed.
#[global] Instance other_allows : AllowsBuiltin other.
Proof. by intros []. Qed.

Section AlwaysRepo.
Context `{GitHash}.

#[global] Instance grows_refl : Reflexive grows.
Proof. by intros r. Qed.
#[global] Instance grows_trans : Transitive grows.
Proof. intros r1 r2 r3 [? ?] [? ?]. split; [by etrans|auto]. Qed.

Context (R : Repository → Repository → Prop) `{!Reflexive R, !Transitive R}.
Context (E : exn → Prop) `{!AllowsBuiltin E}.

Lemma always_repo_getitem i : always R E (repo_getitem i).
Proof.
  intros r. unfold repo_getitem. destruct (objects r !! i); [reflexivity|].
  split; [reflexivity|by apply allows_builtin].
Qed.

Lemma always_tree_contains tree name : always R E (tree_contains tree name).
Proof. destruct tree as [[i [d|es|c]]|]; simpl; repeat always_step. Qed.

Lemma always_tree_getitem tree name : always R E (tree_getitem tree name).
Proof.
  destruct tree as [[i [d|es|c]]|]; simpl; repeat always_step.
Qed.

Lemma always_tree_id tree : always R E (tree_id tree).
Proof. destruct tree; simpl; always_step. Qed.

Lemma always_TreeBuilder tree : always R E (TreeBuilder tree).
Proof. destruct tree as [[i [d|es|c]]|]; simpl; repeat always_step. Qed.

Lemma always_tb_insert tb name i m : always R E (tb_insert tb name i m).
Proof. unfold tb_insert. destruct (valid_entry_name name); always_step. Qed.

Lemma always_tb_remove tb name : always R E (tb_remove tb name).
Proof. unfold tb_remove. repeat always_step. Qed.

Lemma always_get_tree_entry_fuel n : ∀ tree p,
  always R E (get_tree_entry_fuel n tree p).
Proof.
  induction n as [|n IH]; intros tree p; simpl; [always_step|].
  always_bind as parts; [always_step|]. destruct parts as [|d [|d' rest]].
  - always_step.
  - always_bind as present; [apply always_tree_contains|].
    destruct present; [|always_step].
    always_bind as e; [apply always_tree_getitem|always_step].
  - always_bind as sub_filename; [always_step|].
    always_bind as present; [apply always_tree_contains|].
    destruct present; simpl; [|always_step].
    always_bind as e; [apply always_tree_getitem|].
    always_bind as sub; [apply always_repo_getitem|]. apply IH.
Qed.

Lemma always_get_tree_entry tree p : always R E (get_tree_entry tree p).
Proof. apply always_get_tree_entry_fuel. Qed.

End AlwaysRepo.

Section AlwaysGrows.
Context `{GitHash}.

Lemma always_odb_write o : always grows other (odb_write o).
Proof.
  intros r. destruct (odb_write o r) as [i r'|e r'|] eqn:Hw; [| |done].
  - apply odb_write_Ok in Hw as (_ & ? & ? & _). by split.
  - by apply odb_write_never_raises in Hw.
Qed.

Lemma always_remove_and_write tb f : always grows other (remove_and_write tb f).
Proof.
  unfold remove_and_write. always_bind as tb'; [|apply always_odb_write].
  destruct f as [f|]; [|always_step].
  destruct (_ && _); [apply always_tb_remove; apply _|always_step].
Qed.

Lemma always_insert_into_tree_fuel n : ∀ tree p c m,
  always grows other (insert_into_tree_fuel n tree p c m).
Proof.
  induction n as [|n IH]; intros tree p c m; simpl; [always_step|].
  always_bind as parts; [always_step|].
  always_bind as u; [always_step|].
  always_bind as [[f i] md].
  - destruct parts as [|d [|d' rest]]; [always_step|always_step|].
    always_bind as sub_filename; [always_step|].
    always_bind as sub_tree.
    + destruct tree; [|always_step].
      always_bind as present; [apply always_tree_contains; apply _|].
      destruct present; [|always_step].
      always_bind as e; [apply always_tree_getitem; apply _|].
      always_bind as t; [apply always_repo_getitem; apply _|]. always_step.
    + always_bind as i; [apply IH|]. always_step.
  - always_bind as tb; [apply always_TreeBuilder; apply _|].
    always_bind as tb'; [apply always_tb_insert; apply _|]. apply always_odb_write.
Qed.

Lemma always_remove_file_from_tree_fuel n : ∀ tree p,
  always grows other (remove_file_from_tree_fuel n tree p).
Proof.
  induction n as [|n IH]; intros tree p; simpl; [always_step|].
  always_bind as tb; [apply always_TreeBuilder; apply _|].
  always_bind as parts; [always_step|].
  always_bind as u; [always_step|].
  destruct parts as [|d [|d' rest]];
    [apply always_remove_and_write|apply always_remove_and_write|].
  always_bind as sub_filename; [always_step|].
  destruct (tb_get tb d); [|apply always_tree_id; apply _].
  always_bind as sub; [apply always_repo_getitem; apply _|].
  always_bind as new; [apply IH|].
  case_bool_decide; [apply always_remove_and_write|].
  always_bind as tb'; [apply always_tb_insert; apply _|]. apply always_remove_and_write.
Qed.

End AlwaysGrows.

Import PathFacts.

(** ** TreeModifier *)

Lemma nested_ind' (P : nested → Prop) :
  (∀ v, P (Leaf v)) →
  (∀ d, Forall (λ kv, P kv.2) d → P (Dict d)) →
  ∀ n, P n.
Proof.
  intros HL HD. fix IH 1. intros [v|d]; [apply HL|].
  apply HD. induction d as [|[k v] d IHd]; constructor; [apply IH|apply IHd].
Qed.

Lemma other_MoveOfDeletedPath o n : other (MoveOfDeletedPath o n).
Proof. done. Qed.
Lemma other_MoveOfMissingPath o n : other (MoveOfMissingPath o n).
Proof. done. Qed.

Section AlwaysModifier.
Context `{GitHash}.

Lemma always_simplify_operation tree todo op :
  always grows other (simplify_operation tree todo op).
Proof.
  destruct op as [b f|f|o n]; simpl; [always_step|always_step|].
  always_bind as v; [|always_step].
  destruct (dict_get o todo) as [[| |]|].
  - apply always_raise; [apply _|apply other_MoveOfDeletedPath].
  - always_step.
  - always_step.
  - always_bind as e; [apply always_get_tree_entry; apply _|].
    destruct e; [always_step|].
    apply always_raise; [apply _|apply other_MoveOfMissingPath].
Qed.

Lemma always_simplify_operations tree ops : ∀ todo,
  always grows other (simplify_operations tree todo ops).
Proof.
  induction ops as [|op ops IH]; intros todo; simpl; [always_step|].
  always_bind as todo'; [apply always_simplify_operation|apply IH].
Qed.

Lemma always_nested_set dirs f v : ∀ d, always grows other (nested_set dirs f v d).
Proof.
  induction dirs as [|x dirs IH]; intros d; simpl; [always_step|].
  destruct (dict_get x d) as [[?|sub]|].
  - always_step.
  - always_bind as sub'; [apply IH|always_step].
  - always_bind as sub'; [apply IH|always_step].
Qed.

Lemma always_init_last parts : always grows other (init_last parts).
Proof. unfold init_last. destruct (reverse parts); always_step. Qed.

Lemma always_by_directory todo : ∀ d, always grows other (by_directory todo d).
Proof.
  induction todo as [|[f v] todo IH]; intros d; simpl; [always_step|].
  always_bind as parts; [always_step|].
  always_bind as [dirs f']; [apply always_init_last|].
  always_bind as d'; [apply always_nested_set|apply IH].
Qed.

Lemma always_simplify self : always grows other (simplify self).
Proof.
  unfold simplify. always_bind as todo;
    [apply always_simplify_operations|apply always_by_directory].
Qed.

Lemma always_for_items {V} (body : string → V → builder → M Repository builder) items :
  Forall (λ kv, ∀ tb, always grows other (body kv.1 kv.2 tb)) items →
  ∀ tb, always grows other (for_items body items tb).
Proof.
  induction 1 as [|[k v] items Hkv _ IH]; intros tb; simpl; [always_step|].
  always_bind as tb'; [apply Hkv|apply IH].
Qed.

Lemma always_update_tree_item value : ∀ key tb,
  always grows other (update_tree_item key value tb).
Proof.
  induction value as [[|b|e]|d IH] using nested_ind'; intros key tb; simpl.
  - apply always_tb_remove; apply _.
  - apply always_tb_insert; apply _.
  - always_step.
  - always_bind as sub_tree.
    { destruct (tb_get tb key); [|always_step].
      always_bind as sub; [apply always_repo_getitem; apply _|always_step]. }
    always_bind as new; [|apply always_tb_insert; apply _].
    always_bind as sb; [apply always_TreeBuilder; apply _|].
    always_bind as sb'; [|apply always_odb_write].
    apply always_for_items. eapply Forall_impl; [exact IH|].
    intros [k v] Hv tb'. apply Hv.
Qed.

Lemma always_update_tree tree todo : always grows other (update_tree tree todo).
Proof.
  unfold update_tree. always_bind as tb; [apply always_TreeBuilder; apply _|].
  always_bind as tb'; [|apply always_odb_write].
  apply always_for_items. apply Forall_forall. intros [k v] _ tb''.
  apply always_update_tree_item.
Qed.

Lemma always_apply self : always grows other (apply self).
Proof.
  unfold apply. always_bind as todo; [apply always_simplify|].
  always_bind as i; [apply always_update_tree|].
  apply always_repo_getitem; apply _.
Qed.

End AlwaysModifier.

Import PathFacts.

(** ** GitHandler *)

Lemma set_repo_id w : set_repo (repo w) w = w.
Proof. by destruct w. Qed.

Lemma set_self_id (f : GitHandler → GitHandler) w : f (self w) = self w → set_self f w = w.
Proof. destruct w. unfold set_self. simpl. by intros ->. Qed.

Lemma set_working_tree_id h : set_working_tree (working_tree h) h = h.
Proof. by destruct h. Qed.

Lemma set_tree_modifier_id f h : f (tree_modifier h) = tree_modifier h → set_tree_modifier f h = h.
Proof. destruct h. unfold set_tree_modifier. simpl. by intros ->. Qed.

Lemma liftR_Ok {A} (m : M Repository A) w a r' :
  m (repo w) = Ok a r' → liftR m w = Ok a (set_repo r' w).
Proof. unfold liftR. by intros ->. Qed.

Lemma liftR_Ok_same {A} (m : M Repository A) w a :
  m (repo w) = Ok a (repo w) → liftR m w = Ok a w.
Proof. intros Hm. by rewrite (liftR_Ok _ _ _ _ Hm), set_repo_id. Qed.

Lemma liftR_Ok_inv {A} (m : M Repository A) w a w' :
  liftR m w = Ok a w' → ∃ r', m (repo w) = Ok a r' ∧ w' = set_repo r' w.
Proof. unfold liftR. destruct (m (repo w)); intros [=]; subst; eauto. Qed.

#[global] Instance lift_rel_refl R `{!Reflexive R} : Reflexive (lift_rel R).
Proof. by intros w. Qed.
#[global] Instance lift_rel_trans R `{!Transitive R} : Transitive (lift_rel R).
Proof.
  intros w1 w2 w3 (? & ? & ? & ?) (? & ? & ? & ?).
  split_and!; try congruence. by etrans.
Qed.

Lemma always_liftR {A} R E (m : M Repository A) :
  always R E m → always (lift_rel R) E (liftR m).
Proof.
  intros Hm w. unfold liftR. specialize (Hm (repo w)).
  destruct (m (repo w)) as [a r'|e r'|]; [|destruct Hm|]; by repeat split.
Qed.

Section Handler.
Context `{GitHash}.

Lemma always_head_target R `{!Reflexive R} : always R other head_target.
Proof.
  intros r. unfold head_target. destruct (references r !! HEAD r); [reflexivity|].
  split; [reflexivity|done].
Qed.

Lemma always_commit_tree R `{!Reflexive R, !Transitive R} commit :
  always R other (commit_tree commit).
Proof.
  unfold commit_tree. destruct (obj commit); [always_step| always_step|].
  always_bind as t; [apply always_repo_getitem; apply _|].
  destruct (obj t); always_step.
Qed.

Lemma always_get_last_tree : always (lift_rel grows) other get_last_tree.
Proof.
  unfold get_last_tree. always_bind as w; [always_step|].
  destruct (head_is_unborn (repo w)).
  - always_bind as i; [|apply always_liftR, always_repo_getitem; apply _].
    apply always_liftR. always_bind as tb; [apply always_TreeBuilder; apply _|].
    apply always_odb_write.
  - always_bind as c; [apply always_liftR, always_head_target; apply _|].
    always_bind as commit; [apply always_liftR, always_repo_getitem; apply _|].
    apply always_liftR, always_commit_tree; apply _.
Qed.

(** C10.  When [filename] resolves in the session's base tree to an entry
    whose id is the hash of the encoded content, [write_file] returns at
    once and leaves everything as it was: the object database (no blob),
    the operation log, the messages and the working copy. *)
Theorem write_file_unchanged_is_noop w filename content e r' :
  get_tree_entry (Some (working_tree (self w))) filename (repo w) = Ok (Some e) r' →
  te_id e = git_hash (utf8_encode content) →
  write_file filename content w = Ok tt w.
Proof.
  intros Hget Hid.
  assert (r' = repo w) as ->.
  { symmetry. by apply (always_Ok eq other _ _ _ _ (always_get_tree_entry eq other _ _) Hget). }
  unfold write_file. rewrite bind_get.
  rewrite (bind_Ok _ _ _ _ _ (liftR_Ok_same _ _ _ Hget)).
  by rewrite bool_decide_eq_true_2.
Qed.

#[global] Instance anything_refl {S} : Reflexive (@anything S).
Proof. done. Qed.
#[global] Instance anything_trans {S} : Transitive (@anything S).
Proof. done. Qed.

Lemma always_anything {S A} (R : S → S → Prop) E (m : M S A) :
  always R E m → always anything E m.
Proof. by apply always_weaken. Qed.

Lemma always_modify {S} E (f : S → S) : always anything E (modify f).
Proof. done. Qed.

Lemma always_config_getitem R `{!Reflexive R} key : always R other (config_getitem key).
Proof.
  intros r. unfold config_getitem. destruct (config r !! key); [reflexivity|].
  split; [reflexivity|done].
Qed.

Lemma always_liftR_any {A} R (m : M Repository A) :
  always R other m → always anything other (liftR m).
Proof. intros Hm. eapply always_anything, always_liftR, Hm. Qed.

Lemma always_config_pair :
  always anything other
    (liftR (let* n := config_getitem "user.name" in
            let* e := config_getitem "user.email" in ret (n, e))).
Proof.
  apply (always_liftR_any eq).
  always_bind as n; [apply always_config_getitem; apply _|].
  always_bind as e; [apply always_config_getitem; apply _|]. always_step.
Qed.

Lemma always_saveCurrentCommit : always anything other saveCurrentCommit.
Proof.
  unfold saveCurrentCommit. always_bind as w; [always_step|].
  always_bind as c; [apply (always_liftR_any eq), always_head_target; apply _|].
  apply always_modify.
Qed.

Lemma always_commit_create parents : always anything other (commit_create parents).
Proof.
  unfold commit_create.
  always_bind as author; [apply always_config_pair|].
  always_bind as committer; [apply always_config_pair|].
  always_bind as w; [always_step|].
  always_bind as u1.
  { apply (always_liftR_any anything). unfold create_commit.
    always_bind as c; [eapply always_anything, always_odb_write|].
    always_bind as u; [apply always_modify|always_step]. }
  always_bind as u2; [apply always_saveCurrentCommit|].
  always_bind as u3; [apply always_modify|].
  always_bind as w'; [always_step|].
  destruct (_ && _); [apply always_modify|always_step].
Qed.

(** [commit] after the comparison of the two tree ids. *)
Lemma always_commit_rest (tm : TreeModifier) :
  always anything other
    (let* new_tree := liftR (apply tm) in
     modify (set_self (set_working_tree new_tree)) ;;
     modify (set_self (set_tree_modifier (λ _, mkTreeModifier new_tree []))) ;;
     let* w := get in
     if head_is_unborn (repo w) then commit_create []
     else
       let* c := getCurrentCommit in
       let* commit := liftR (repo_getitem c) in
       let* t := liftR (commit_tree commit) in
       if bool_decide (oid t = oid (working_tree (self w))) then ret tt
       else commit_create [oid commit]).
Proof.
  always_bind as new_tree; [apply (always_liftR_any grows), always_apply|].
  always_bind as u1; [apply always_modify|].
  always_bind as u2; [apply always_modify|].
  always_bind as w; [always_step|].
  destruct (head_is_unborn (repo w)); [apply always_commit_create|].
  always_bind as c; [apply (always_liftR_any eq), always_head_target; apply _|].
  always_bind as commit; [apply (always_liftR_any eq), always_repo_getitem; apply _|].
  always_bind as t; [apply (always_liftR_any eq), always_commit_tree; apply _|].
  case_bool_decide; [always_step|apply always_commit_create].
Qed.

Lemma commit_unfold w :
  commit w =
    (let* last := get_last_tree in
     if bool_decide (oid (tm_tree (tree_modifier (self w))) ≠ oid last) then
       raise ConcurrentModification
     else
       let* new_tree := liftR (apply (tree_modifier (self w))) in
       modify (set_self (set_working_tree new_tree)) ;;
       modify (set_self (set_tree_modifier (λ _, mkTreeModifier new_tree []))) ;;
       let* w := get in
       if head_is_unborn (repo w) then commit_create []
       else
         let* c := getCurrentCommit in
         let* commit := liftR (repo_getitem c) in
         let* t := liftR (commit_tree commit) in
         if bool_decide (oid t = oid (working_tree (self w))) then ret tt
         else commit_create [oid commit]) w.
Proof. reflexivity. Qed.

Lemma lift_rel_eq w w' : lift_rel eq w w' → w' = w.
Proof. destruct w, w'. unfold lift_rel. simpl. by intros (-> & -> & -> & ->). Qed.

(** With a head commit, reading the head tree changes nothing. *)
Lemma get_last_tree_born w last w' :
  head_is_unborn (repo w) = false → get_last_tree w = Ok last w' → w' = w.
Proof.
  intros Hborn. unfold get_last_tree. rewrite bind_get, Hborn. intros Hget.
  apply lift_rel_eq. revert Hget. apply (always_Ok _ other).
  always_bind as c; [apply always_liftR, always_head_target; apply _|].
  always_bind as commit; [apply always_liftR, always_repo_getitem; apply _|].
  apply always_liftR, always_commit_tree; apply _.
Qed.

(** C6.  [commit] raises ConcurrentModification exactly when the id of the
    tree the session started from differs from the id of the head tree it
    reads back, and it raises before it changes anything: the handler (base
    tree, operation log, messages), the working copy, the references and
    HEAD are as they were.  With a head commit the whole state is; on an
    unborn head reading the head tree may have stored the empty tree. *)
Theorem commit_concurrent_modification w last w1 :
  get_last_tree w = Ok last w1 →
  ((∃ w', commit w = Raise ConcurrentModification w') ↔
   oid (tm_tree (tree_modifier (self w))) ≠ oid last) ∧
  (∀ w', commit w = Raise ConcurrentModification w' →
     w' = w1 ∧ self w' = self w ∧ files w' = files w ∧
     extends (repo w) (repo w') ∧
     (head_is_unborn (repo w) = false → w' = w)).
Proof.
  intros Hlast.
  assert (∀ w', commit w = Raise ConcurrentModification w' →
                w' = w1 ∧ oid (tm_tree (tree_modifier (self w))) ≠ oid last) as Hinv.
  { intros w'. rewrite commit_unfold. unfold bind at 1. rewrite Hlast.
    case_bool_decide as Hne; [by intros [= <-]|].
    intros Hrest.
    by destruct (always_Raise _ _ _ _ _ _ (always_commit_rest _) Hrest) as [_ []]. }
  split.
  - split.
    + by intros [w' [_ ?]%Hinv].
    + intros Hne. exists w1. rewrite commit_unfold. unfold bind at 1.
      rewrite Hlast. by rewrite bool_decide_eq_true_2.
  - intros w' [-> _]%Hinv.
    destruct (always_Ok _ _ _ _ _ _ always_get_last_tree Hlast)
      as (Hself & Hfiles & _ & Hext & _).
    split_and!; try done. intros Hborn. by eapply get_last_tree_born.
Qed.

(** *** A second commit *)

Lemma published_head w :
  published w → head_is_unborn (repo w) = false.
Proof.
  intros (c & cd & tb & Href & _). unfold head_is_unborn.
  apply bool_decide_eq_false_2. by rewrite Href.
Qed.

(** What the head commit's tree is, for a published session. *)
Lemma published_head_tree w :
  published w →
  ∃ commit,
    (let* c := getCurrentCommit in
     let* commit := liftR (repo_getitem c) in
     let* t := liftR (commit_tree commit) in
     ret (commit, t)) w
    = Ok (commit, working_tree (self w)) w.
Proof.
  intros (c & cd & tb & Href & Hc & Htree & Hwt & Hobj & _ & _).
  exists (mkPy c (Commit cd)).
  assert (getCurrentCommit w = Ok c w) as Hcur.
  { apply liftR_Ok_same. unfold head_target. by rewrite Href. }
  rewrite (bind_Ok _ _ _ _ _ Hcur).
  rewrite (bind_Ok _ _ _ _ _ (liftR_Ok_same _ _ _ (repo_getitem_stored _ _ _ Hc))).
  assert (commit_tree (mkPy c (Commit cd)) (repo w)
          = Ok (working_tree (self w)) (repo w)) as Hct.
  { unfold commit_tree. cbn [obj]. rewrite Htree.
    rewrite (bind_Ok _ _ _ _ _ (repo_getitem_stored _ _ _ Hwt)). simpl.
    destruct (working_tree (self w)) as [i o]. simpl in *. by subst. }
  by rewrite (bind_Ok _ _ _ _ _ (liftR_Ok_same _ _ _ Hct)).
Qed.

Lemma published_get_last_tree w :
  published w → get_last_tree w = Ok (working_tree (self w)) w.
Proof.
  intros Hpub. destruct (published_head_tree w Hpub) as [commit0 Hht].
  unfold get_last_tree. rewrite bind_get, (published_head _ Hpub).
  apply bind_Ok_inv in Hht as (c & w1 & Hc & Hht). rewrite (bind_Ok _ _ _ _ _ Hc).
  apply bind_Ok_inv in Hht as (commit & w2 & Hcommit & Hht).
  rewrite (bind_Ok _ _ _ _ _ Hcommit).
  apply bind_Ok_inv in Hht as (t & w3 & Ht & Hht). rewrite Ht.
  by injection Hht as _ -> ->.
Qed.

(** Applying no change to a stored tree writes nothing. *)
Lemma update_tree_nil r t tb :
  wf_store r → stored r t → obj t = Tree tb →
  update_tree (Some t) [] r = Ok (oid t) r.
Proof.
  intros Hwf Ht Hobj. unfold update_tree.
  assert (TreeBuilder (Some t) r = Ok tb r) as Htb.
  { destruct t as [i o]. simpl in *. by subst. }
  rewrite (bind_Ok _ _ _ _ _ Htb). simpl for_items. rewrite bind_ret_l.
  unfold stored in Ht. rewrite Hobj in Ht. pose proof (Hwf _ _ Ht) as Hhash.
  unfold tb_write. rewrite <- Hhash. apply odb_write_present. by rewrite Hhash.
Qed.

Lemma published_apply w :
  published w →
  apply (tree_modifier (self w)) (repo w) = Ok (working_tree (self w)) (repo w).
Proof.
  intros (c & cd & tb & _ & _ & _ & Hwt & Hobj & -> & Hwf).
  unfold apply, simplify. simpl. rewrite bind_assoc, bind_ret_l. simpl.
  rewrite bind_ret_l.
  assert (stored (repo w) (working_tree (self w))) as Hst
    by (unfold stored; by rewrite Hobj).
  rewrite (bind_Ok _ _ _ _ _ (update_tree_nil _ _ _ Hwf Hst Hobj)).
  rewrite (repo_getitem_stored _ _ _ Hwt).
  destruct (working_tree (self w)) as [i o]. simpl in *. by subst.
Qed.

(** For a published session [commit] is the identity. *)
Lemma published_commit w : published w → commit w = Ok tt w.
Proof.
  intros Hpub. rewrite commit_unfold.
  rewrite (bind_Ok _ _ _ _ _ (published_get_last_tree _ Hpub)).
  pose proof Hpub as (c & cd & tb & _ & _ & _ & _ & _ & Htm & _).
  rewrite bool_decide_eq_false_2 by (rewrite Htm; simpl; tauto).
  rewrite (bind_Ok _ _ _ _ _ (liftR_Ok_same _ _ _ (published_apply _ Hpub))).
  rewrite bind_modify, (set_self_id _ w) by apply set_working_tree_id.
  rewrite bind_modify, (set_self_id _ w)
    by (apply set_tree_modifier_id; by rewrite Htm).
  rewrite bind_get, (published_head _ Hpub).
  destruct (published_head_tree w Hpub) as [commit0 Hht].
  apply bind_Ok_inv in Hht as (c' & w1 & Hc & Hht). rewrite (bind_Ok _ _ _ _ _ Hc).
  apply bind_Ok_inv in Hht as (commit & w2 & Hcommit & Hht).
  rewrite (bind_Ok _ _ _ _ _ Hcommit).
  apply bind_Ok_inv in Hht as (t & w3 & Ht & Hht). rewrite (bind_Ok _ _ _ _ _ Ht).
  injection Hht as _ -> ->. by rewrite bool_decide_eq_true_2.
Qed.

(** *** What a successful commit leaves *)

Lemma liftR_readonly {A} (m : M Repository A) w a w' :
  always eq other m → liftR m w = Ok a w' → w' = w.
Proof.
  intros Hm Hl. apply lift_rel_eq. revert Hl. apply (always_Ok _ other).
  by apply always_liftR.
Qed.

Section Published.
Hypothesis hash_inj : Inj (=) (=) hash_object.

Lemma update_tree_result r tree todo i r' :
  wf_store r → update_tree tree todo r = Ok i r' →
  wf_store r' ∧ extends r r' ∧ ∃ tb, objects r' !! i = Some (Tree tb).
Proof.
  intros Hwf Hu. pose proof (always_Ok _ _ _ _ _ _ (always_update_tree _ _) Hu)
    as [Hext Hwf'].
  split; [auto|]. split; [done|]. unfold update_tree in Hu.
  apply bind_Ok_inv in Hu as (tb0 & r0 & [-> _]%TreeBuilder_Ok & Hu).
  apply bind_Ok_inv in Hu as (tb1 & r1 & Hitems & Hu).
  assert (wf_store r1) as Hwf1.
  { refine (proj2 (always_Ok grows other _ _ _ _ _ Hitems) Hwf).
    apply always_for_items, Forall_forall. intros [k v] _ tb.
    apply always_update_tree_item. }
  destruct (tb_write_Ok hash_inj _ _ _ _ Hwf1 Hu) as (_ & _ & _ & Hi). eauto.
Qed.

Lemma apply_result tm r nt r' :
  wf_store r → apply tm r = Ok nt r' →
  wf_store r' ∧ extends r r' ∧ stored r' nt ∧ ∃ tb, obj nt = Tree tb.
Proof.
  intros Hwf Ha. pose proof (always_Ok _ _ _ _ _ _ (always_apply _) Ha)
    as [Hext Hwf'].
  split; [auto|]. split; [done|]. unfold apply in Ha.
  apply bind_Ok_inv in Ha as (todo & r0 & Hs & Ha).
  apply bind_Ok_inv in Ha as (i & r1 & Hu & Ha).
  pose proof (proj2 (always_Ok _ _ _ _ _ _ (always_simplify _) Hs) Hwf) as Hwf0.
  destruct (update_tree_result _ _ _ _ _ Hwf0 Hu) as (_ & _ & tb & Hi).
  apply repo_getitem_Ok in Ha as (-> & Hoid & Hst).
  split; [done|]. exists tb. unfold stored in Hst. rewrite Hoid, Hi in Hst.
  by injection Hst.
Qed.




End Published.

End Handler.

(** ** [full_split] on well-formed paths *)

Module SplitSpec.
Import PyStr Path PathFacts.

Lemma concat_snoc s ls t :
  ls ≠ [] → String.concat s (ls ++ [t]) = String.concat s ls ++ s ++ t.
Proof.
  induction ls as [|x [|y l] IH]; [done|done|]. intros _.
  change (String.concat s ((x :: y :: l) ++ [t]))
    with (x ++ s ++ String.concat s ((y :: l) ++ [t])).
  rewrite IH by done.
  change (String.concat s (x :: y :: l)) with (x ++ s ++ String.concat s (y :: l)).
  by rewrite !app_assoc.
Qed.

(** Joining segments with [os.path.join] puts one slash between them. *)
Lemma concat_path_of segs :
  Forall (λ s, segment s = true) segs → String.concat "/" segs = path_of segs.
Proof.
  induction segs as [|t ps IH] using rev_ind; [done|].
  intros [Hps Ht%Forall_inv]%Forall_app.
  destruct (decide (ps = [])) as [->|Hne]; [done|].
  apply andb_true_iff in Ht as [_ Ht%negb_true_iff].
  rewrite concat_snoc, path_of_snoc, IH by (done || by apply path_of_clean).
  done.
Qed.

Lemma segments_valid segs :
  segs ≠ [] → Forall (λ s, segment s = true) segs → valid_parts segs = true.
Proof.
  induction segs as [|t ps _] using rev_ind; [done|].
  intros _ [Hps Ht%Forall_inv]%Forall_app.
  apply valid_parts_snoc; [done|].
  by apply andb_true_iff in Ht as [_ Ht%negb_true_iff].
Qed.

End SplitSpec.

(** C9, as amended.  [full_split] raises nothing: on the empty path it
    returns the one part [""].  On every path that does not start with a
    slash it returns, the list it returns is not empty, and for a path
    written as non-empty slash-free segments with one slash between them it
    is the list of these segments, in order. *)
Theorem full_split_segments (p : string) :
  PyStr.startswith Path.sep p = false →
  Path.full_split "" = Some [""] ∧
  ∃ parts, Path.full_split p = Some parts ∧ parts ≠ [] ∧
    ∀ segs, segs ≠ [] → Forall (λ s, Path.segment s = true) segs →
            p = String.concat "/" segs → parts = segs.
Proof.
  intros Hrel. split; [done|].
  destruct (PathFacts.full_split_total p Hrel) as (parts & Hp & Hv & _).
  exists parts. split; [done|]. split; [by destruct parts|].
  intros segs Hne Hsegs ->.
  rewrite (SplitSpec.concat_path_of _ Hsegs) in Hp.
  rewrite (PathFacts.full_split_path_of _ (SplitSpec.segments_valid _ Hne Hsegs)) in Hp.
  by injection Hp.
Qed.

(** ** A move during [simplify] *)

Section Move.
Context `{GitHash}.

Lemma dict_get_set_eq {V} k (v : V) d : dict_get k (dict_set k v d) = Some v.
Proof.
  induction d as [|[k' v'] d IH]; simpl; [by rewrite String.eqb_refl|].
  destruct (String.eqb k' k) eqn:Hk; simpl; by rewrite Hk.
Qed.

Lemma dict_get_set_ne {V} k k' (v : V) d :
  k ≠ k' → dict_get k' (dict_set k v d) = dict_get k' d.
Proof.
  intros Hne. induction d as [|[k0 v0] d IH]; simpl.
  - by apply String.eqb_neq in Hne as ->.
  - destruct (String.eqb k0 k) eqn:Hk; simpl; [|by rewrite IH].
    apply String.eqb_eq in Hk as ->. by apply String.eqb_neq in Hne as ->.
Qed.



End Move.

(** ** The collision-free hash *)

Lemma skip_inj (c e1 e2 : positive) :
  (if (e1 <? c)%positive then e1 else Pos.succ e1) =
  (if (e2 <? c)%positive then e2 else Pos.succ e2) → e1 = e2.
Proof.
  destruct (Pos.ltb_spec e1 c), (Pos.ltb_spec e2 c); lia.
Qed.

Lemma skip_ne (c e : positive) :
  (if (e <? c)%positive then e else Pos.succ e) ≠ c.
Proof. destruct (Pos.ltb_spec e c); lia. Qed.

Lemma ideal_hash_inj : Inj (=) (=) ideal_hash.
Proof.
  intros o1 o2. unfold ideal_hash. generalize empty_tree_id. intros c.
  destruct (decide (o1 = Tree ∅)) as [->|H1], (decide (o2 = Tree ∅)) as [->|H2];
    [done|..]; cbv zeta; intros Heq.
  - symmetry in Heq. by apply skip_ne in Heq.
  - by apply skip_ne in Heq.
  - apply skip_inj in Heq. by apply (encode_inj o1 o2).
Qed.


Lemma ideal_inj : Inj (=) (=) (@hash_object ideal).
Proof. exact ideal_hash_inj. Qed.


Lemma run_Ok {S A} (m : M S A) s d :
  is_ok (m s) = true → m s = Ok (Example.run m s d).1 (Example.run m s d).2.
Proof. unfold Example.run. by destruct (m s). Qed.

Lemma state_of_Ok {S} (m : M S unit) s :
  is_ok (m s) = true → m s = Ok tt (state_of (m s) s).
Proof. by destruct (m s) as [[] ?| |]. Qed.


Section Readings.
Context `{GitHash}.

Lemma build_Ok m r :
  is_ok ((let* i := m in repo_getitem i) r) = true →
  m r = Ok (oid (Example.build m r).1) (Example.build m r).2 ∧
  repo_getitem (oid (Example.build m r).1) (Example.build m r).2
    = Ok (Example.build m r).1 (Example.build m r).2.
Proof.
  unfold Example.build.
  destruct ((let* i := m in repo_getitem i) r) as [t r'| |] eqn:Hm; [|done|done].
  intros _. apply bind_Ok_inv in Hm as (i & r1 & Hi & Hget).
  pose proof Hget as (-> & <- & _)%repo_getitem_Ok. by split.
Qed.

Lemma build_stored m r :
  is_ok ((let* i := m in repo_getitem i) r) = true →
  stored (Example.build m r).2 (Example.build m r).1.
Proof. intros [_ (_ & _ & ?)%repo_getitem_Ok]%build_Ok. done. Qed.

Lemma get_tree_entry_value t p r v :
  value_of (get_tree_entry t p r) = Some v → get_tree_entry t p r = Ok v r.
Proof.
  destruct (get_tree_entry t p r) as [v' r'| |] eqn:Hg; [|done|done].
  intros [= ->]. f_equal. symmetry.
  by apply (always_Ok eq other _ _ _ _ (always_get_tree_entry eq other _ _) Hg).
Qed.

Lemma get_tree_entry_raised t p r e :
  raised (get_tree_entry t p r) = Some e → get_tree_entry t p r = Raise e r.
Proof.
  destruct (get_tree_entry t p r) as [|e' r'|] eqn:Hg; [done| |done].
  intros [= ->]. f_equal. symmetry.
  by apply (always_Raise eq other _ _ _ _ (always_get_tree_entry eq other _ _) Hg).
Qed.

End Readings.


(** Closes an equation between closed terms by evaluating both sides. *)
Ltac vm_refl :=
  lazymatch goal with |- _ = ?r => vm_cast_no_check (@eq_refl _ r) end.

Module ExampleFacts.
Import Example.
#[local] Existing Instance ideal.

Lemma wf_store_abc : wf_store abc.2.
Proof.
  apply (bool_decide_unpack (map_Forall (λ i o, hash_object o = i) (objects abc.2))).
  vm_compute. exact I.
Qed.


Lemma stored_abc : stored abc.2 abc.1.
Proof.
  refine (build_stored (insert_into_tree None "a/b/c.txt" blobX GIT_FILEMODE_BLOB)
                       repo0 _).
  vm_refl.
Qed.

Lemma wf_store_empty : wf_store empty.2.
Proof.
  apply (bool_decide_unpack (map_Forall (λ i o, hash_object o = i) (objects empty.2))).
  vm_compute. exact I.
Qed.

Lemma wf_store_staged : wf_store (repo staged).
Proof.
  apply (bool_decide_unpack
           (map_Forall (λ i o, hash_object o = i) (objects (repo staged)))).
  vm_compute. exact I.
Qed.

End ExampleFacts.

Import Example.

Section Evaluations.
#[local] Existing Instance ideal.

(** C1, on the code.  The base tree holds the one file a/b/c.txt and the
    batch removes it.  [apply] returns a tree that is not the empty tree:
    it still has the directory a, and a/b resolves to a Tree-mode entry
    whose id is the id of the empty tree.  [update_tree] stores the id of
    every rebuilt sub-tree and never compares it with [empty_tree_id], as
    [remove_file_from_tree] does. *)
Theorem apply_keeps_emptied_directory :
  ∃ T r,
    apply (mkTreeModifier abc.1 [OpRemove "a/b/c.txt"]) abc.2 = Ok T r ∧
    oid T ≠ empty_tree_id ∧
    get_tree_entry (Some T) "a/b" r
      = Ok (Some (mkEntry "b" empty_tree_id GIT_FILEMODE_TREE)) r.
Proof.
  exists abc_applied.1, abc_applied.2. split.
  { refine (run_Ok (apply (mkTreeModifier abc.1 [OpRemove "a/b/c.txt"]))
                   abc.2 abc.1 _). vm_refl. }
  split.
  - refine (proj1 (Pos.eqb_neq _ _) _). vm_refl.
  - refine (get_tree_entry_value _ _ _ _ _). vm_refl.
Qed.


(** C8, on the code.  In the tree whose entry a is a blob, looking up a/b
    raises TypeError: the first segment is found, the object under its id
    is fetched whatever its type, and the recursive call asks a Blob
    whether it contains b. *)
Theorem get_tree_entry_through_blob_raises :
  get_tree_entry (Some blob_a.1) "a/b" blob_a.2 = Raise TypeError blob_a.2.
Proof. refine (get_tree_entry_raised _ _ _ _ _). vm_refl. Qed.


(** C9 as stated fails: on the empty path [full_split] returns. *)
Lemma full_split_empty_path_returns : @full_split unit "" tt = Ok [""] tt.
Proof. reflexivity. Qed.


End Evaluations.

Import Example ExampleFacts.

(** ** The theorems at work *)

Section Witnesses.
#[local] Existing Instance ideal.

Lemma abc_remove :
  remove_file_from_tree (Some abc.1) "a/b/c.txt" abc.2
    = Ok abc_removed.1 abc_removed.2.
Proof.
  refine (run_Ok (remove_file_from_tree (Some abc.1) "a/b/c.txt") abc.2 1%positive _).
  vm_refl.
Qed.


Lemma abc_absent :
  get_tree_entry (Some abc.1) "a/d/e.txt" abc.2 = Ok None abc.2.
Proof. refine (get_tree_entry_value _ _ _ _ _). vm_refl. Qed.




Lemma stale_head_tree : get_last_tree stale = Ok stale_head.1 stale_head.2.
Proof. refine (run_Ok get_last_tree stale (working_tree (self stale)) _). vm_refl. Qed.

Lemma stale_differs :
  oid (tm_tree (tree_modifier (self stale))) ≠ oid stale_head.1.
Proof. refine (proj1 (Pos.eqb_neq _ _) _). vm_refl. Qed.

Lemma stale_born : head_is_unborn (repo stale) = false.
Proof. vm_refl. Qed.

(** [commit_concurrent_modification] on the session that staged its write
    before another session committed: its [commit] raises and leaves the
    state as it found it. *)
Lemma commit_concurrent_modification_witness :
  ∃ w', commit stale = Raise ConcurrentModification w' ∧ w' = stale.
Proof.
  destruct (commit_concurrent_modification stale stale_head.1 stale_head.2
              stale_head_tree) as [[_ Hraise] Hframe].
  destruct (Hraise stale_differs) as [w' Hw'].
  exists w'. split; [exact Hw'|].
  destruct (Hframe w' Hw') as (_ & _ & _ & _ & Hborn). exact (Hborn stale_born).
Defined.

Lemma staged_commit : commit staged = Ok tt committed.
Proof. refine (state_of_Ok commit staged _). vm_refl. Qed.

Lemma staged_head : HEAD (repo staged) = "refs/heads/master".
Proof. vm_refl. Qed.


Lemma committed_entry :
  get_tree_entry (Some (working_tree (self committed))) "a/b/c.txt" (repo committed)
    = Ok (Some (mkEntry "c.txt" blobX GIT_FILEMODE_BLOB)) (repo committed).
Proof. refine (get_tree_entry_value _ _ _ _ _). vm_refl. Qed.

(** [write_file_unchanged_is_noop] on the committed session, for the
    content it committed. *)
Lemma write_file_unchanged_is_noop_witness :
  write_file "a/b/c.txt" "x" committed = Ok tt committed.
Proof.
  exact (write_file_unchanged_is_noop committed "a/b/c.txt" "x"
           (mkEntry "c.txt" blobX GIT_FILEMODE_BLOB) (repo committed)
           committed_entry eq_refl).
Defined.

(** [full_split_segments] on a/b/c.txt. *)
Lemma full_split_segments_witness :
  Path.full_split "" = Some [""] ∧
  ∃ parts, Path.full_split "a/b/c.txt" = Some parts ∧ parts ≠ [] ∧
    ∀ segs, segs ≠ [] → Forall (λ s, Path.segment s = true) segs →
            "a/b/c.txt" = String.concat "/" segs → parts = segs.
Proof. apply (full_split_segments "a/b/c.txt"). reflexivity. Defined.


End Witnesses.

(** ** More on [full_split] *)

(** X1.  On a path that starts with a slash the loop of [full_split] never
    ends: whatever the fuel, it is used up, because [os.path.split] leaves
    a head of slashes as it is. *)
Theorem full_split_absolute_never_returns (p : string) :
  PyStr.startswith Path.sep p = true →
  Path.full_split p = None ∧
  ∀ fuel head tail, Path.split p = (head, tail) →
                    Path.full_split_loop fuel head [tail] = None.
Proof.
  intros Habs. split; [by apply PathFacts.full_split_absolute|].
  intros fuel head tail Hsplit. apply PathFacts.full_split_loop_absolute.
  pose proof (PathFacts.split_absolute p Habs) as Hhead. by rewrite Hsplit in Hhead.
Qed.

Lemma full_split_absolute_never_returns_witness :
  Path.full_split "/etc/passwd" = None ∧
  ∀ fuel head tail, Path.split "/etc/passwd" = (head, tail) →
                    Path.full_split_loop fuel head [tail] = None.
Proof. apply (full_split_absolute_never_returns "/etc/passwd"). reflexivity. Defined.

(** X2.  On a path that does not start with a slash [full_split] returns,
    within the fuel its definition gives it; no part it returns holds a
    slash, and every part but the last is non-empty (repeated slashes are
    dropped, a trailing slash leaves an empty last part). *)
Theorem full_split_relative_parts (p : string) :
  PyStr.startswith Path.sep p = false →
  ∃ parts, Path.full_split p = Some parts ∧ Path.valid_parts parts = true ∧
           (length parts ≤ S (String.length p))%nat.
Proof. apply PathFacts.full_split_total. Qed.

Lemma full_split_relative_parts_witness :
  ∃ parts, Path.full_split "a//b/" = Some parts ∧ Path.valid_parts parts = true ∧
           (length parts ≤ S (String.length "a//b/"))%nat.
Proof. apply (full_split_relative_parts "a//b/"). reflexivity. Defined.

(** X3.  Joining parts with [os.path.join] and splitting the result gives the
    parts back.  This is what the recursions of the tree editor rely on
    when they join [parts[1:]] and split that again one level down. *)
Theorem full_split_join_roundtrip (parts : list string) :
  Path.valid_parts parts = true →
  Path.full_split (Path.path_of parts) = Some parts.
Proof. apply PathFacts.full_split_path_of. Qed.

Lemma full_split_join_roundtrip_witness :
  Path.full_split (Path.path_of ["a"; "b"; "c.txt"]) = Some ["a"; "b"; "c.txt"].
Proof. apply (full_split_join_roundtrip ["a"; "b"; "c.txt"]). reflexivity. Defined.

Import PathFacts.

#[local] Arguments get_tree_entry_parts : simpl never.
#[local] Arguments insert_parts : simpl never.
#[local] Arguments remove_parts : simpl never.

(** ** Which computations come to an end *)

Lemma bind_Diverge_inv {S A B} (m : M S A) (k : A → M S B) s :
  bind m k s = Diverge → m s = Diverge ∨ ∃ a s', m s = Ok a s' ∧ k a s' = Diverge.
Proof. unfold bind. destruct (m s); [eauto|done|by left]. Qed.

Section Halts.
Context {S : Type}.

Lemma halts_ret {A} (a : A) : halts (S:=S) (ret a).
Proof. by intros s. Qed.

Lemma halts_raise {A} e : halts (S:=S) (raise (A:=A) e).
Proof. by intros s. Qed.

Lemma halts_bind {A B} (m : M S A) (k : A → M S B) :
  halts m → (∀ a, halts (k a)) → halts (bind m k).
Proof.
  intros Hm Hk s [Hd|(a & s' & _ & Hd)]%bind_Diverge_inv; [by apply (Hm s)|].
  by apply (Hk a s').
Qed.

Lemma halts_assert b : halts (S:=S) (assert b).
Proof. destruct b; [apply halts_ret|apply halts_raise]. Qed.

End Halts.

Ltac halts_step :=
  lazymatch goal with
  | |- halts (bind _ _) => apply halts_bind; [|intros ?]
  | |- halts (ret _) => apply halts_ret
  | |- halts (raise _) => apply halts_raise
  | |- halts (assert _) => apply halts_assert
  | |- halts (match ?x with _ => _ end) => destruct x
  | |- halts (if ?x then _ else _) => destruct x
  end.

Section HaltsRepo.
Context `{GitHash}.

Lemma halts_repo_getitem i : halts (repo_getitem i).
Proof. intros r. unfold repo_getitem. by destruct (objects r !! i). Qed.

Lemma halts_odb_write o : halts (odb_write o).
Proof. intros r. unfold odb_write. by destruct (objects r !! hash_object o). Qed.

Lemma halts_tree_contains tree name : halts (tree_contains tree name).
Proof. destruct tree as [[i [d|es|c]]|]; simpl; halts_step. Qed.

Lemma halts_tree_getitem tree name : halts (tree_getitem tree name).
Proof. destruct tree as [[i [d|es|c]]|]; simpl; repeat halts_step. Qed.

Lemma halts_tree_id tree : halts (tree_id tree).
Proof. destruct tree; simpl; halts_step. Qed.

Lemma halts_TreeBuilder tree : halts (TreeBuilder tree).
Proof. destruct tree as [[i [d|es|c]]|]; simpl; halts_step. Qed.

Lemma halts_tb_insert tb name i m : halts (tb_insert tb name i m).
Proof. unfold tb_insert. halts_step; halts_step. Qed.

Lemma halts_tb_remove tb name : halts (tb_remove tb name).
Proof. unfold tb_remove. halts_step; halts_step. Qed.

Lemma halts_remove_and_write tb f : halts (remove_and_write tb f).
Proof.
  unfold remove_and_write. halts_step; [|apply halts_odb_write].
  destruct f as [f|]; [|halts_step].
  destruct (_ && _); [apply halts_tb_remove|halts_step].
Qed.

Lemma get_tree_entry_parts_nil tree : get_tree_entry_parts [] tree = raise IndexError.
Proof. reflexivity. Qed.

Lemma get_tree_entry_parts_single name tree :
  get_tree_entry_parts [name] tree =
    (let* present := tree_contains tree name in
     if present then let* e := tree_getitem tree name in ret (Some e)
     else ret None).
Proof. reflexivity. Qed.

Lemma halts_get_tree_entry_parts parts : ∀ tree, halts (get_tree_entry_parts parts tree).
Proof.
  induction parts as [|d rest IH]; intros tree.
  - rewrite get_tree_entry_parts_nil. halts_step.
  - destruct rest as [|d' rest].
    + rewrite get_tree_entry_parts_single.
      halts_step; [apply halts_tree_contains|].
      halts_step; [|halts_step]. halts_step; [apply halts_tree_getitem|halts_step].
    + rewrite get_tree_entry_parts_cons.
      halts_step; [apply halts_tree_contains|].
      halts_step; [halts_step|].
      halts_step; [apply halts_tree_getitem|].
      halts_step; [apply halts_repo_getitem|apply IH].
Qed.

Lemma insert_parts_nil tree c m :
  insert_parts [] tree c m =
    (let* '(filename, oid, mode) := raise AssertionError in
     let* tree_builder := TreeBuilder tree in
     let* tree_builder := tb_insert tree_builder filename oid mode in
     tb_write tree_builder).
Proof. reflexivity. Qed.

Lemma halts_insert_parts parts : ∀ tree c m, halts (insert_parts parts tree c m).
Proof.
  induction parts as [|d rest IH]; intros tree c m.
  - rewrite insert_parts_nil. by intros r.
  - destruct rest as [|d' rest].
    + rewrite insert_parts_single.
      halts_step; [apply halts_TreeBuilder|].
      halts_step; [apply halts_tb_insert|apply halts_odb_write].
    + rewrite insert_parts_cons. halts_step.
      * halts_step; [|halts_step; [apply IH|halts_step]].
        destruct tree; [|halts_step].
        halts_step; [apply halts_tree_contains|].
        halts_step; [|halts_step].
        halts_step; [apply halts_tree_getitem|].
        halts_step; [apply halts_repo_getitem|halts_step].
      * destruct a as [[f i] md].
        halts_step; [apply halts_TreeBuilder|].
        halts_step; [apply halts_tb_insert|apply halts_odb_write].
Qed.

Lemma remove_parts_nil tree :
  remove_parts [] tree = (let* tree_builder := TreeBuilder tree in raise AssertionError).
Proof. reflexivity. Qed.

Lemma halts_remove_parts parts : ∀ tree, halts (remove_parts parts tree).
Proof.
  induction parts as [|d rest IH]; intros tree.
  - rewrite remove_parts_nil. halts_step; [apply halts_TreeBuilder|halts_step].
  - destruct rest as [|d' rest].
    + rewrite remove_parts_single.
      halts_step; [apply halts_TreeBuilder|apply halts_remove_and_write].
    + rewrite remove_parts_cons. halts_step; [apply halts_TreeBuilder|].
      destruct (tb_get a d); [|apply halts_tree_id].
      halts_step; [apply halts_repo_getitem|].
      halts_step; [apply IH|].
      case_bool_decide; [apply halts_remove_and_write|].
      halts_step; [apply halts_tb_insert|apply halts_remove_and_write].
Qed.

Lemma relative_full_split p :
  PyStr.startswith Path.sep p = false → ∃ parts, Path.full_split p = Some parts.
Proof. intros (parts & Hp & _)%full_split_total. eauto. Qed.

Lemma absolute_or_relative p :
  Path.full_split p = None ↔ PyStr.startswith Path.sep p = true.
Proof.
  split.
  - intros Hp. destruct (PyStr.startswith Path.sep p) eqn:E; [done|].
    destruct (relative_full_split _ E) as [parts Hparts]. congruence.
  - apply full_split_absolute.
Qed.

End HaltsRepo.

(** ** The tree editor and the paths it is given *)

Section Termination.
Context `{GitHash}.

Lemma editor_diverges tree p c m r :
  (get_tree_entry tree p r = Diverge ↔ PyStr.startswith Path.sep p = true) ∧
  (insert_into_tree tree p c m r = Diverge ↔ PyStr.startswith Path.sep p = true) ∧
  (remove_file_from_tree tree p r = Diverge ↔
     PyStr.startswith Path.sep p = true ∧ is_ok (TreeBuilder tree r) = true).
Proof.
  rewrite <- !absolute_or_relative.
  destruct (Path.full_split p) as [parts|] eqn:Hp.
  - rewrite (get_tree_entry_eq _ _ _ _ Hp), (insert_into_tree_eq _ _ _ _ _ _ Hp),
      (remove_file_from_tree_eq _ _ _ _ Hp).
    split_and!; (split; [intros Hd; exfalso|by intros; destruct_and?]).
    + by apply halts_get_tree_entry_parts in Hd.
    + by apply halts_insert_parts in Hd.
    + by apply halts_remove_parts in Hd.
  - unfold get_tree_entry, insert_into_tree, remove_file_from_tree. simpl.
    unfold bind at 1. unfold full_split at 1. rewrite Hp.
    split_and!; [done| |].
    + unfold bind at 1. unfold full_split at 1. by rewrite Hp.
    + unfold bind at 1.
      destruct (TreeBuilder tree r) as [tb r0|e r0|] eqn:Htb; simpl.
      * unfold bind at 1. unfold full_split at 1. by rewrite Hp.
      * split; [done|by intros [_ ?]].
      * by apply halts_TreeBuilder in Htb.
Qed.

(** X4.  The three recursions of the tree editor come to an end on every path
    that does not start with a slash, whatever the tree and the
    repository; on a path that starts with a slash [get_tree_entry] and
    [insert_into_tree] never return, and [remove_file_from_tree] never
    returns once [repo.TreeBuilder(tree)] has accepted the tree. *)
Theorem tree_editor_returns_iff_relative tree p c m r :
  (get_tree_entry tree p r = Diverge ↔ PyStr.startswith Path.sep p = true) ∧
  (insert_into_tree tree p c m r = Diverge ↔ PyStr.startswith Path.sep p = true) ∧
  (remove_file_from_tree tree p r = Diverge ↔
     PyStr.startswith Path.sep p = true ∧ is_ok (TreeBuilder tree r) = true).
Proof. apply editor_diverges. Qed.

(** X5.  [get_tree_entry] reads and does nothing else: whether it returns or
    raises, the repository is the one it started from, and what it raises
    is an exception of Python or pygit2 (a TypeError from a [None] or a
    blob used as a tree, a KeyError from an id that is not stored). *)
Theorem get_tree_entry_reads_only tree p :
  always eq builtin (get_tree_entry tree p).
Proof. apply always_get_tree_entry; apply _. Qed.

(** X6.  [insert_into_tree], [remove_file_from_tree], [move_file_in_tree] and
    [TreeModifier.apply] only add objects: whether they return or raise,
    every object that was stored is still stored under its id, references,
    HEAD, configuration and index are as they were, and a content-addressed
    store is still content-addressed. *)
Theorem tree_editor_only_adds_objects tree p c m q self :
  always grows other (insert_into_tree tree p c m) ∧
  always grows other (remove_file_from_tree tree p) ∧
  always grows other (move_file_in_tree tree p q) ∧
  always grows other (apply self).
Proof.
  split_and!.
  - apply always_insert_into_tree_fuel.
  - apply always_remove_file_from_tree_fuel.
  - unfold move_file_in_tree.
    always_bind as e; [apply always_get_tree_entry; apply _|].
    destruct e as [e|]; [|by apply always_raise; [apply _|]].
    always_bind as i; [apply always_remove_file_from_tree_fuel|].
    always_bind as t; [apply always_repo_getitem; apply _|].
    apply always_insert_into_tree_fuel.
  - apply always_apply.
Qed.

End Termination.

Import PathFacts.

#[local] Arguments get_tree_entry_parts : simpl never.
#[local] Arguments insert_parts : simpl never.
#[local] Arguments remove_parts : simpl never.

(** ** Reading a tree back *)

Section ReadBack.
Context `{GitHash}.

Lemma tree_contains_Tree i es name r :
  tree_contains (Some (mkPy i (Tree es))) name r
  = Ok (bool_decide (is_Some (es !! name))) r.
Proof. reflexivity. Qed.

Lemma lookup_absent i es d rest r :
  es !! d = None →
  get_tree_entry_parts (d :: rest) (Some (mkPy i (Tree es))) r = Ok None r.
Proof.
  intros Hd. destruct rest as [|d' rest].
  - rewrite get_tree_entry_parts_single.
    rewrite (bind_Ok _ _ _ _ _ (tree_contains_Tree _ _ _ _)).
    rewrite bool_decide_eq_false_2; [done|]. rewrite Hd. by intros [? ?].
  - rewrite get_tree_entry_parts_cons.
    rewrite (bind_Ok _ _ _ _ _ (tree_contains_Tree _ _ _ _)).
    rewrite bool_decide_eq_false_2; [done|]. rewrite Hd. by intros [? ?].
Qed.

Lemma lookup_leaf i es name j m r :
  es !! name = Some (j, m) →
  get_tree_entry_parts [name] (Some (mkPy i (Tree es))) r
  = Ok (Some (mkEntry name j m)) r.
Proof.
  intros Hd. rewrite get_tree_entry_parts_single.
  rewrite (bind_Ok _ _ _ _ _ (tree_contains_Tree _ _ _ _)).
  rewrite bool_decide_eq_true_2 by eauto. unfold bind. simpl. by rewrite Hd.
Qed.

Lemma lookup_below i es d d' rest j m sub r :
  es !! d = Some (j, m) → objects r !! j = Some sub →
  get_tree_entry_parts (d :: d' :: rest) (Some (mkPy i (Tree es))) r
  = get_tree_entry_parts (d' :: rest) (Some (mkPy j sub)) r.
Proof.
  intros Hd Hj. rewrite get_tree_entry_parts_cons.
  rewrite (bind_Ok _ _ _ _ _ (tree_contains_Tree _ _ _ _)).
  rewrite bool_decide_eq_true_2 by eauto. simpl negb. cbv iota.
  unfold bind at 1. simpl. rewrite Hd. simpl.
  by rewrite (bind_Ok _ _ _ _ _ (repo_getitem_stored _ _ _ Hj)).
Qed.

(** What a tree resolves a path to does not change when objects are added
    to the repository. *)
Lemma lookup_stable parts : ∀ tree r v r',
  objects r ⊆ objects r' →
  get_tree_entry_parts parts tree r = Ok v r →
  get_tree_entry_parts parts tree r' = Ok v r'.
Proof.
  induction parts as [|d rest IH]; intros tree r v r' Hext Hget; [done|].
  destruct tree as [[i [b|es|c]]|]; try (by destruct rest).
  destruct (es !! d) as [[j m]|] eqn:Hd.
  - destruct rest as [|d' rest].
    + rewrite (lookup_leaf _ _ _ _ _ _ Hd) in Hget. injection Hget as <-.
      by apply lookup_leaf.
    + destruct (objects r !! j) as [sub|] eqn:Hj.
      * rewrite (lookup_below _ _ _ _ _ _ _ _ _ Hd Hj) in Hget.
        rewrite (lookup_below _ _ _ _ _ _ _ _ _ Hd (lookup_weaken _ _ _ _ Hj Hext)).
        by eapply IH.
      * rewrite get_tree_entry_parts_cons in Hget.
        rewrite (bind_Ok _ _ _ _ _ (tree_contains_Tree _ _ _ _)) in Hget.
        rewrite bool_decide_eq_true_2 in Hget by eauto. simpl negb in Hget.
        cbv iota in Hget. unfold bind at 1 in Hget. simpl in Hget.
        rewrite Hd in Hget. simpl in Hget. unfold bind at 1 in Hget.
        unfold repo_getitem in Hget. by rewrite Hj in Hget.
  - rewrite (lookup_absent _ _ _ _ _ Hd) in Hget. injection Hget as <-.
    by apply lookup_absent.
Qed.

Lemma get_tree_entry_returns tree p r v r' :
  get_tree_entry tree p r = Ok v r' →
  r' = r ∧ ∃ parts, Path.full_split p = Some parts.
Proof.
  intros Hget. split.
  - symmetry. apply (always_Ok eq builtin _ _ _ _ (always_get_tree_entry eq builtin tree p) Hget).
  - destruct (Path.full_split p) as [parts|] eqn:Hp; [eauto|].
    apply absolute_or_relative in Hp.
    destruct (editor_diverges tree p 1%positive 0 r) as [[_ Hd] _].
    by rewrite (Hd Hp) in Hget.
Qed.

Lemma lookup_stable_objects tree p r v r0 r' :
  objects r ⊆ objects r' →
  get_tree_entry tree p r = Ok v r0 →
  get_tree_entry tree p r' = Ok v r'.
Proof.
  intros Hext Hget.
  pose proof (get_tree_entry_returns _ _ _ _ _ Hget) as [Heq [parts Hp]]. subst r0.
  rewrite (get_tree_entry_eq _ _ _ _ Hp) in Hget. rewrite (get_tree_entry_eq _ _ _ _ Hp).
  by eapply lookup_stable.
Qed.

Lemma lookup_stable_top tree p r v r0 r' :
  extends r r' →
  get_tree_entry tree p r = Ok v r0 →
  get_tree_entry tree p r' = Ok v r'.
Proof. intros [Hsub _]. by apply lookup_stable_objects. Qed.

(** X7.  A tree is a snapshot: what [get_tree_entry] finds in it stays the same
    however many objects the repository gains afterwards, and whatever
    happens to its references. *)
Theorem get_tree_entry_stable tree p r v r0 r' :
  objects r ⊆ objects r' →
  get_tree_entry tree p r = Ok v r0 →
  get_tree_entry tree p r' = Ok v r'.
Proof. apply lookup_stable_objects. Qed.

End ReadBack.

Section InsertLookup.
Context `{GitHash}.
Hypothesis hash_inj : Inj (=) (=) hash_object.

(** The mode the inserted entry ends up with. *)
Lemma insert_parts_lookup parts : ∀ tree r c m i r1,
  wf_store r →
  insert_parts parts tree c m r = Ok i r1 →
  wf_store r1 ∧ extends r r1 ∧
  ∃ es1 name, objects r1 !! i = Some (Tree es1) ∧ last parts = Some name ∧
    ∀ r2, extends r1 r2 →
      get_tree_entry_parts parts (Some (mkPy i (Tree es1))) r2
      = Ok (Some (mkEntry name c
                    (match parts with [_] => m | _ => GIT_FILEMODE_BLOB end))) r2.
Proof.
  induction parts as [|d rest IH]; intros tree r c m i r1 Hwf Hins.
  { rewrite insert_parts_nil in Hins. done. }
  destruct rest as [|d' rest].
  - rewrite insert_parts_single in Hins.
    apply bind_Ok_inv in Hins as (tb & r0 & [-> _]%TreeBuilder_Ok & Hins).
    apply bind_Ok_inv in Hins as (tb' & r0 & (-> & -> & _)%tb_insert_Ok & Hins).
    apply tb_write_Ok in Hins as (-> & Hext & Hwf1 & Hi); [|done|done].
    split_and!; [done..|]. eexists _, d. split_and!; [done..|].
    intros r2 _. apply lookup_leaf, lookup_insert_eq.
  - rewrite insert_parts_cons in Hins.
    apply bind_Ok_inv in Hins as ([[f j] md] & r0 & Hsub & Hins).
    apply bind_Ok_inv in Hsub as (sub & ra & Hsub & Hrec).
    assert (ra = r) as ->.
    { destruct tree as [t|]; [|by injection Hsub].
      apply bind_Ok_inv in Hsub as (present & rb & Hc & Hsub).
      apply (always_Ok eq builtin _ _ _ _ (always_tree_contains eq builtin _ _)) in Hc
        as <-.
      destruct present; [|by injection Hsub].
      apply bind_Ok_inv in Hsub as (e & rb & He & Hsub).
      apply (always_Ok eq builtin _ _ _ _ (always_tree_getitem eq builtin _ _)) in He
        as <-.
      apply bind_Ok_inv in Hsub as (t' & rb & (-> & _)%repo_getitem_Ok & Hsub).
      by injection Hsub. }
    apply bind_Ok_inv in Hrec as (j' & rb & Hrec & Hret).
    injection Hret as <- <- <- <-.
    apply IH in Hrec as (Hwf0 & Hext0 & es0 & name & Hj & Hlast & Hlook); [|done].
    apply bind_Ok_inv in Hins as (tb & rc & [-> _]%TreeBuilder_Ok & Hins).
    apply bind_Ok_inv in Hins as (tb' & rc & (-> & -> & _)%tb_insert_Ok & Hins).
    apply tb_write_Ok in Hins as (-> & Hext & Hwf1 & Hi); [|done|done].
    split_and!; [done|by etrans|]. eexists _, name. split_and!; [done|done|].
    intros r2 Hext2.
    rewrite (lookup_below _ _ _ _ _ _ _ (Tree es0) _ (lookup_insert_eq _ _ _)).
    + rewrite Hlook by (by etrans). by destruct rest.
    + eapply extends_lookup; [|done]. by etrans.
Qed.

Lemma insert_lookup tree p c m r i r1 :
  wf_store r →
  insert_into_tree tree p c m r = Ok i r1 →
  ∃ T1 parts name,
    repo_getitem i r1 = Ok T1 r1 ∧
    Path.full_split p = Some parts ∧ last parts = Some name ∧
    get_tree_entry (Some T1) p r1
    = Ok (Some (mkEntry name c
                  (match parts with [_] => m | _ => GIT_FILEMODE_BLOB end))) r1.
Proof.
  intros Hwf Hins.
  destruct (Path.full_split p) as [parts|] eqn:Hp.
  - rewrite (insert_into_tree_eq _ _ _ _ _ _ Hp) in Hins.
    apply insert_parts_lookup in Hins as (_ & _ & es1 & name & Hi & Hlast & Hlook);
      [|done].
    exists (mkPy i (Tree es1)), parts, name.
    split_and!; [by apply repo_getitem_stored|done|done|].
    rewrite (get_tree_entry_eq _ _ _ _ Hp). by apply Hlook.
  - apply absolute_or_relative in Hp.
    destruct (editor_diverges tree p c m r) as (_ & [_ Hd] & _).
    by rewrite (Hd Hp) in Hins.
Qed.

(** X8.  After an insert that returns, the path resolves to the inserted id.
    The entry has the mode that was passed only when the path is a single
    name; below a directory it is a Blob entry whatever mode was passed;
    what was at the path before is replaced. *)
Theorem insert_into_tree_then_lookup tree p c m r i r1 :
  wf_store r →
  insert_into_tree tree p c m r = Ok i r1 →
  ∃ T1 parts name,
    repo_getitem i r1 = Ok T1 r1 ∧
    Path.full_split p = Some parts ∧ last parts = Some name ∧
    get_tree_entry (Some T1) p r1
    = Ok (Some (mkEntry name c
                  (match parts with [_] => m | _ => GIT_FILEMODE_BLOB end))) r1.
Proof. apply insert_lookup. Qed.



End InsertLookup.

Import PathFacts.

#[local] Arguments get_tree_entry_parts : simpl never.
#[local] Arguments insert_parts : simpl never.
#[local] Arguments remove_parts : simpl never.

(** ** Removal and move at their edges *)

Section Edges.
Context `{GitHash}.

(** X10.  Removing a path below a directory that the tree does not have: with a
    tree, the tree's own id comes back and nothing is written; with [None]
    for the tree, [tree.id] raises AttributeError. *)
Theorem remove_file_from_tree_missing_directory p d d' rest r :
  Path.full_split p = Some (d :: d' :: rest) →
  remove_file_from_tree None p r = Raise AttributeError r ∧
  ∀ T es, obj T = Tree es → es !! d = None →
          remove_file_from_tree (Some T) p r = Ok (oid T) r.
Proof.
  intros Hp. split.
  - rewrite (remove_file_from_tree_eq _ _ _ _ Hp), remove_parts_cons.
    unfold bind, tb_get. simpl. by rewrite lookup_empty.
  - intros [i o] es Ho Hd. simpl in Ho. subst o.
    rewrite (remove_file_from_tree_eq _ _ _ _ Hp), remove_parts_cons.
    unfold bind, tb_get. simpl. by rewrite Hd.
Qed.

End Edges.

Section Move.
Context `{GitHash}.
Hypothesis hash_inj : Inj (=) (=) hash_object.

(** X11.  [move_file_in_tree]: when the old path resolves to nothing it raises
    ValueError and leaves the repository as it was; when it returns, the
    new path resolves, in the tree it returned, to the id that the old
    path had, with the old entry's mode only when the new path is a single
    name. *)
Theorem move_file_in_tree_result tree old new r :
  wf_store r →
  (get_tree_entry tree old r = Ok None r →
   move_file_in_tree tree old new r
   = Raise (ValueError ("filename not in tree: " ++ old)) r) ∧
  (∀ i r1, move_file_in_tree tree old new r = Ok i r1 →
     ∃ e T1 parts name,
       get_tree_entry tree old r = Ok (Some e) r ∧
       repo_getitem i r1 = Ok T1 r1 ∧
       Path.full_split new = Some parts ∧ last parts = Some name ∧
       get_tree_entry (Some T1) new r1
       = Ok (Some (mkEntry name (te_id e)
                     (match parts with
                      | [_] => te_filemode e
                      | _ => GIT_FILEMODE_BLOB
                      end))) r1).
Proof.
  intros Hwf. split.
  - intros Hget. unfold move_file_in_tree. by rewrite (bind_Ok _ _ _ _ _ Hget).
  - intros i r1 Hmove. unfold move_file_in_tree in Hmove.
    apply bind_Ok_inv in Hmove as (e & r0 & Hget & Hmove).
    pose proof (get_tree_entry_returns _ _ _ _ _ Hget) as [Heq _]. subst r0.
    destruct e as [e|]; [|done].
    apply bind_Ok_inv in Hmove as (j & ra & Hrm & Hmove).
    apply (always_Ok grows other _ _ _ _ (always_remove_file_from_tree_fuel _ _ _))
      in Hrm as [_ Hwfa].
    apply bind_Ok_inv in Hmove as (T & rb & (-> & _)%repo_getitem_Ok & Hins).
    apply (insert_lookup hash_inj) in Hins
      as (T1 & parts & name & ? & ? & ? & ?); [|auto].
    by exists e, T1, parts, name.
Qed.

End Move.

Import PathFacts.

#[local] Arguments get_tree_entry_parts : simpl never.
#[local] Arguments insert_parts : simpl never.
#[local] Arguments remove_parts : simpl never.
#[local] Arguments update_tree : simpl never.

(** ** The batch of a TreeModifier *)

Section Batch.
Context `{GitHash}.

(** *** The first loop of [simplify] *)

Lemma simplify_writes T ops : ∀ todo r,
  forallb (λ op, negb (is_move op)) ops = true →
  ∃ todo', simplify_operations T todo ops r = Ok todo' r ∧
           ∀ f, dict_get f todo' = last_write f ops (dict_get f todo).
Proof.
  induction ops as [|op ops IH]; intros todo r Hops; simpl; [eauto|].
  apply andb_true_iff in Hops as [Hop Hops].
  destruct op as [b g|g|o n]; [| |done].
  - destruct (IH (dict_set g (TId b) todo) r Hops) as (todo' & Hrun & Hget).
    exists todo'. split; [done|]. intros f. rewrite Hget.
    destruct (String.eqb g f) eqn:Hg.
    + apply String.eqb_eq in Hg as ->. by rewrite dict_get_set_eq.
    + apply String.eqb_neq in Hg. by rewrite dict_get_set_ne.
  - destruct (IH (dict_set g TNone todo) r Hops) as (todo' & Hrun & Hget).
    exists todo'. split; [done|]. intros f. rewrite Hget.
    destruct (String.eqb g f) eqn:Hg.
    + apply String.eqb_eq in Hg as ->. by rewrite dict_get_set_eq.
    + apply String.eqb_neq in Hg. by rewrite dict_get_set_ne.
Qed.

(** X13.  Replaying inserts and removes: the first loop of [simplify] returns
    without reading the repository, and for every path the outcome is the
    one of the last operation that names it; a path no operation names
    keeps what it had. *)
Theorem simplify_last_write_wins T ops todo r :
  forallb (λ op, negb (is_move op)) ops = true →
  ∃ todo', simplify_operations T todo ops r = Ok todo' r ∧
           ∀ f, dict_get f todo' = last_write f ops (dict_get f todo).
Proof. apply simplify_writes. Qed.

(** *** The second loop of [simplify] *)

Lemma segment_full_split d : Path.segment d = true → Path.full_split d = Some [d].
Proof.
  intros [_ Hd%negb_true_iff]%andb_true_iff.
  apply (full_split_path_of [d]). simpl. by rewrite Hd.
Qed.

Lemma segments_full_split d f :
  Path.segment d = true → Path.segment f = true →
  Path.full_split (Path.path_of [d; f]) = Some [d; f].
Proof.
  intros Hd [_ Hf%negb_true_iff]%andb_true_iff.
  apply (full_split_path_of [d; f]). simpl. by rewrite Hd, Hf.
Qed.

Lemma segment_ne_child d f :
  Path.segment d = true → Path.segment f = true → d ≠ Path.path_of [d; f].
Proof.
  intros Hd Hf Heq. pose proof (segments_full_split d f Hd Hf) as Hp.
  rewrite <- Heq, (segment_full_split d Hd) in Hp. done.
Qed.

Lemma by_directory_cons p v todo d r parts :
  Path.full_split p = Some parts →
  by_directory ((p, v) :: todo) d r =
    (let* '(directories, filename) := init_last parts in
     let* d := nested_set directories filename v d in
     by_directory todo d) r.
Proof.
  intros Hp. simpl. by rewrite (bind_Ok _ _ _ _ _ (full_split_Ok _ _ r Hp)).
Qed.

Lemma by_directory_file d v todo dir r :
  Path.segment d = true →
  by_directory ((d, v) :: todo) dir r = by_directory todo (dict_set d (Leaf v) dir) r.
Proof. intros Hd. by rewrite (by_directory_cons _ _ _ _ _ _ (segment_full_split d Hd)). Qed.

Lemma by_directory_child d f v todo dir r :
  Path.segment d = true → Path.segment f = true →
  by_directory ((Path.path_of [d; f], v) :: todo) dir r =
    (let* dir := nested_set [d] f v dir in by_directory todo dir) r.
Proof.
  intros Hd Hf. by rewrite (by_directory_cons _ _ _ _ _ _ (segments_full_split d f Hd Hf)).
Qed.

Lemma file_then_child T b1 b2 d f r :
  Path.segment d = true → Path.segment f = true →
  simplify (mkTreeModifier T [OpInsert b1 d; OpInsert b2 (Path.path_of [d; f])]) r
  = Raise AssertionError r ∧
  simplify (mkTreeModifier T [OpInsert b2 (Path.path_of [d; f]); OpInsert b1 d]) r
  = Ok [(d, Leaf (TId b1))] r.
Proof.
  intros Hd Hf. pose proof (segment_ne_child d f Hd Hf) as Hne.
  assert (String.eqb d (Path.path_of [d; f]) = false) as Hdf by by apply String.eqb_neq.
  assert (String.eqb (Path.path_of [d; f]) d = false) as Hfd by by apply String.eqb_neq.
  unfold simplify. cbn [tm_tree operations simplify_operations simplify_operation].
  cbv [bind ret]. cbn [dict_set]. rewrite Hdf, Hfd. split.
  - rewrite by_directory_file, by_directory_child by done.
    cbn [nested_set dict_get dict_set]. by rewrite String.eqb_refl.
  - rewrite by_directory_child by done.
    cbn [nested_set dict_get dict_set]. rewrite bind_assoc, bind_ret_l, bind_ret_l.
    rewrite by_directory_file by done.
    cbn [dict_set by_directory]. by rewrite String.eqb_refl.
Qed.

(** X14.  A path staged both as a file and as a directory.  When the file is
    staged first, [simplify] stops on its assertion; when the file below
    the directory is staged first, [simplify] returns and the later file
    has taken the place of the directory, so the earlier insert is lost
    without a word. *)
Theorem simplify_file_and_directory T b1 b2 d f r :
  Path.segment d = true → Path.segment f = true →
  simplify (mkTreeModifier T [OpInsert b1 d; OpInsert b2 (Path.path_of [d; f])]) r
  = Raise AssertionError r ∧
  simplify (mkTreeModifier T [OpInsert b2 (Path.path_of [d; f]); OpInsert b1 d]) r
  = Ok [(d, Leaf (TId b1))] r.
Proof. apply file_then_child. Qed.

End Batch.

Import PathFacts.

#[local] Arguments get_tree_entry_parts : simpl never.
#[local] Arguments insert_parts : simpl never.
#[local] Arguments remove_parts : simpl never.
#[local] Arguments update_tree : simpl never.

(** ** [update_tree] on the batch of one operation *)

Section OneOperation.
Context `{GitHash}.

Lemma bind_cong {S A B} (m1 m2 : M S A) (k1 k2 : A → M S B) s :
  m1 s = m2 s → (∀ a s', k1 a s' = k2 a s') → bind m1 k1 s = bind m2 k2 s.
Proof. intros Hm Hk. unfold bind. rewrite Hm. destruct (m2 s); auto. Qed.

Lemma update_tree_item_Dict key todo tb :
  update_tree_item key (Dict todo) tb =
    (let* sub_tree :=
       match tb_get tb key with
       | None => ret None
       | Some sub_tree_entry =>
           let* t := repo_getitem (te_id sub_tree_entry) in ret (Some t)
       end in
     let* new_subtree_id := update_tree sub_tree todo in
     tb_insert tb key new_subtree_id GIT_FILEMODE_TREE).
Proof. reflexivity. Qed.

Lemma update_tree_one tree key value r :
  update_tree tree [(key, value)] r =
    (let* tb := TreeBuilder tree in
     let* tb := update_tree_item key value tb in
     tb_write tb) r.
Proof.
  unfold update_tree. apply bind_ext. intros tb r0. cbn [for_items].
  rewrite bind_assoc. apply bind_ext. intros tb' r1. by rewrite bind_ret_l.
Qed.

Lemma init_last_snoc dirs name r :
  init_last (app dirs [name]) r = Ok (dirs, name) r.
Proof. unfold init_last. by rewrite reverse_snoc, reverse_involutive. Qed.

Lemma parts_snoc (parts : list string) :
  parts ≠ [] → ∃ dirs name, parts = app dirs [name].
Proof.
  intros Hne. destruct (decide (parts = [])) as [|_]; [done|].
  induction parts as [|d parts IH] using rev_ind; [done|]. eauto.
Qed.

Lemma nested_set_fresh dirs name v r :
  nested_set dirs name v [] r = Ok (single_file dirs name v) r.
Proof.
  induction dirs as [|d dirs IH]; [done|]. cbn [nested_set dict_get].
  by rewrite (bind_Ok _ _ _ _ _ IH).
Qed.

(** [simplify] on one insert or one remove. *)
Lemma simplify_one T op p v parts r :
  (op = OpInsert match v with TId b => b | _ => 1%positive end p ∧ (∃ b, v = TId b)) ∨
  (op = OpRemove p ∧ v = TNone) →
  Path.full_split p = Some parts →
  ∃ dirs name, parts = app dirs [name] ∧
    simplify (mkTreeModifier T [op]) r = Ok (single_file dirs name v) r.
Proof.
  intros Hop Hp. destruct (full_split_Some _ _ Hp) as (_ & Hv & _).
  destruct (parts_snoc parts) as (dirs & name & ->).
  { by intros ->. }
  exists dirs, name. split; [done|].
  assert (simplify_operations T [] [op] r = Ok [(p, v)] r) as Hops.
  { destruct Hop as [[-> [b ->]]|[-> ->]]; reflexivity. }
  unfold simplify. cbn [tm_tree operations]. rewrite (bind_Ok _ _ _ _ _ Hops).
  rewrite (by_directory_cons _ _ _ _ _ _ Hp).
  rewrite (bind_Ok _ _ _ _ _ (init_last_snoc _ _ _)).
  by rewrite (bind_Ok _ _ _ _ _ (nested_set_fresh _ _ _ _)).
Qed.

Lemma snoc_cons {A} (ds : list A) (x : A) : ∃ y rest, app ds [x] = y :: rest.
Proof. destruct ds; simpl; eauto. Qed.

(** *** One insert *)

Lemma update_single_insert name b dirs : ∀ tree r,
  update_tree tree (single_file dirs name (TId b)) r
  = insert_parts (app dirs [name]) tree b GIT_FILEMODE_BLOB r.
Proof.
  induction dirs as [|d ds IH]; intros tree r.
  - cbn [single_file app]. rewrite update_tree_one, insert_parts_single.
    apply bind_ext. intros tb r0. reflexivity.
  - cbn [single_file]. rewrite update_tree_one.
    change (app (d :: ds) [name]) with (d :: (app ds [name])).
    destruct (snoc_cons ds name) as (d' & rest & Hrest).
    rewrite Hrest, insert_parts_cons, <- Hrest.
    destruct tree as [[i [bl|es|c]]|]; [done| |done|].
    + rewrite (bind_Ok _ _ _ _ _ (eq_refl : TreeBuilder (Some (mkPy i (Tree es))) r = Ok es r)).
      rewrite update_tree_item_Dict, !bind_assoc.
      rewrite (bind_Ok _ _ _ _ _ (tree_contains_Tree _ _ _ _)).
      unfold tb_get. destruct (es !! d) as [[j m]|] eqn:Hd.
      * rewrite bool_decide_eq_true_2 by eauto.
        rewrite !bind_assoc. unfold tree_getitem at 1. rewrite Hd. rewrite bind_ret_l.
        cbn [te_id]. rewrite !bind_assoc. apply bind_ext. intros t r0.
        rewrite !bind_ret_l, ?bind_assoc.
        apply bind_cong; [apply IH|done].
      * rewrite bool_decide_eq_false_2 by (by intros [? ?]).
        rewrite !bind_ret_l, ?bind_assoc.
        apply bind_cong; [apply IH|done].
    + rewrite (bind_Ok _ _ _ _ _ (eq_refl : TreeBuilder None r = Ok ∅ r)).
      rewrite update_tree_item_Dict. unfold tb_get. rewrite lookup_empty.
      rewrite !bind_assoc, !bind_ret_l, ?bind_assoc.
      apply bind_cong; [apply IH|done].
Qed.

Lemma apply_one_insert T b p r :
  apply (mkTreeModifier T [OpInsert b p]) r
  = (let* i := insert_blob_into_tree (Some T) b p in repo_getitem i) r.
Proof.
  unfold apply, insert_blob_into_tree.
  destruct (Path.full_split p) as [parts|] eqn:Hp.
  - destruct (simplify_one T (OpInsert b p) p (TId b) parts r) as (dirs & name & -> & Hs);
      [left; eauto|done|].
    rewrite (bind_Ok _ _ _ _ _ Hs). cbn [tm_tree].
    apply bind_cong; [|done].
    by rewrite update_single_insert, (insert_into_tree_eq _ _ _ _ _ _ Hp).
  - assert (simplify (mkTreeModifier T [OpInsert b p]) r = Diverge) as Hs.
    { unfold simplify. cbn [tm_tree operations simplify_operations simplify_operation].
      cbv [bind ret]. cbn [dict_set by_directory]. unfold bind, full_split.
      by rewrite Hp. }
    apply absolute_or_relative in Hp.
    destruct (editor_diverges (Some T) p b GIT_FILEMODE_BLOB r) as (_ & [_ Hd] & _).
    unfold bind. by rewrite Hs, (Hd Hp).
Qed.

(** X15.  Committing one staged insert through the batch gives what
    [insert_blob_into_tree] gives for it: the same tree, the same
    exception, the same objects written, on every path and every
    repository. *)
Theorem apply_single_insert T b p r :
  apply (mkTreeModifier T [OpInsert b p]) r
  = (let* i := insert_blob_into_tree (Some T) b p in repo_getitem i) r.
Proof. apply apply_one_insert. Qed.

(** *** One remove *)

Lemma update_remove_absent name dirs : ∀ tree r,
  tree = None ∨ get_tree_entry_parts (app dirs [name]) tree r = Ok None r →
  update_tree tree (single_file dirs name TNone) r = Raise GitError r.
Proof.
  induction dirs as [|d ds IH]; intros tree r Hcase.
  - cbn [single_file app] in *. rewrite update_tree_one.
    destruct tree as [[i [bl|es|c]]|]; try (by destruct Hcase as [?|?]).
    destruct Hcase as [?|Hget]; [done|].
    rewrite (bind_Ok _ _ _ _ _ (eq_refl : TreeBuilder (Some (mkPy i (Tree es))) r = Ok es r)).
    destruct (es !! name) as [[j m]|] eqn:Hd.
    + by rewrite (lookup_leaf _ _ _ _ _ _ Hd) in Hget.
    + cbn [update_tree_item]. unfold bind, tb_remove. by rewrite Hd.
  - cbn [single_file]. rewrite update_tree_one.
    change (app (d :: ds) [name]) with (d :: (app ds [name])) in Hcase.
    destruct (snoc_cons ds name) as (d' & rest & Hrest).
    destruct tree as [[i [bl|es|c]]|].
    + destruct Hcase as [?|Hget]; [done|]. by rewrite Hrest in Hget.
    + destruct Hcase as [?|Hget]; [done|].
      rewrite (bind_Ok _ _ _ _ _ (eq_refl : TreeBuilder (Some (mkPy i (Tree es))) r = Ok es r)).
      rewrite update_tree_item_Dict, !bind_assoc. unfold tb_get.
      destruct (es !! d) as [[j m]|] eqn:Hd.
      * cbn [te_id]. rewrite Hrest in Hget.
        destruct (objects r !! j) as [o|] eqn:Hj.
        -- rewrite (lookup_below _ _ _ _ _ _ _ _ _ Hd Hj), <- Hrest in Hget.
           rewrite !bind_assoc.
           rewrite (bind_Ok _ _ _ _ _ (repo_getitem_stored _ _ _ Hj)).
           rewrite bind_ret_l, bind_assoc. unfold bind at 1.
           by rewrite (IH _ _ (or_intror Hget)).
        -- rewrite get_tree_entry_parts_cons in Hget.
           rewrite (bind_Ok _ _ _ _ _ (tree_contains_Tree _ _ _ _)) in Hget.
           rewrite bool_decide_eq_true_2 in Hget by eauto. simpl negb in Hget.
           cbv iota in Hget. unfold bind at 1 in Hget. simpl in Hget.
           rewrite Hd in Hget. simpl in Hget. unfold bind at 1 in Hget.
           unfold repo_getitem in Hget. by rewrite Hj in Hget.
      * rewrite bind_ret_l, bind_assoc. unfold bind at 1.
        by rewrite (IH None r (or_introl eq_refl)).
    + destruct Hcase as [?|Hget]; [done|]. by rewrite Hrest in Hget.
    + rewrite (bind_Ok _ _ _ _ _ (eq_refl : TreeBuilder None r = Ok ∅ r)).
      rewrite update_tree_item_Dict, !bind_assoc. unfold tb_get.
      rewrite lookup_empty, bind_ret_l, bind_assoc. unfold bind at 1.
      by rewrite (IH None r (or_introl eq_refl)).
Qed.

Lemma apply_one_remove_missing T p r :
  get_tree_entry (Some T) p r = Ok None r →
  apply (mkTreeModifier T [OpRemove p]) r = Raise GitError r.
Proof.
  intros Hget. pose proof (get_tree_entry_returns _ _ _ _ _ Hget) as [_ [parts Hp]].
  destruct (simplify_one T (OpRemove p) p TNone parts r) as (dirs & name & -> & Hs);
    [by right|done|].
  unfold apply. rewrite (bind_Ok _ _ _ _ _ Hs). cbn [tm_tree].
  rewrite (get_tree_entry_eq _ _ _ _ Hp) in Hget.
  unfold bind. by rewrite (update_remove_absent _ _ _ _ (or_intror Hget)).
Qed.

(** X16.  The batch does not put up with the removal of a path that is not
    there: where [get_tree_entry] finds nothing at the path, applying the
    staged removal raises GitError, from [tree_builder.remove], and writes
    nothing.  ([remove_file_from_tree] looks before it removes.) *)
Theorem apply_remove_of_missing_path T p r :
  get_tree_entry (Some T) p r = Ok None r →
  apply (mkTreeModifier T [OpRemove p]) r = Raise GitError r.
Proof. apply apply_one_remove_missing. Qed.

(** *** One move *)

Lemma fails_bind_l {S A B} (m : M S A) (k : A → M S B) s :
  is_ok (m s) = false → is_ok (bind m k s) = false.
Proof. unfold bind. by destruct (m s). Qed.

Lemma fails_bind_r {S A B} (m : M S A) (k : A → M S B) s :
  (∀ a s', is_ok (k a s') = false) → is_ok (bind m k s) = false.
Proof. intros Hk. unfold bind. destruct (m s); auto. Qed.

Lemma for_items_fails items : ∀ tb r,
  (∃ k n, (k, n) ∈ items ∧ ∀ tb r, is_ok (update_tree_item k n tb r) = false) →
  is_ok (for_items update_tree_item items tb r) = false.
Proof.
  induction items as [|[k0 n0] items IH]; intros tb r (k & n & Hin & Hfail).
  - by apply elem_of_nil in Hin.
  - cbn [for_items]. unfold bind.
    destruct (update_tree_item k0 n0 tb r) as [tb' r'|e r'|] eqn:E; [|done|done].
    apply elem_of_cons in Hin as [[= -> ->]|Hin].
    + specialize (Hfail tb r). by rewrite E in Hfail.
    + apply IH. eauto.
Qed.

Lemma update_tree_item_fails n :
  holds_entry n → ∀ k tb r, is_ok (update_tree_item k n tb r) = false.
Proof.
  induction 1 as [e|d k' n' Hin Hn' IH]; intros k tb r; [done|].
  rewrite update_tree_item_Dict. apply fails_bind_r. intros st r1.
  apply fails_bind_l. unfold update_tree. apply fails_bind_r. intros sb r2.
  apply fails_bind_l. apply for_items_fails. eauto.
Qed.

Lemma update_tree_fails tree todo r :
  (∃ k n, (k, n) ∈ todo ∧ holds_entry n) → is_ok (update_tree tree todo r) = false.
Proof.
  intros (k & n & Hin & Hn). unfold update_tree. apply fails_bind_r. intros tb r1.
  apply fails_bind_l, for_items_fails. exists k, n. split; [done|].
  by apply update_tree_item_fails.
Qed.

Lemma dict_set_holds {V} k (v : V) d : ∃ k', (k', v) ∈ dict_set k v d.
Proof.
  induction d as [|[k0 v0] d [k' IH]]; simpl.
  - exists k. apply elem_of_cons. by left.
  - destruct (String.eqb k0 k).
    + exists k0. apply elem_of_cons. by left.
    + exists k'. apply elem_of_cons. by right.
Qed.

Lemma nested_set_holds e f dirs : ∀ d r d' r',
  nested_set dirs f (TEntry e) d r = Ok d' r' →
  ∃ k n, (k, n) ∈ d' ∧ holds_entry n.
Proof.
  induction dirs as [|x dirs IH]; intros d r d' r' Hset; cbn [nested_set] in Hset.
  - injection Hset as <- <-.
    destruct (dict_set_holds f (Leaf (TEntry e)) d) as [k Hk].
    exists k, (Leaf (TEntry e)). split; [done|constructor].
  - destruct (dict_get x d) as [[v|sub]|].
    + done.
    + apply bind_Ok_inv in Hset as (sub' & r1 & Hsub & Hset).
      injection Hset as <- <-. apply IH in Hsub as (k & n & Hin & Hn).
      destruct (dict_set_holds x (Dict sub') d) as [k' Hk'].
      exists k', (Dict sub'). split; [done|]. by eapply holds_below.
    + apply bind_Ok_inv in Hset as (sub' & r1 & Hsub & Hset).
      injection Hset as <- <-. apply IH in Hsub as (k & n & Hin & Hn).
      destruct (dict_set_holds x (Dict sub') d) as [k' Hk'].
      exists k', (Dict sub'). split; [done|]. by eapply holds_below.
Qed.

Lemma by_directory_holds e p todo : ∀ d r d' r',
  by_directory (app todo [(p, TEntry e)]) d r = Ok d' r' →
  ∃ k n, (k, n) ∈ d' ∧ holds_entry n.
Proof.
  induction todo as [|[q v] todo IH]; intros d r d' r' Hby.
  - cbn [app by_directory] in Hby.
    apply bind_Ok_inv in Hby as (parts & r1 & _ & Hby).
    apply bind_Ok_inv in Hby as ([dirs f] & r2 & _ & Hby).
    apply bind_Ok_inv in Hby as (d1 & r3 & Hset & Hby).
    injection Hby as <- <-. by eapply nested_set_holds.
  - change (app ((q, v) :: todo) [(p, TEntry e)])
      with ((q, v) :: app todo [(p, TEntry e)]) in Hby.
    cbn [by_directory] in Hby.
    apply bind_Ok_inv in Hby as (parts & r1 & _ & Hby).
    apply bind_Ok_inv in Hby as ([dirs f] & r2 & _ & Hby).
    apply bind_Ok_inv in Hby as (d1 & r3 & _ & Hby).
    by eapply IH.
Qed.

Lemma simplify_move_holds T old new r d r' :
  simplify (mkTreeModifier T [OpMove old new]) r = Ok d r' →
  ∃ k n, (k, n) ∈ d ∧ holds_entry n.
Proof.
  unfold simplify. cbn [tm_tree operations]. intros Hs.
  apply bind_Ok_inv in Hs as (todo & r1 & Hops & Hby).
  cbn [simplify_operations simplify_operation dict_get] in Hops.
  apply bind_Ok_inv in Hops as (todo1 & r2 & Hop & Hret). injection Hret as <- <-.
  apply bind_Ok_inv in Hop as (v & r3 & Hv & Hret). injection Hret as <- <-.
  apply bind_Ok_inv in Hv as ([e|] & r4 & _ & Hv); [|done]. injection Hv as <- <-.
  cbn [dict_set] in Hby. destruct (String.eqb old new).
  - by apply (by_directory_holds e old []) in Hby.
  - by apply (by_directory_holds e new [(old, TNone)]) in Hby.
Qed.

Lemma apply_one_move T old new r :
  is_ok (apply (mkTreeModifier T [OpMove old new]) r) = false.
Proof.
  unfold apply. unfold bind at 1.
  destruct (simplify _ r) as [d r1|e r1|] eqn:Hs; [|done|done].
  apply fails_bind_l, update_tree_fails. by eapply simplify_move_holds.
Qed.

(** X17.  A batch that holds a move and nothing else can not be applied: when
    the old path is not in the tree [simplify] raises, and when it is,
    [simplify] stages the tree entry that [get_tree_entry] returned where
    [update_tree] needs a blob id, so that [tree_builder.insert] raises
    TypeError.  Whatever the tree, the two paths and the repository,
    [apply] does not return. *)
Theorem apply_single_move_never_returns T old new r :
  is_ok (apply (mkTreeModifier T [OpMove old new]) r) = false.
Proof. apply apply_one_move. Qed.

End OneOperation.

Import PathFacts.

(** ** Sessions *)

Section Sessions.
Context `{GitHash}.

(** What [get_last_tree] returns when there is a head commit. *)
Lemma get_last_tree_head w t w' :
  head_is_unborn (repo w) = false → get_last_tree w = Ok t w' →
  w' = w ∧
  ∃ c cd tb,
    references (repo w) !! HEAD (repo w) = Some c ∧
    objects (repo w) !! c = Some (Commit cd) ∧
    commit_tree_id cd = oid t ∧
    objects (repo w) !! oid t = Some (Tree tb) ∧ obj t = Tree tb.
Proof.
  intros Hborn Hget. pose proof (get_last_tree_born _ _ _ Hborn Hget) as ->.
  split; [done|]. unfold get_last_tree in Hget. rewrite bind_get, Hborn in Hget.
  apply bind_Ok_inv in Hget as (c & w1 & (r1 & Hc & ->)%liftR_Ok_inv & Hget).
  unfold head_target in Hc.
  destruct (references (repo w) !! HEAD (repo w)) as [c0|] eqn:Href; [|done].
  injection Hc as -> <-. rewrite set_repo_id in Hget.
  apply bind_Ok_inv in Hget as (commit & w2 & (r2 & Hcommit & ->)%liftR_Ok_inv & Hget).
  apply repo_getitem_Ok in Hcommit as (-> & Hoc & Hstc). rewrite set_repo_id in Hget.
  apply liftR_Ok_inv in Hget as (r3 & Ht & _).
  unfold commit_tree in Ht. unfold stored in Hstc. rewrite Hoc in Hstc.
  destruct (obj commit) as [?|?|cd]; try done.
  apply bind_Ok_inv in Ht as (t0 & r0 & (-> & Hot & Hstt)%repo_getitem_Ok & Ht).
  destruct (obj t0) as [?|tb|?] eqn:Hobj; try done. injection Ht as -> _.
  exists c, cd, tb. unfold stored in Hstt. rewrite Hobj in Hstt. by split_and!.
Qed.

(** A session on the head tree with nothing staged is published. *)
Lemma fresh_session_published w t h :
  wf_store (repo w) → head_is_unborn (repo w) = false →
  get_last_tree w = Ok t w →
  working_tree h = t → tree_modifier h = mkTreeModifier t [] →
  published (mkWorld h (repo w) (files w) (clock w)).
Proof.
  intros Hwf Hborn Hget Hwt Htm.
  destruct (get_last_tree_head _ _ _ Hborn Hget) as (_ & c & cd & tb & ? & ? & ? & ? & ?).
  exists c, cd, tb. simpl. rewrite Hwt, Htm. by split_and!.
Qed.

Lemma start_then_commit w :
  wf_store (repo w) → head_is_unborn (repo w) = false →
  (∀ w1, reset w = Ok tt w1 → commit w1 = Ok tt w1) ∧
  (∀ path repo_path update_working_copy w1,
     __init__ path repo_path update_working_copy w = Ok tt w1 →
     commit w1 = Ok tt w1).
Proof.
  intros Hwf Hborn. split.
  - intros w1 Hreset. unfold reset in Hreset.
    apply bind_Ok_inv in Hreset as (t & wa & Hget & Hreset).
    pose proof (get_last_tree_born _ _ _ Hborn Hget) as ->.
    rewrite !bind_modify in Hreset. injection Hreset as <-.
    apply published_commit.
    by apply (fresh_session_published w t).
  - intros p rp uwc w1 Hinit. unfold __init__ in Hinit.
    rewrite bind_modify in Hinit.
    apply bind_Ok_inv in Hinit as (t & wa & Hget & Hinit).
    match type of Hget with get_last_tree ?w0 = _ =>
      assert (head_is_unborn (repo w0) = false) as Hborn0 by done;
      pose proof (get_last_tree_born _ _ _ Hborn0 Hget) as ->
    end.
    rewrite !bind_modify in Hinit. injection Hinit as <-.
    apply published_commit.
    match type of Hget with get_last_tree ?w0 = _ =>
      by apply (fresh_session_published w0 t)
    end.
Qed.

(** X18.  On a repository that has a head commit and a content-addressed store,
    a session that was just started, or just reset, has nothing to
    commit: [commit] returns and changes nothing, neither the repository
    nor the handler nor the files. *)
Theorem fresh_session_commit_is_noop w :
  wf_store (repo w) → head_is_unborn (repo w) = false →
  (∀ w1, reset w = Ok tt w1 → commit w1 = Ok tt w1) ∧
  (∀ path repo_path update_working_copy w1,
     __init__ path repo_path update_working_copy w = Ok tt w1 →
     commit w1 = Ok tt w1).
Proof. apply start_then_commit. Qed.

(** *** Staging *)

Lemma write_file_new f c w :
  get_tree_entry (Some (working_tree (self w))) f (repo w) = Ok None (repo w) →
  ∃ w1, write_file f c w = Ok tt w1 ∧
        working_tree (self w1) = working_tree (self w) ∧
        objects (repo w) ⊆ objects (repo w1) ∧
        tree_modifier (self w1)
        = insert_blob (git_hash (utf8_encode c)) f (tree_modifier (self w)).
Proof.
  intros Hget. unfold write_file. rewrite bind_get.
  rewrite (bind_Ok _ _ _ _ _ (liftR_Ok_same _ _ _ Hget)).
  unfold write_file_stage.
  destruct (odb_write_total (Blob (utf8_encode c)) (repo w)) as [r1 Hw].
  pose proof (odb_write_Ok _ _ _ _ Hw) as (_ & [Hsub _] & _ & _).
  rewrite (bind_Ok _ _ _ _ _ (liftR_Ok _ _ _ _ Hw)).
  unfold insert_into_working_tree. rewrite bind_modify, bind_get.
  destruct (_ && _); rewrite ?bind_modify, ?bind_ret_l; eexists; (split; [reflexivity|]);
    simpl; by split_and!.
Qed.

Section WorkingCopy.
Variable remove_file_with_empty_parents : string → string → M World unit.
Variable os_rename : string → string → M World unit.

Lemma write_then_remove f c w :
  get_tree_entry (Some (working_tree (self w))) f (repo w) = Ok None (repo w) →
  ∃ w1, write_file f c w = Ok tt w1 ∧
        remove_file remove_file_with_empty_parents f w1 = Ok tt w1 ∧
        operations (tree_modifier (self w1))
        = app (operations (tree_modifier (self w)))
              [OpInsert (git_hash (utf8_encode c)) f].
Proof.
  intros Hget. destruct (write_file_new f c w Hget) as (w1 & Hw & Hwt & Hsub & Htm).
  exists w1. split_and!; [done| |by rewrite Htm].
  unfold remove_file. rewrite bind_get, Hwt.
  pose proof (lookup_stable_objects _ _ _ _ _ _ Hsub Hget) as Hget1.
  by rewrite (bind_Ok _ _ _ _ _ (liftR_Ok_same _ _ _ Hget1)).
Qed.

Lemma move_then_commit old new w T :
  tree_modifier (self w) = mkTreeModifier T [] →
  is_bare (repo w) = true ∨ update_working_copy (self w) = false →
  is_ok ((move_file remove_file_with_empty_parents os_rename old new ;; commit) w)
  = false.
Proof.
  intros Htm Hdb. unfold move_file.
  rewrite bind_assoc, bind_modify. cbv beta. rewrite bind_assoc, bind_get. cbv beta.
  assert (negb (is_bare (repo w)) && update_working_copy (self w) = false) as Hwc.
  { destruct Hdb as [-> | ->]; [done|apply andb_false_r]. }
  cbn [set_self repo self set_tree_modifier update_working_copy]. rewrite Hwc.
  rewrite bind_assoc, bind_ret_l. cbv beta. rewrite bind_modify. cbv beta.
  rewrite commit_unfold. apply fails_bind_r. intros last wa.
  cbn [set_self self set_messages set_tree_modifier tree_modifier]. rewrite Htm.
  cbn [move tm_tree operations app].
  case_bool_decide; [done|]. apply fails_bind_l.
  unfold liftR. pose proof (apply_one_move T old new (repo wa)) as Hfail.
  by destruct (apply _ (repo wa)).
Qed.

End WorkingCopy.

(** X19.  [remove_file] looks the path up in the tree the session started from,
    not in what is staged: after [write_file] of a path that tree does not
    have, [remove_file] of the same path returns and does nothing, and the
    insert stays staged for the next commit.  The working copy is not
    touched either, whatever [remove_file_with_empty_parents] would do. *)
Theorem remove_file_after_write_file_does_nothing
    (remove_file_with_empty_parents : string → string → M World unit) f c w :
  get_tree_entry (Some (working_tree (self w))) f (repo w) = Ok None (repo w) →
  ∃ w1, write_file f c w = Ok tt w1 ∧
        remove_file remove_file_with_empty_parents f w1 = Ok tt w1 ∧
        operations (tree_modifier (self w1))
        = app (operations (tree_modifier (self w)))
              [OpInsert (git_hash (utf8_encode c)) f].
Proof. apply write_then_remove. Qed.

(** X20.  [move_file] stages the move without looking at the tree, and a move
    staged alone can not be applied: in a session with nothing else
    staged, on a bare repository or without [update_working_copy],
    [move_file] followed by [commit] does not return. *)
Theorem move_file_then_commit_never_returns
    (remove_file_with_empty_parents : string → string → M World unit)
    (os_rename : string → string → M World unit) old new w T :
  tree_modifier (self w) = mkTreeModifier T [] →
  is_bare (repo w) = true ∨ update_working_copy (self w) = false →
  is_ok ((move_file remove_file_with_empty_parents os_rename old new ;; commit) w)
  = false.
Proof. apply move_then_commit. Qed.

End Sessions.

Import PathFacts.

(** ** What [commit] records *)

Section Records.
Context `{GitHash}.
Hypothesis hash_inj : Inj (=) (=) hash_object.

Lemma config_pair_Ok w a w' :
  liftR (let* n := config_getitem "user.name" in
         let* e := config_getitem "user.email" in ret (n, e)) w = Ok a w' →
  w' = w ∧ config (repo w) !! "user.name" = Some a.1 ∧
  config (repo w) !! "user.email" = Some a.2.
Proof.
  intros (r' & Hc & ->)%liftR_Ok_inv. unfold bind, config_getitem in Hc.
  destruct (config (repo w) !! "user.name") as [n|]; [|done].
  destruct (config (repo w) !! "user.email") as [e|]; [|done].
  injection Hc as <- <-. by rewrite set_repo_id.
Qed.

Lemma commit_create_spec parents w w1 :
  HEAD (repo w) = "refs/heads/master" → wf_store (repo w) →
  commit_create parents w = Ok tt w1 →
  ∃ name email,
    config (repo w) !! "user.name" = Some name ∧
    config (repo w) !! "user.email" = Some email ∧
    let cd := commit_of w parents name email (oid (working_tree (self w))) in
    let c := hash_object (Commit cd) in
    objects (repo w1) !! c = Some (Commit cd) ∧
    objects (repo w) ⊆ objects (repo w1) ∧
    references (repo w1) = <["refs/heads/master" := c]> (references (repo w)) ∧
    self w1 = set_messages (λ _, []) (self w) ∧
    files w1 = <[Path.join (path (self w)) ["dbcommit"]
                 := hex c ++ String "010"%char ""]> (files w) ∧
    index (repo w1)
    = (if negb (is_bare (repo w)) && update_working_copy (self w)
       then Some (oid (working_tree (self w))) else index (repo w)).
Proof.
  intros Hhead Hwf Hc. unfold commit_create in Hc.
  apply bind_Ok_inv in Hc as ([n e] & wa & (-> & Hn & He)%config_pair_Ok & Hc).
  apply bind_Ok_inv in Hc as ([n' e'] & wb & (-> & Hn' & He')%config_pair_Ok & Hc).
  simpl in Hn, He, Hn', He'. rewrite Hn in Hn'. rewrite He in He'.
  injection Hn' as <-. injection He' as <-.
  rewrite bind_get in Hc. cbn [fst snd] in Hc.
  apply bind_Ok_inv in Hc as (u & wc & (r' & Hcc & ->)%liftR_Ok_inv & Hc).
  unfold create_commit in Hcc.
  apply bind_Ok_inv in Hcc as (c & r1 & Hw & Hcc).
  rewrite bind_modify in Hcc. injection Hcc as _ Hr'. subst r'.
  destruct (odb_write_Ok _ _ _ _ Hw) as (Hc_eq & Hext & Hwf1 & Hobjc).
  specialize (Hobjc Hwf hash_inj).
  apply bind_Ok_inv in Hc as (u2 & wd & Hsave & Hc).
  unfold saveCurrentCommit in Hsave. rewrite bind_get in Hsave.
  apply bind_Ok_inv in Hsave as (c' & wd' & Hcur & Hsave).
  pose proof Hcur as Hcur'.
  apply liftR_readonly in Hcur as ->; [|apply always_head_target; apply _].
  apply liftR_Ok_inv in Hcur' as (? & Hcur' & _).
  destruct Hext as (Hsub & Hrefs & Hhead1 & Hbare & Hcfg & Hidx).
  unfold head_target in Hcur'. cbn [repo set_repo set_references references HEAD] in Hcur'.
  rewrite <- Hhead1, Hhead, lookup_insert_eq in Hcur'. injection Hcur' as <-.
  injection Hsave as Hwd. subst wd.
  rewrite bind_modify, bind_get in Hc.
  exists n, e. split; [done|]. split; [done|].
  unfold commit_of. cbn zeta. rewrite <- Hc_eq.
  cbn [repo self set_self set_repo set_files set_messages set_references
       is_bare update_working_copy] in Hc.
  rewrite <- Hbare in Hc.
  destruct (negb (is_bare (repo w)) && update_working_copy (self w));
    injection Hc as Hw1; subst w1; cbn;
    (split_and!; [exact Hobjc|exact Hsub|by rewrite Hrefs|done|done|done]).
Qed.

Lemma commit_inv w w1 :
  wf_store (repo w) → commit w = Ok tt w1 →
  ∃ last wa nt rb,
    get_last_tree w = Ok last wa ∧ lift_rel grows w wa ∧
    oid (tm_tree (tree_modifier (self w))) = oid last ∧
    apply (tree_modifier (self w)) (repo wa) = Ok nt rb ∧
    wf_store rb ∧ extends (repo wa) rb ∧
    let w' := set_self (set_tree_modifier (λ _, mkTreeModifier nt []))
                (set_self (set_working_tree nt) (set_repo rb wa)) in
    (w1 = w' ∧ head_is_unborn rb = false) ∨
    commit_create (match references rb !! HEAD rb with
                   | Some h => [h] | None => [] end) w' = Ok tt w1.
Proof.
  intros Hwf Hc. rewrite commit_unfold in Hc.
  apply bind_Ok_inv in Hc as (last & wa & Hlast & Hc).
  pose proof (always_Ok _ _ _ _ _ _ always_get_last_tree Hlast) as Hrel.
  pose proof Hrel as (Hself & _ & _ & _ & Hwfa). specialize (Hwfa Hwf).
  case_bool_decide as Hcm; [done|].
  apply bind_Ok_inv in Hc as (nt & wb & (rb & Happly & ->)%liftR_Ok_inv & Hc).
  destruct (apply_result hash_inj _ _ _ _ Hwfa Happly) as (Hwfb & Hext & _).
  rewrite !bind_modify, bind_get in Hc.
  exists last, wa, nt, rb. split_and!; try done.
  cbn zeta. cbn [repo set_self set_repo] in Hc.
  unfold head_is_unborn in *.
  destruct (references rb !! HEAD rb) as [h|] eqn:Href.
  - rewrite bool_decide_eq_false_2 in Hc by done.
    apply bind_Ok_inv in Hc as (c & wc & Hcur & Hc).
    pose proof Hcur as Hcur'.
    apply liftR_readonly in Hcur as ->; [|apply always_head_target; apply _].
    apply liftR_Ok_inv in Hcur' as (? & Hcur' & _).
    unfold head_target in Hcur'. cbn [repo set_self set_repo] in Hcur'.
    rewrite Href in Hcur'. injection Hcur' as <-.
    apply bind_Ok_inv in Hc as (commit & wd & Hcommit & Hc).
    pose proof Hcommit as Hcommit'.
    apply liftR_readonly in Hcommit as ->; [|apply always_repo_getitem; apply _].
    apply liftR_Ok_inv in Hcommit' as (? & (_ & Hoc & _)%repo_getitem_Ok & _).
    apply bind_Ok_inv in Hc as (t & we & Ht & Hc).
    apply liftR_readonly in Ht as ->; [|apply always_commit_tree; apply _].
    case_bool_decide as Hsame.
    + left. injection Hc as <-. split; [done|]. by apply bool_decide_eq_false_2.
    + right. by rewrite <- Hoc.
  - right. by rewrite bool_decide_eq_true_2 in Hc.
Qed.

Lemma commit_outcome_lemma w w1 :
  HEAD (repo w) = "refs/heads/master" → wf_store (repo w) →
  commit w = Ok tt w1 →
  tree_modifier (self w1) = mkTreeModifier (working_tree (self w1)) [] ∧
  ((references (repo w1) = references (repo w) ∧
    messages (self w1) = messages (self w) ∧ files w1 = files w ∧
    head_is_unborn (repo w) = false)
   ∨ ∃ name email,
       config (repo w) !! "user.name" = Some name ∧
       config (repo w) !! "user.email" = Some email ∧
       let cd := commit_of w (match references (repo w) !! HEAD (repo w) with
                              | Some h => [h] | None => [] end)
                           name email (oid (working_tree (self w1))) in
       let c := hash_object (Commit cd) in
       objects (repo w1) !! c = Some (Commit cd) ∧
       references (repo w1) = <["refs/heads/master" := c]> (references (repo w)) ∧
       messages (self w1) = [] ∧
       files w1 = <[Path.join (path (self w)) ["dbcommit"]
                    := hex c ++ String "010"%char ""]> (files w)).
Proof.
  intros Hhead Hwf Hc.
  destruct (commit_inv _ _ Hwf Hc)
    as (last & wa & nt & rb & Hlast & Hrel & Hoid & Happly & Hwfb & Hext & Hcase).
  destruct Hrel as (Hself & Hfiles & Hclock & Hexta & _).
  destruct Hexta as (_ & Hrefs_a & Hhead_a & _ & Hcfg_a & _).
  destruct Hext as (_ & Hrefs_b & Hhead_b & _ & Hcfg_b & _).
  cbn zeta in Hcase. destruct Hcase as [[-> Hborn]|Hcreate].
  - split; [done|]. left. cbn. split_and!; [congruence|by rewrite Hself|done|].
    unfold head_is_unborn in *. by rewrite Hrefs_a, Hrefs_b, Hhead_a, Hhead_b.
  - apply commit_create_spec in Hcreate
      as (name & email & Hn & He & Hobj & _ & Hrefs & Hs & Hf & _);
      [|cbn; congruence|done].
    cbn [repo self set_self set_repo files clock set_working_tree
         set_tree_modifier working_tree path messages] in *.
    split; [by rewrite Hs|]. right. exists name, email.
    rewrite Hcfg_a, Hcfg_b. split; [done|]. split; [done|].
    cbn zeta. rewrite Hs. cbn [working_tree set_messages messages].
    rewrite Hrefs_a, Hrefs_b, Hhead_a, Hhead_b.
    unfold commit_of in *. cbn [clock self messages set_self set_repo
      set_tree_modifier set_working_tree] in *.
    rewrite Hself, Hclock, Hfiles in *. by split_and!.
Qed.

(** X21.  What a [commit] that returns has done, on the branch master with a
    content-addressed store.  The session is left on its new tree with
    nothing staged.  Then either nothing was recorded (there was a head
    commit and its tree is the new tree: references and files are as they
    were, and the pending messages are kept, not cleared), or one commit
    was stored and master points at it: its tree is the session's tree,
    its parent is the old head (none when the head was unborn), author and
    committer are the configured user at the time of the clock, its
    message is the pending messages joined by newlines; the messages are
    cleared and dbcommit holds the id in hexadecimal and a newline. *)
Theorem commit_outcome w w1 :
  HEAD (repo w) = "refs/heads/master" → wf_store (repo w) →
  commit w = Ok tt w1 →
  tree_modifier (self w1) = mkTreeModifier (working_tree (self w1)) [] ∧
  ((references (repo w1) = references (repo w) ∧
    messages (self w1) = messages (self w) ∧ files w1 = files w ∧
    head_is_unborn (repo w) = false)
   ∨ ∃ name email,
       config (repo w) !! "user.name" = Some name ∧
       config (repo w) !! "user.email" = Some email ∧
       let cd := commit_of w (match references (repo w) !! HEAD (repo w) with
                              | Some h => [h] | None => [] end)
                           name email (oid (working_tree (self w1))) in
       let c := hash_object (Commit cd) in
       objects (repo w1) !! c = Some (Commit cd) ∧
       references (repo w1) = <["refs/heads/master" := c]> (references (repo w)) ∧
       messages (self w1) = [] ∧
       files w1 = <[Path.join (path (self w)) ["dbcommit"]
                    := hex c ++ String "010"%char ""]> (files w)).
Proof. apply commit_outcome_lemma. Qed.

End Records.

Import PathFacts.

#[local] Arguments get_tree_entry_parts : simpl never.
#[local] Arguments update_tree : simpl never.

(** ** From [write_file] to the committed tree *)

Section WriteCommit.
Context `{GitHash}.
Hypothesis hash_inj : Inj (=) (=) hash_object.

Lemma lookup_same_entries parts i j es r :
  get_tree_entry_parts parts (Some (mkPy i (Tree es))) r
  = get_tree_entry_parts parts (Some (mkPy j (Tree es))) r.
Proof.
  destruct parts as [|d [|d' rest]]; [done| |].
  - by rewrite !get_tree_entry_parts_single.
  - by rewrite !get_tree_entry_parts_cons.
Qed.

Lemma get_tree_entry_same_entries p i j es r :
  get_tree_entry (Some (mkPy i (Tree es))) p r
  = get_tree_entry (Some (mkPy j (Tree es))) p r.
Proof.
  destruct (Path.full_split p) as [parts|] eqn:Hp.
  - rewrite !(get_tree_entry_eq _ _ _ _ Hp). apply lookup_same_entries.
  - apply absolute_or_relative in Hp.
    destruct (editor_diverges (Some (mkPy i (Tree es))) p 1%positive 0 r) as [[_ Hi] _].
    destruct (editor_diverges (Some (mkPy j (Tree es))) p 1%positive 0 r) as [[_ Hj] _].
    by rewrite (Hi Hp), (Hj Hp).
Qed.

Lemma write_file_Ok f c w w1 :
  write_file f c w = Ok tt w1 →
  working_tree (self w1) = working_tree (self w) ∧ grows (repo w) (repo w1) ∧
  ((∃ e, get_tree_entry (Some (working_tree (self w))) f (repo w)
         = Ok (Some e) (repo w) ∧
         te_id e = git_hash (utf8_encode c) ∧ w1 = w) ∨
   tree_modifier (self w1)
   = insert_blob (git_hash (utf8_encode c)) f (tree_modifier (self w))).
Proof.
  unfold write_file. rewrite bind_get. intros Hw.
  apply bind_Ok_inv in Hw as (ee & wa & Hget & Hw).
  pose proof Hget as Hget'.
  apply liftR_readonly in Hget as ->; [|apply always_get_tree_entry; apply _].
  apply liftR_Ok_inv in Hget' as (r' & Hget & Heq).
  assert (r' = repo w) as ->.
  { symmetry. apply (always_Ok eq other _ _ _ _ (always_get_tree_entry eq other _ _) Hget). }
  assert (∀ type, write_file_stage type f c (utf8_encode c) w = Ok tt w1 →
            working_tree (self w1) = working_tree (self w) ∧
            grows (repo w) (repo w1) ∧
            tree_modifier (self w1)
            = insert_blob (git_hash (utf8_encode c)) f (tree_modifier (self w)))
    as Hstage.
  { intros type Hs. unfold write_file_stage in Hs.
    apply bind_Ok_inv in Hs as (b & wb & (r1 & Hb & ->)%liftR_Ok_inv & Hs).
    pose proof (odb_write_Ok _ _ _ _ Hb) as (-> & Hext & Hwf & _).
    unfold insert_into_working_tree in Hs. rewrite bind_modify, bind_get in Hs.
    destruct (_ && _); rewrite ?bind_modify, ?bind_ret_l in Hs;
      injection Hs as <-; cbn; by split_and!. }
  destruct ee as [e|].
  - case_bool_decide as Hid.
    + injection Hw as <-. split; [done|]. split; [reflexivity|]. left. eauto.
    + destruct (Hstage _ Hw) as (? & ? & ?). auto.
  - destruct (Hstage _ Hw) as (? & ? & ?). auto.
Qed.

Lemma commit_create_frame parents w w1 :
  commit_create parents w = Ok tt w1 →
  working_tree (self w1) = working_tree (self w) ∧
  objects (repo w) ⊆ objects (repo w1).
Proof.
  intros Hc. unfold commit_create in Hc.
  apply bind_Ok_inv in Hc as ([n e] & wa & (-> & _)%config_pair_Ok & Hc).
  apply bind_Ok_inv in Hc as ([n' e'] & wb & (-> & _)%config_pair_Ok & Hc).
  rewrite bind_get in Hc.
  apply bind_Ok_inv in Hc as (u & wc & (r' & Hcc & ->)%liftR_Ok_inv & Hc).
  unfold create_commit in Hcc.
  apply bind_Ok_inv in Hcc as (c & r1 & Hw & Hcc).
  rewrite bind_modify in Hcc. injection Hcc as _ Hr'. subst r'.
  destruct (odb_write_Ok _ _ _ _ Hw) as (_ & [Hsub _] & _ & _).
  apply bind_Ok_inv in Hc as (u2 & wd & Hsave & Hc).
  unfold saveCurrentCommit in Hsave. rewrite bind_get in Hsave.
  apply bind_Ok_inv in Hsave as (c' & wd' & Hcur & Hsave).
  apply liftR_readonly in Hcur as ->; [|apply always_head_target; apply _].
  injection Hsave as Hwd. subst wd.
  rewrite bind_modify, bind_get in Hc.
  destruct (_ && _); injection Hc as Hw1; subst w1; by cbn.
Qed.

Lemma commit_tree_of w w1 :
  wf_store (repo w) → commit w = Ok tt w1 →
  ∃ wa rb,
    objects (repo w) ⊆ objects (repo wa) ∧ wf_store (repo wa) ∧
    apply (tree_modifier (self w)) (repo wa) = Ok (working_tree (self w1)) rb ∧
    objects rb ⊆ objects (repo w1).
Proof.
  intros Hwf Hc.
  destruct (commit_inv hash_inj _ _ Hwf Hc)
    as (last & wa & nt & rb & Hlast & Hrel & Hoid & Happly & Hwfb & Hext & Hcase).
  destruct Hrel as (_ & _ & _ & [Hsub _] & Hwfa).
  exists wa, rb. cbn zeta in Hcase. destruct Hcase as [[-> _]|Hcreate].
  - by split_and!; auto.
  - apply commit_create_frame in Hcreate as [Hwt Hsub1]. cbn in Hwt, Hsub1.
    rewrite Hwt. by split_and!; auto.
Qed.

Lemma apply_nothing T r nt rb :
  wf_store r → apply (mkTreeModifier T []) r = Ok nt rb →
  ∃ es, obj T = Tree es ∧ obj nt = Tree es.
Proof.
  intros Hwf Ha. unfold apply, simplify in Ha. cbn in Ha.
  apply bind_Ok_inv in Ha as (i & r1 & Hu & Ha).
  unfold update_tree in Hu.
  apply bind_Ok_inv in Hu as (es & r0 & [-> Hes]%TreeBuilder_Ok & Hu).
  cbn [for_items] in Hu. rewrite bind_ret_l in Hu.
  apply (tb_write_Ok hash_inj) in Hu as (-> & _ & _ & Hi); [|done].
  apply repo_getitem_Ok in Ha as (-> & Hoid & Hst).
  unfold stored in Hst. rewrite Hoid, Hi in Hst. injection Hst as Hst. eauto.
Qed.

Lemma write_commit_read w f c w1 w2 :
  wf_store (repo w) →
  tree_modifier (self w) = mkTreeModifier (working_tree (self w)) [] →
  write_file f c w = Ok tt w1 → commit w1 = Ok tt w2 →
  ∃ e, get_tree_entry (Some (working_tree (self w2))) f (repo w2)
       = Ok (Some e) (repo w2) ∧
       te_id e = git_hash (utf8_encode c).
Proof.
  intros Hwf Htm Hw Hc.
  destruct (write_file_Ok _ _ _ _ Hw) as (Hwt & [[Hsub1 _] Hwf1] & Hcase).
  specialize (Hwf1 Hwf).
  destruct (commit_tree_of _ _ Hwf1 Hc) as (wa & rb & Hsuba & Hwfa & Happly & Hsubb).
  destruct Hcase as [(e & Hget & Hid & ->)|Hstaged].
  - rewrite Htm in Happly.
    pose proof (always_Ok _ _ _ _ _ _ (always_apply _) Happly) as [[Hsubr _] _].
    destruct (apply_nothing _ _ _ _ Hwfa Happly) as (es & HT & Hnt).
    exists e. split; [|done].
    destruct (working_tree (self w2)) as [i o], (working_tree (self w)) as [j o'].
    simpl in HT, Hnt. subst o o'.
    rewrite (get_tree_entry_same_entries f i j).
    eapply lookup_stable_objects; [|exact Hget]. by repeat (etrans; [eassumption|]).
  - rewrite Hstaged, Htm in Happly. unfold insert_blob in Happly.
    cbn [tm_tree operations app] in Happly.
    rewrite apply_one_insert in Happly.
    apply bind_Ok_inv in Happly as (i & r2 & Hins & Hrepo).
    apply (insert_lookup hash_inj) in Hins
      as (T1 & parts & name & HT1 & _ & _ & Hlook); [|done].
    rewrite HT1 in Hrepo. injection Hrepo as HT -> . rewrite HT in Hlook.
    eexists. split; [eapply lookup_stable_objects; [|exact Hlook]; done|done].
Qed.

(** X22.  What is written is what the next tree holds.  In a session with
    nothing staged, after [write_file] of a path and a [commit] that
    returns, the path resolves in the session's new tree to an entry whose
    id is the hash of the encoded content. *)
Theorem write_file_commit_reads_back w f c w1 w2 :
  wf_store (repo w) →
  tree_modifier (self w) = mkTreeModifier (working_tree (self w)) [] →
  write_file f c w = Ok tt w1 → commit w1 = Ok tt w2 →
  ∃ e, get_tree_entry (Some (working_tree (self w2))) f (repo w2)
       = Ok (Some e) (repo w2) ∧
       te_id e = git_hash (utf8_encode c).
Proof. apply write_commit_read. Qed.

End WriteCommit.

Import PathFacts.

#[local] Arguments get_tree_entry_parts : simpl never.
#[local] Arguments insert_parts : simpl never.
#[local] Arguments remove_parts : simpl never.

(** ** What an edit leaves alone *)

Section Frame.
Context `{GitHash}.
Hypothesis hash_inj : Inj (=) (=) hash_object.

Lemma lookup_first d0 rest0 i j (es es' : builder) r :
  es !! d0 = es' !! d0 →
  get_tree_entry_parts (d0 :: rest0) (Some (mkPy i (Tree es))) r
  = get_tree_entry_parts (d0 :: rest0) (Some (mkPy j (Tree es'))) r.
Proof.
  intros Heq. destruct rest0 as [|d' rest0].
  - rewrite !get_tree_entry_parts_single. unfold tree_contains, tree_getitem.
    by rewrite Heq.
  - rewrite !get_tree_entry_parts_cons. unfold tree_contains, tree_getitem.
    by rewrite Heq.
Qed.

Lemma insert_parts_top d rest T c m r i r1 :
  wf_store r → insert_parts (d :: rest) (Some T) c m r = Ok i r1 →
  ∃ es x, obj T = Tree es ∧ objects r1 !! i = Some (Tree (<[d := x]> es)) ∧
          objects r ⊆ objects r1.
Proof.
  intros Hwf Hins.
  assert (∃ r0 x, wf_store r0 ∧ objects r ⊆ objects r0 ∧
            (let* tb := TreeBuilder (Some T) in
             let* tb := tb_insert tb d x.1 x.2 in tb_write tb) r0 = Ok i r1)
    as (r0 & x & Hwf0 & Hsub0 & Hw).
  { destruct rest as [|d' rest].
    - rewrite insert_parts_single in Hins. by exists r, (c, m).
    - rewrite insert_parts_cons in Hins.
      apply bind_Ok_inv in Hins as ([[f j] md] & r0 & Hsub & Hins).
      apply bind_Ok_inv in Hsub as (sub & ra & Hsub & Hrec).
      assert (ra = r) as ->.
      { apply bind_Ok_inv in Hsub as (present & rb & Hc & Hsub).
        apply (always_Ok eq builtin _ _ _ _ (always_tree_contains eq builtin _ _)) in Hc
          as <-.
        destruct present; [|by injection Hsub].
        apply bind_Ok_inv in Hsub as (e & rb & He & Hsub).
        apply (always_Ok eq builtin _ _ _ _ (always_tree_getitem eq builtin _ _)) in He
          as <-.
        apply bind_Ok_inv in Hsub as (t' & rb & (-> & _)%repo_getitem_Ok & Hsub).
        by injection Hsub. }
      apply bind_Ok_inv in Hrec as (j' & rb & Hrec & Hret).
      injection Hret as <- <- <- <-.
      apply (insert_parts_lookup hash_inj) in Hrec as (Hwf0 & [Hsub0 _] & _); [|done].
      by exists rb, (j', GIT_FILEMODE_TREE). }
  apply bind_Ok_inv in Hw as (tb & ra & [-> Hes]%TreeBuilder_Ok & Hw).
  apply bind_Ok_inv in Hw as (tb' & ra & (-> & -> & _)%tb_insert_Ok & Hw).
  apply (tb_write_Ok hash_inj) in Hw as (-> & [Hsub1 _] & _ & Hi); [|done].
  exists tb, x. destruct x. split_and!; [done|done|by etrans].
Qed.

Lemma removed_other tb f (d0 : string) :
  (∀ d, f = Some d → d0 ≠ d) → removed tb f !! d0 = tb !! d0.
Proof.
  intros Hne. unfold removed. destruct f as [d|]; [|done].
  destruct (PyStr.truthy d); [|done]. apply lookup_delete_ne. intros ->.
  by apply (Hne d0).
Qed.

Lemma remove_parts_top d rest T r R r' :
  wf_store r → stored r T → Path.valid_parts (d :: rest) = true →
  remove_parts (d :: rest) (Some T) r = Ok R r' →
  ∃ es es', obj T = Tree es ∧ objects r' !! R = Some (Tree es') ∧
            (∀ d0, d0 ≠ d → es' !! d0 = es !! d0) ∧ objects r ⊆ objects r'.
Proof.
  intros Hwf HT Hv Hrm. destruct rest as [|d' rest].
  - rewrite remove_parts_single in Hrm.
    apply bind_Ok_inv in Hrm as (es & r0 & [-> Hes]%TreeBuilder_Ok & Hrm).
    rewrite remove_and_write_eq in Hrm.
    apply (tb_write_Ok hash_inj) in Hrm as (-> & [Hsub _] & _ & HR); [|done].
    exists es, (removed es (Some d)). split_and!; [done|done| |done].
    intros d0 Hd0. apply removed_other. by intros ? [= <-].
  - rewrite remove_parts_cons in Hrm.
    apply bind_Ok_inv in Hrm as (es & r0 & [-> Hes]%TreeBuilder_Ok & Hrm).
    destruct (tb_get es d) as [e|] eqn:Hget.
    + apply tb_get_Some in Hget as (i & m & Hd & ->). cbn [te_id] in Hrm.
      apply bind_Ok_inv in Hrm as (sub & r1 & (-> & Hi & Hsub)%repo_getitem_Ok & Hrm).
      apply bind_Ok_inv in Hrm as (new & r2 & Hrec & Hrm).
      rewrite <- (remove_file_from_tree_fuel_parts (d' :: rest) (length (d' :: rest)))
        in Hrec; [|by apply (valid_parts_tail d)|done].
      apply (always_Ok grows other _ _ _ _ (always_remove_file_from_tree_fuel _ _ _))
        in Hrec as [[Hsub2 _] Hwf2]. specialize (Hwf2 Hwf).
      case_bool_decide as Hempty.
      * rewrite remove_and_write_eq in Hrm.
        apply (tb_write_Ok hash_inj) in Hrm as (-> & [Hsub3 _] & _ & HR); [|done].
        exists es, (removed es (Some d)). split_and!; [done|done| |by etrans].
        intros d0 Hd0. apply removed_other. by intros ? [= <-].
      * apply bind_Ok_inv in Hrm as (tb' & r3 & (-> & -> & Hname)%tb_insert_Ok & Hrm).
        rewrite remove_and_write_eq in Hrm.
        apply (tb_write_Ok hash_inj) in Hrm as (-> & [Hsub3 _] & _ & HR); [|done].
        eexists es, _. split_and!; [done|exact HR| |by etrans].
        intros d0 Hd0. simpl. by apply lookup_insert_ne.
    + simpl in Hrm. injection Hrm as <- <-.
      exists es, es. unfold stored in HT. rewrite Hes in HT. by split_and!.
Qed.

Lemma edit_keeps_other_paths T p q d rest d0 rest0 v r :
  wf_store r → stored r T →
  Path.full_split p = Some (d :: rest) → Path.full_split q = Some (d0 :: rest0) →
  d0 ≠ d →
  get_tree_entry (Some T) q r = Ok v r →
  (∀ c m i r1, insert_into_tree (Some T) p c m r = Ok i r1 →
     ∃ T1, repo_getitem i r1 = Ok T1 r1 ∧ get_tree_entry (Some T1) q r1 = Ok v r1) ∧
  (∀ R r', remove_file_from_tree (Some T) p r = Ok R r' →
     ∃ T', repo_getitem R r' = Ok T' r' ∧ get_tree_entry (Some T') q r' = Ok v r').
Proof.
  intros Hwf HT Hp Hq Hne Hget.
  rewrite (get_tree_entry_eq _ _ _ _ Hq) in Hget. split.
  - intros c m i r1 Hins. rewrite (insert_into_tree_eq _ _ _ _ _ _ Hp) in Hins.
    apply insert_parts_top in Hins as (es & x & HTes & Hi & Hsub); [|done].
    exists (mkPy i (Tree (<[d := x]> es))). split; [by apply repo_getitem_stored|].
    rewrite (get_tree_entry_eq _ _ _ _ Hq).
    destruct T as [j o]. simpl in HTes. subst o.
    rewrite (lookup_first d0 rest0 i j _ es) by (by apply lookup_insert_ne).
    by eapply lookup_stable.
  - intros R r' Hrm. rewrite (remove_file_from_tree_eq _ _ _ _ Hp) in Hrm.
    destruct (full_split_Some _ _ Hp) as (_ & Hv & _).
    apply remove_parts_top in Hrm as (es & es' & HTes & HR & Hsame & Hsub); try done.
    exists (mkPy R (Tree es')). split; [by apply repo_getitem_stored|].
    rewrite (get_tree_entry_eq _ _ _ _ Hq).
    destruct T as [j o]. simpl in HTes. subst o.
    rewrite (lookup_first d0 rest0 R j _ es) by (by apply Hsame).
    by eapply lookup_stable.
Qed.

(** X12.  An insert or a removal leaves alone what the tree holds under every
    other top-level name: a path whose first part differs from the first
    part of the edited path resolves, in the tree the edit returns, to
    what it resolved to before. *)
Theorem tree_edit_keeps_other_paths T p q d rest d0 rest0 v r :
  wf_store r → stored r T →
  Path.full_split p = Some (d :: rest) → Path.full_split q = Some (d0 :: rest0) →
  d0 ≠ d →
  get_tree_entry (Some T) q r = Ok v r →
  (∀ c m i r1, insert_into_tree (Some T) p c m r = Ok i r1 →
     ∃ T1, repo_getitem i r1 = Ok T1 r1 ∧ get_tree_entry (Some T1) q r1 = Ok v r1) ∧
  (∀ R r', remove_file_from_tree (Some T) p r = Ok R r' →
     ∃ T', repo_getitem R r' = Ok T' r' ∧ get_tree_entry (Some T') q r' = Ok v r').
Proof. apply edit_keeps_other_paths. Qed.

End Frame.

(** ** A commit that can not be signed *)

Section Unsigned.
Context `{GitHash}.

Lemma commit_unsigned w last wa nt rb :
  get_last_tree w = Ok last wa →
  oid (tm_tree (tree_modifier (self w))) = oid last →
  apply (tree_modifier (self w)) (repo wa) = Ok nt rb →
  head_is_unborn (repo w) = true →
  config (repo w) !! "user.name" = None →
  ∃ w', commit w = Raise KeyError w' ∧
        working_tree (self w') = nt ∧
        tree_modifier (self w') = mkTreeModifier nt [] ∧
        messages (self w') = messages (self w) ∧
        references (repo w') = references (repo w) ∧ files w' = files w.
Proof.
  intros Hlast Hoid Happly Hunborn Hcfg.
  pose proof (always_Ok _ _ _ _ _ _ always_get_last_tree Hlast)
    as (Hself & Hfiles & _ & (_ & Hrefs_a & Hhead_a & _ & Hcfg_a & _) & _).
  pose proof (always_Ok _ _ _ _ _ _ (always_apply _) Happly)
    as [(_ & Hrefs_b & Hhead_b & _ & Hcfg_b & _) _].
  rewrite commit_unfold. rewrite (bind_Ok _ _ _ _ _ Hlast).
  rewrite bool_decide_eq_false_2 by (by intros ?).
  rewrite (bind_Ok _ _ _ _ _ (liftR_Ok _ _ _ _ Happly)).
  rewrite !bind_modify, bind_get. cbn [repo set_self set_repo].
  assert (head_is_unborn rb = true) as ->.
  { unfold head_is_unborn in *. by rewrite <- Hrefs_b, <- Hrefs_a, <- Hhead_b, <- Hhead_a. }
  unfold commit_create. unfold bind at 1. unfold liftR at 1.
  cbn [repo set_self set_repo]. unfold bind at 1. unfold config_getitem at 1.
  rewrite <- Hcfg_b, <- Hcfg_a, Hcfg.
  eexists. split; [reflexivity|]. cbn. rewrite Hself. split_and!; try done.
  congruence.
Qed.

(** X23.  A first commit without a configured user.  On an unborn head, when
    the batch applies but user.name is not configured, [commit] raises
    KeyError after it has replaced the session's tree and emptied the
    operation log: nothing is committed (the references are as they
    were), and the staged operations are gone from the log. *)
Theorem commit_without_user_consumes_batch w last wa nt rb :
  get_last_tree w = Ok last wa →
  oid (tm_tree (tree_modifier (self w))) = oid last →
  apply (tree_modifier (self w)) (repo wa) = Ok nt rb →
  head_is_unborn (repo w) = true →
  config (repo w) !! "user.name" = None →
  ∃ w', commit w = Raise KeyError w' ∧
        working_tree (self w') = nt ∧
        tree_modifier (self w') = mkTreeModifier nt [] ∧
        messages (self w') = messages (self w) ∧
        references (repo w') = references (repo w) ∧ files w' = files w.
Proof. apply commit_unsigned. Qed.

End Unsigned.

Import Example ExampleFacts.

(** ** More of the theorems at work *)

Section MoreWitnesses.
#[local] Existing Instance ideal.

Lemma abc_lookup :
  get_tree_entry (Some abc.1) "a/b/c.txt" abc.2
    = Ok (Some (mkEntry "c.txt" blobX GIT_FILEMODE_BLOB)) abc.2.
Proof. refine (get_tree_entry_value _ _ _ _ _). vm_refl. Qed.

Lemma abc_removed_has : objects abc.2 ⊆ objects abc_removed.2.
Proof.
  exact (proj1 (proj1 (always_Ok grows other _ _ _ _
                         (always_remove_file_from_tree_fuel _ _ _) abc_remove))).
Qed.

(** [get_tree_entry_stable]: the tree that holds a/b/c.txt still resolves
    it in the repository that [remove_file_from_tree] left. *)
Lemma get_tree_entry_stable_witness :
  get_tree_entry (Some abc.1) "a/b/c.txt" abc_removed.2
    = Ok (Some (mkEntry "c.txt" blobX GIT_FILEMODE_BLOB)) abc_removed.2.
Proof.
  exact (get_tree_entry_stable (Some abc.1) "a/b/c.txt" abc.2 _ abc.2 abc_removed.2
           abc_removed_has abc_lookup).
Defined.

(** [abc] after the insert of a/d/e.txt. *)
Lemma abc_insert :
  insert_into_tree (Some abc.1) "a/d/e.txt" blobX GIT_FILEMODE_BLOB abc.2
    = Ok (run (insert_into_tree (Some abc.1) "a/d/e.txt" blobX GIT_FILEMODE_BLOB)
              abc.2 1%positive).1
         (run (insert_into_tree (Some abc.1) "a/d/e.txt" blobX GIT_FILEMODE_BLOB)
              abc.2 1%positive).2.
Proof.
  refine (run_Ok (insert_into_tree (Some abc.1) "a/d/e.txt" blobX GIT_FILEMODE_BLOB)
                 abc.2 1%positive _).
  vm_refl.
Qed.

(** [insert_into_tree_then_lookup] on the insert of a/d/e.txt into the
    tree that holds a/b/c.txt. *)
Lemma insert_into_tree_then_lookup_witness :
  ∃ i r1 T1 parts name,
    insert_into_tree (Some abc.1) "a/d/e.txt" blobX GIT_FILEMODE_BLOB abc.2 = Ok i r1 ∧
    repo_getitem i r1 = Ok T1 r1 ∧
    Path.full_split "a/d/e.txt" = Some parts ∧ last parts = Some name ∧
    get_tree_entry (Some T1) "a/d/e.txt" r1
    = Ok (Some (mkEntry name blobX
                  (match parts with
                   | [_] => GIT_FILEMODE_BLOB
                   | _ => GIT_FILEMODE_BLOB
                   end))) r1.
Proof.
  destruct (insert_into_tree_then_lookup ideal_inj (Some abc.1) "a/d/e.txt" blobX
              GIT_FILEMODE_BLOB abc.2 _ _ wf_store_abc abc_insert)
    as (T1 & parts & name & Hlook).
  exact (ex_intro _ _ (ex_intro _ _ (ex_intro _ T1 (ex_intro _ parts
           (ex_intro _ name (conj abc_insert Hlook)))))).
Defined.


(** [remove_file_from_tree_missing_directory] on x/y. *)
Lemma remove_file_from_tree_missing_directory_witness :
  remove_file_from_tree None "x/y" repo0 = Raise AttributeError repo0 ∧
  ∀ T es, obj T = Tree es → es !! "x" = None →
          remove_file_from_tree (Some T) "x/y" repo0 = Ok (oid T) repo0.
Proof.
  exact (remove_file_from_tree_missing_directory "x/y" "x" "y" [] repo0 eq_refl).
Defined.

(** [abc] after the move of a/b/c.txt to z.txt. *)
Lemma abc_move :
  move_file_in_tree (Some abc.1) "a/b/c.txt" "z.txt" abc.2
    = Ok (run (move_file_in_tree (Some abc.1) "a/b/c.txt" "z.txt") abc.2 1%positive).1
         (run (move_file_in_tree (Some abc.1) "a/b/c.txt" "z.txt") abc.2 1%positive).2.
Proof.
  refine (run_Ok (move_file_in_tree (Some abc.1) "a/b/c.txt" "z.txt") abc.2 1%positive _).
  vm_refl.
Qed.

(** [move_file_in_tree_result] on that move. *)
Lemma move_file_in_tree_result_witness :
  ∃ i r1 e T1 parts name,
    move_file_in_tree (Some abc.1) "a/b/c.txt" "z.txt" abc.2 = Ok i r1 ∧
    get_tree_entry (Some abc.1) "a/b/c.txt" abc.2 = Ok (Some e) abc.2 ∧
    repo_getitem i r1 = Ok T1 r1 ∧
    Path.full_split "z.txt" = Some parts ∧ last parts = Some name ∧
    get_tree_entry (Some T1) "z.txt" r1
    = Ok (Some (mkEntry name (te_id e)
                  (match parts with
                   | [_] => te_filemode e
                   | _ => GIT_FILEMODE_BLOB
                   end))) r1.
Proof.
  destruct (proj2 (move_file_in_tree_result ideal_inj (Some abc.1) "a/b/c.txt" "z.txt"
                     abc.2 wf_store_abc) _ _ abc_move)
    as (e & T1 & parts & name & Hres).
  exact (ex_intro _ _ (ex_intro _ _ (ex_intro _ e (ex_intro _ T1 (ex_intro _ parts
           (ex_intro _ name (conj abc_move Hres))))))).
Defined.

(** [simplify_last_write_wins] on an insert, a remove and an insert. *)
Lemma simplify_last_write_wins_witness :
  ∃ todo',
    simplify_operations empty.1 []
      [OpInsert blobX "f"; OpRemove "f"; OpInsert blobX "g"] repo0 = Ok todo' repo0 ∧
    ∀ f, dict_get f todo'
         = last_write f [OpInsert blobX "f"; OpRemove "f"; OpInsert blobX "g"]
                      (dict_get f []).
Proof.
  exact (simplify_last_write_wins empty.1
           [OpInsert blobX "f"; OpRemove "f"; OpInsert blobX "g"] [] repo0 eq_refl).
Defined.

(** [simplify_file_and_directory] on a and a/b. *)
Lemma simplify_file_and_directory_witness :
  simplify (mkTreeModifier empty.1
              [OpInsert blobX "a"; OpInsert blobX (Path.path_of ["a"; "b"])]) repo0
  = Raise AssertionError repo0 ∧
  simplify (mkTreeModifier empty.1
              [OpInsert blobX (Path.path_of ["a"; "b"]); OpInsert blobX "a"]) repo0
  = Ok [("a", Leaf (TId blobX))] repo0.
Proof.
  exact (simplify_file_and_directory empty.1 blobX blobX "a" "b" repo0 eq_refl eq_refl).
Defined.

(** [apply_remove_of_missing_path] on the removal of a/d/e.txt from the
    tree that holds a/b/c.txt only. *)
Lemma apply_remove_of_missing_path_witness :
  apply (mkTreeModifier abc.1 [OpRemove "a/d/e.txt"]) abc.2 = Raise GitError abc.2.
Proof. exact (apply_remove_of_missing_path abc.1 "a/d/e.txt" abc.2 abc_absent). Defined.

Lemma wf_store_committed : wf_store (repo committed).
Proof.
  apply (bool_decide_unpack
           (map_Forall (λ i o, hash_object o = i) (objects (repo committed)))).
  vm_compute. exact I.
Qed.

Lemma committed_born : head_is_unborn (repo committed) = false.
Proof. vm_refl. Qed.

Lemma committed_reset :
  reset committed = Ok tt (state_of (reset committed) committed).
Proof. refine (state_of_Ok reset committed _). vm_refl. Qed.

(** [fresh_session_commit_is_noop] on the session that committed
    a/b/c.txt, after a reset. *)
Lemma fresh_session_commit_is_noop_witness :
  ∃ w1, reset committed = Ok tt w1 ∧ commit w1 = Ok tt w1.
Proof.
  exact (ex_intro _ _
           (conj committed_reset
              (proj1 (fresh_session_commit_is_noop committed wf_store_committed
                        committed_born) _ committed_reset))).
Defined.

Lemma session0_absent :
  get_tree_entry (Some (working_tree (self session0))) "a/b/c.txt" (repo session0)
    = Ok None (repo session0).
Proof. refine (get_tree_entry_value _ _ _ _ _). vm_refl. Qed.

(** [remove_file_after_write_file_does_nothing] on the first write of a
    session. *)
Lemma remove_file_after_write_file_does_nothing_witness :
  ∃ w1, write_file "a/b/c.txt" "x" session0 = Ok tt w1 ∧
        remove_file (λ _ _, ret tt) "a/b/c.txt" w1 = Ok tt w1 ∧
        operations (tree_modifier (self w1))
        = app (operations (tree_modifier (self session0)))
              [OpInsert (git_hash (utf8_encode "x")) "a/b/c.txt"].
Proof.
  exact (remove_file_after_write_file_does_nothing (λ _ _, ret tt) "a/b/c.txt" "x"
           session0 session0_absent).
Defined.

Lemma session0_bare : is_bare (repo session0) = true.
Proof. vm_refl. Qed.

(** [move_file_then_commit_never_returns] on a session over a bare
    repository. *)
Lemma move_file_then_commit_never_returns_witness :
  is_ok ((move_file (λ _ _, ret tt) (λ _ _, ret tt) "a" "b" ;; commit) session0) = false.
Proof.
  exact (move_file_then_commit_never_returns (λ _ _, ret tt) (λ _ _, ret tt) "a" "b"
           session0 empty.1 eq_refl (or_introl session0_bare)).
Defined.

(** [commit_outcome] on the commit of the session that wrote a/b/c.txt. *)
Lemma commit_outcome_witness :
  tree_modifier (self committed) = mkTreeModifier (working_tree (self committed)) [] ∧
  ((references (repo committed) = references (repo staged) ∧
    messages (self committed) = messages (self staged) ∧
    files committed = files staged ∧
    head_is_unborn (repo staged) = false)
   ∨ ∃ name email,
       config (repo staged) !! "user.name" = Some name ∧
       config (repo staged) !! "user.email" = Some email ∧
       let cd := commit_of staged
                   (match references (repo staged) !! HEAD (repo staged) with
                    | Some h => [h] | None => [] end)
                   name email (oid (working_tree (self committed))) in
       let c := hash_object (Commit cd) in
       objects (repo committed) !! c = Some (Commit cd) ∧
       references (repo committed)
       = <["refs/heads/master" := c]> (references (repo staged)) ∧
       messages (self committed) = [] ∧
       files committed = <[Path.join (path (self staged)) ["dbcommit"]
                           := hex c ++ String "010"%char ""]> (files staged)).
Proof.
  exact (commit_outcome ideal_inj staged committed staged_head wf_store_staged
           staged_commit).
Defined.

Lemma session0_write : write_file "a/b/c.txt" "x" session0 = Ok tt staged.
Proof. refine (state_of_Ok (write_file "a/b/c.txt" "x") session0 _). vm_refl. Qed.

(** [write_file_commit_reads_back] on the same session. *)
Lemma write_file_commit_reads_back_witness :
  ∃ e, get_tree_entry (Some (working_tree (self committed))) "a/b/c.txt"
                      (repo committed) = Ok (Some e) (repo committed) ∧
       te_id e = git_hash (utf8_encode "x").
Proof.
  exact (write_file_commit_reads_back ideal_inj session0 "a/b/c.txt" "x" staged committed
           wf_store_empty eq_refl session0_write staged_commit).
Defined.

End MoreWitnesses.

Import Example ExampleFacts.

Section FrameWitnesses.
#[local] Existing Instance ideal.

Lemma a_is_not_x : "a" ≠ "x.txt".
Proof. intros [=]. Qed.

(** [tree_edit_keeps_other_paths] on the tree that holds a/b/c.txt, for
    an edit of x.txt. *)
Lemma tree_edit_keeps_other_paths_witness :
  (∀ c m i r1, insert_into_tree (Some abc.1) "x.txt" c m abc.2 = Ok i r1 →
     ∃ T1, repo_getitem i r1 = Ok T1 r1 ∧
           get_tree_entry (Some T1) "a/b/c.txt" r1
           = Ok (Some (mkEntry "c.txt" blobX GIT_FILEMODE_BLOB)) r1) ∧
  (∀ R r', remove_file_from_tree (Some abc.1) "x.txt" abc.2 = Ok R r' →
     ∃ T', repo_getitem R r' = Ok T' r' ∧
           get_tree_entry (Some T') "a/b/c.txt" r'
           = Ok (Some (mkEntry "c.txt" blobX GIT_FILEMODE_BLOB)) r').
Proof.
  exact (tree_edit_keeps_other_paths ideal_inj abc.1 "x.txt" "a/b/c.txt"
           "x.txt" [] "a" ["b"; "c.txt"] _ abc.2
           wf_store_abc stored_abc eq_refl eq_refl a_is_not_x abc_lookup).
Defined.

Lemma anonymous_last :
  get_last_tree anonymous
  = Ok (run get_last_tree anonymous (working_tree (self anonymous))).1
       (run get_last_tree anonymous (working_tree (self anonymous))).2.
Proof.
  refine (run_Ok get_last_tree anonymous (working_tree (self anonymous)) _). vm_refl.
Qed.

Lemma anonymous_same :
  oid (tm_tree (tree_modifier (self anonymous)))
  = oid (run get_last_tree anonymous (working_tree (self anonymous))).1.
Proof. vm_refl. Qed.

Lemma anonymous_apply :
  apply (tree_modifier (self anonymous))
        (repo (run get_last_tree anonymous (working_tree (self anonymous))).2)
  = Ok (run (apply (tree_modifier (self anonymous)))
            (repo (run get_last_tree anonymous (working_tree (self anonymous))).2)
            (working_tree (self anonymous))).1
       (run (apply (tree_modifier (self anonymous)))
            (repo (run get_last_tree anonymous (working_tree (self anonymous))).2)
            (working_tree (self anonymous))).2.
Proof.
  refine (run_Ok (apply (tree_modifier (self anonymous)))
                 (repo (run get_last_tree anonymous (working_tree (self anonymous))).2)
                 (working_tree (self anonymous)) _).
  vm_refl.
Qed.

Lemma anonymous_unborn : head_is_unborn (repo anonymous) = true.
Proof. vm_refl. Qed.

Lemma anonymous_unconfigured : config (repo anonymous) !! "user.name" = None.
Proof. vm_refl. Qed.

(** [commit_without_user_consumes_batch] on a session that staged a.txt
    in a repository without a configured user. *)
Lemma commit_without_user_consumes_batch_witness :
  ∃ nt w', commit anonymous = Raise KeyError w' ∧
           working_tree (self w') = nt ∧
           tree_modifier (self w') = mkTreeModifier nt [] ∧
           messages (self w') = messages (self anonymous) ∧
           references (repo w') = references (repo anonymous) ∧
           files w' = files anonymous.
Proof.
  exact (ex_intro _ _
           (commit_without_user_consumes_batch anonymous _ _ _ _
              anonymous_last anonymous_same anonymous_apply
              anonymous_unborn anonymous_unconfigured)).
Defined.

End FrameWitnesses.
